(** * StreamingMessage: incremental markdown rendering

    A shallow embedding of the streaming-message component
    (block splitter, incremental render controller, flush to the committed
    region) and the properties its specification states about it.

    Layout: Part I holds the embedding (definitions only), Part II the
    lemmas and theorems. *)

From Stdlib Require Import String Ascii List Bool Arith NArith Lia.
Import ListNotations.

Set Implicit Arguments.

(* ===================================================================== *)
(** * Part I — the embedding                                              *)
(* ===================================================================== *)

(** ** JavaScript strings

    A JS string is a sequence of UTF-16 code units.  A code unit is an [N];
    the functions below only ever compare code units, so values above
    65535 behave like any other non-space character. *)

Module JsString.

Definition char := N.
Definition str := list char.

Definition nl : char := 10%N.

(** [lit] turns a Rocq string literal into a JS string. *)
Fixpoint lit (s : string) : str :=
  match s with
  | EmptyString => []
  | String a s' => N_of_ascii a :: lit s'
  end.

Definition str_eqb (a b : str) : bool :=
  if list_eq_dec N.eq_dec a b then true else false.

(** JS truthiness of a string: [!s] holds exactly for the empty string. *)
Definition truthy (s : str) : bool :=
  match s with [] => false | _ :: _ => true end.

(** [a || b] on strings. *)
Definition orElse (a b : str) : str := if truthy a then a else b.

(** WhiteSpace and LineTerminator code units: what [String.prototype.trim]
    strips and what the regular expression class [\s] matches. *)
Definition is_space (c : char) : bool :=
  ((9 <=? c) && (c <=? 13) || (c =? 32) || (c =? 160) || (c =? 5760)
   || (8192 <=? c) && (c <=? 8202) || (c =? 8232) || (c =? 8233)
   || (c =? 8239) || (c =? 8287) || (c =? 12288) || (c =? 65279))%N.

Definition is_digit (c : char) : bool := ((48 <=? c) && (c <=? 57))%N.

Fixpoint dropWhile (p : char -> bool) (s : str) : str :=
  match s with
  | [] => []
  | c :: s' => if p c then dropWhile p s' else s
  end.

Fixpoint takeWhile (p : char -> bool) (s : str) : str :=
  match s with
  | [] => []
  | c :: s' => if p c then c :: takeWhile p s' else []
  end.

Definition trimStart (s : str) : str := dropWhile is_space s.
Definition trimEnd (s : str) : str := rev (dropWhile is_space (rev s)).

(** [s.trim()] *)
Definition trim (s : str) : str := trimEnd (trimStart s).

(** [s.startsWith(p)] *)
Fixpoint startsWith (s p : str) : bool :=
  match p, s with
  | [], _ => true
  | _ :: _, [] => false
  | a :: p', b :: s' => (a =? b)%N && startsWith s' p'
  end.

(** [s.slice(n)] for [0 <= n]. *)
Definition sliceFrom (n : nat) (s : str) : str := skipn n s.

(** [s.substring(0, n)] for [0 <= n]. *)
Definition substringTo (n : nat) (s : str) : str := firstn n s.

(** [s.split('\n')]: never empty, [''.split('\n')] is [['']]. *)
Fixpoint split_nl (s : str) : list str :=
  match s with
  | [] => [[]]
  | c :: s' =>
      if (c =? nl)%N then [] :: split_nl s'
      else match split_nl s' with
           | l :: ls => (c :: l) :: ls
           | [] => [[c]]
           end
  end.

(** [lines.join('\n')] *)
Fixpoint join_nl (ls : list str) : str :=
  match ls with
  | [] => []
  | l :: ls' =>
      match ls' with
      | [] => l
      | _ :: _ => l ++ nl :: join_nl ls'
      end
  end.

End JsString.

Import JsString.

(** ** The block splitter: [splitIntoBlocks] *)

Module Splitter.

Definition backticks : str := lit "```".
Definition tildes : str := lit "~~~".

(** [trimmed.match(/^(```|~~~)/)]: the captured delimiter, if any. *)
Definition fenceMatch (trimmed : str) : option str :=
  if startsWith trimmed backticks then Some backticks
  else if startsWith trimmed tildes then Some tildes
  else None.

Definition is_hash (c : char) : bool := (c =? 35)%N.

(** [/^#{1,6}\s/] *)
Definition startsHeading (s : str) : bool :=
  let k := length (takeWhile is_hash s) in
  (1 <=? k) && (k <=? 6) &&
  match dropWhile is_hash s with
  | c :: _ => is_space c
  | [] => false
  end.

(** [/^[-*+]\s/] *)
Definition startsBullet (s : str) : bool :=
  match s with
  | c :: d :: _ => ((c =? 45) || (c =? 42) || (c =? 43))%N && is_space d
  | _ => false
  end.

(** [/^\d+\.\s/] *)
Definition startsOrdered (s : str) : bool :=
  match takeWhile is_digit s, dropWhile is_digit s with
  | _ :: _, c :: d :: _ => (c =? 46)%N && is_space d
  | _, _ => false
  end.

(** [blockStarters.test(s)] with
    [/^#{1,6}\s|^>|^[-*+]\s|^\d+\.\s|^```|^~~~|^\|/]. *)
Definition blockStarters (s : str) : bool :=
  startsHeading s
  || startsWith s (lit ">")
  || startsBullet s
  || startsOrdered s
  || startsWith s backticks
  || startsWith s tildes
  || startsWith s (lit "|").

(** The local variables of the loop. [currentBlock] is the array of lines
    of the block being accumulated. *)
Record splitState := {
  blocks : list str;
  currentBlock : list str;
  inCodeFence : bool;
  fenceChar : str
}.

Definition splitInit : splitState :=
  {| blocks := []; currentBlock := []; inCodeFence := false; fenceChar := [] |}.

Definition nonEmpty (A : Type) (l : list A) : bool :=
  match l with [] => false | _ :: _ => true end.

(** [currentBlock.push(line)] *)
Definition pushLine (line : str) (st : splitState) : splitState :=
  {| blocks := blocks st;
     currentBlock := currentBlock st ++ [line];
     inCodeFence := inCodeFence st;
     fenceChar := fenceChar st |}.

(** [blocks.push(currentBlock.join('\n')); currentBlock = []] *)
Definition closeBlock (st : splitState) : splitState :=
  {| blocks := blocks st ++ [join_nl (currentBlock st)];
     currentBlock := [];
     inCodeFence := inCodeFence st;
     fenceChar := fenceChar st |}.

(** One iteration of the [for] loop on [line = lines[i]]; [rest] is
    [lines[i+1..]], which the blank-line lookahead
    [lines.findIndex((l, idx) => idx > i && l.trim() !== '')] inspects. *)
Definition splitStep (line : str) (rest : list str) (st : splitState)
  : splitState :=
  let trimmed := trim line in
  match fenceMatch trimmed with
  | Some delim =>
      if negb (inCodeFence st) then
        let st1 := if nonEmpty (currentBlock st) then closeBlock st else st in
        {| blocks := blocks st1;
           currentBlock := currentBlock st1 ++ [line];
           inCodeFence := true;
           fenceChar := delim |}
      else if startsWith trimmed (fenceChar st) then
        let st1 := closeBlock (pushLine line st) in
        {| blocks := blocks st1;
           currentBlock := currentBlock st1;
           inCodeFence := false;
           fenceChar := [] |}
      else pushLine line st
  | None =>
      if inCodeFence st then pushLine line st
      else if negb (truthy trimmed) && nonEmpty (currentBlock st) then
        let nextLine := find (fun l => truthy (trim l)) rest in
        match nextLine with
        | None => closeBlock st
        | Some nxt =>
            if negb (truthy nxt) || blockStarters nxt then closeBlock st
            else pushLine line st
        end
      else pushLine line st
  end.

Fixpoint splitLoop (lines : list str) (st : splitState) : splitState :=
  match lines with
  | [] => st
  | line :: rest => splitLoop rest (splitStep line rest st)
  end.

Definition splitIntoBlocks (markdown : str) : list str :=
  if negb (truthy markdown) then [[]]
  else
    let st := splitLoop (split_nl markdown) splitInit in
    let st' := if nonEmpty (currentBlock st) then closeBlock st else st in
    if nonEmpty (blocks st') then blocks st' else [[]].

(** The loop state after the iterations on the lines [pre] of the array
    [pre ++ post]. *)
Fixpoint splitUpto (pre post : list str) (st : splitState) : splitState :=
  match pre with
  | [] => st
  | line :: rest => splitUpto rest post (splitStep line (rest ++ post) st)
  end.

(** A blank line: only white space, and no line break inside. *)
Definition isBlank (w : str) : bool :=
  negb (truthy (trim w)) && negb (existsb (N.eqb nl) w).

(** What may stand between two consecutive blocks in the input: a line
    break, or a line break, a blank line and a line break. *)
Definition isSeparator (sep : str) : Prop :=
  sep = [nl] \/ exists w, isBlank w = true /\ sep = nl :: w ++ [nl].

(** What may be left over after the last block: nothing, or a line break
    and a blank line. *)
Definition isTrailing (t : str) : Prop :=
  t = [] \/ exists w, isBlank w = true /\ t = nl :: w.

(** [weave [s1; ..; sn] [b1; ..; bn]] is [s1 b1 .. sn bn]. *)
Fixpoint weave (seps bs : list str) : str :=
  match seps, bs with
  | sep :: seps', b :: bs' => sep ++ b ++ weave seps' bs'
  | _, _ => []
  end.

(** [Tiles text bs trailing]: [text] is the blocks [bs] in order, the
    first one at the very start, consecutive ones separated by a
    separator, followed by [trailing]. *)
Definition Tiles (text : str) (bs : list str) (trailing : str) : Prop :=
  exists seps,
    length seps = length bs
    /\ match seps with
       | [] => True
       | s0 :: ss => s0 = [] /\ Forall isSeparator ss
       end
    /\ text = weave seps bs ++ trailing.

(** The loop invariant: the lines read so far, joined, are tiled by the
    pushed blocks and the block being accumulated. *)
Definition TileInv (done : list str) (st : splitState) : Prop :=
  (inCodeFence st = true -> currentBlock st <> [])
  /\ match currentBlock st with
     | [] =>
         (done = [] /\ blocks st = [])
         \/ (done <> [] /\ blocks st <> []
             /\ exists trailing,
                  isTrailing trailing
                  /\ Tiles (join_nl done) (blocks st) trailing)
     | _ :: _ =>
         done <> []
         /\ Tiles (join_nl done)
                  (blocks st ++ [join_nl (currentBlock st)]) []
     end.

End Splitter.

Import Splitter.

(** ** The component: state, DOM and scheduling

    External collaborators enter as parameters:
    - [render] is [md.render], the markdown engine;
    - [node] is the type of DOM child nodes and [parseHtml] the browser's
      HTML parser, i.e. the child nodes an element gets when its
      [innerHTML] is assigned.

    A container is modelled by the sequence of its child nodes.  The
    first-block / last-block class stamps of [applyMarginClasses] and the
    lazy syntax highlighting decorate nodes in place; they neither add,
    remove nor reorder children of a container and are therefore kept as
    tasks without effect on the model.

    Scheduling.  The watcher callback runs to completion; Vue then
    re-renders the component, which assigns [innerHTML] of the in-flight
    container only when the value bound by [v-html] differs from the value
    of the previous render; afterwards the [nextTick] callbacks run in the
    order they were registered.  A callback that writes a new value to the
    reactive ref queues one more re-render behind the callbacks already
    waiting. *)

Inductive event := EvStart | EvComplete.

Inductive task :=
| TRender                           (* Vue re-render of the component *)
| TApplyMarginStatic                (* () => applyMarginClasses(staticContainer.value) *)
| TApplyMarginStreaming             (* () => applyMarginClasses(streamingContainer.value) *)
| TFlushToStatic                    (* () => flushToStatic() *)
| TFinalizeReset (fullText : str)   (* the nextTick callback of finalizeAll *)
| THighlight.                       (* () => highlightAllBlocks(staticContainer.value) *)

Section Component.

Variable node : Type.
Variable parseHtml : str -> list node.
Variable render : str -> str.

Record state := {
  staticContainer : option (list node);      (* [None]: the ref is null *)
  streamingContainer : option (list node);
  streamingHtml : str;                       (* the reactive ref's value *)
  boundHtml : str;                           (* v-html value of the last render *)
  staticBlockCount : nat;
  tailMarkdown : str;
  prevContent : str;
  lastRenderKey : str;
  hasEmittedStart : bool;
  lastCompleteBlockCount : nat;
  emitted : list event;                      (* log of emit(...) calls *)
  pending : list task                        (* callbacks waiting to run *)
}.

Definition set_staticContainer v (s : state) : state :=
  {| staticContainer := v; streamingContainer := streamingContainer s;
     streamingHtml := streamingHtml s; boundHtml := boundHtml s;
     staticBlockCount := staticBlockCount s; tailMarkdown := tailMarkdown s;
     prevContent := prevContent s; lastRenderKey := lastRenderKey s;
     hasEmittedStart := hasEmittedStart s;
     lastCompleteBlockCount := lastCompleteBlockCount s;
     emitted := emitted s; pending := pending s |}.

Definition set_streamingContainer v (s : state) : state :=
  {| staticContainer := staticContainer s; streamingContainer := v;
     streamingHtml := streamingHtml s; boundHtml := boundHtml s;
     staticBlockCount := staticBlockCount s; tailMarkdown := tailMarkdown s;
     prevContent := prevContent s; lastRenderKey := lastRenderKey s;
     hasEmittedStart := hasEmittedStart s;
     lastCompleteBlockCount := lastCompleteBlockCount s;
     emitted := emitted s; pending := pending s |}.

Definition set_streamingHtml v (s : state) : state :=
  {| staticContainer := staticContainer s;
     streamingContainer := streamingContainer s;
     streamingHtml := v; boundHtml := boundHtml s;
     staticBlockCount := staticBlockCount s; tailMarkdown := tailMarkdown s;
     prevContent := prevContent s; lastRenderKey := lastRenderKey s;
     hasEmittedStart := hasEmittedStart s;
     lastCompleteBlockCount := lastCompleteBlockCount s;
     emitted := emitted s; pending := pending s |}.

Definition set_boundHtml v (s : state) : state :=
  {| staticContainer := staticContainer s;
     streamingContainer := streamingContainer s;
     streamingHtml := streamingHtml s; boundHtml := v;
     staticBlockCount := staticBlockCount s; tailMarkdown := tailMarkdown s;
     prevContent := prevContent s; lastRenderKey := lastRenderKey s;
     hasEmittedStart := hasEmittedStart s;
     lastCompleteBlockCount := lastCompleteBlockCount s;
     emitted := emitted s; pending := pending s |}.

Definition set_staticBlockCount v (s : state) : state :=
  {| staticContainer := staticContainer s;
     streamingContainer := streamingContainer s;
     streamingHtml := streamingHtml s; boundHtml := boundHtml s;
     staticBlockCount := v; tailMarkdown := tailMarkdown s;
     prevContent := prevContent s; lastRenderKey := lastRenderKey s;
     hasEmittedStart := hasEmittedStart s;
     lastCompleteBlockCount := lastCompleteBlockCount s;
     emitted := emitted s; pending := pending s |}.

Definition set_tailMarkdown v (s : state) : state :=
  {| staticContainer := staticContainer s;
     streamingContainer := streamingContainer s;
     streamingHtml := streamingHtml s; boundHtml := boundHtml s;
     staticBlockCount := staticBlockCount s; tailMarkdown := v;
     prevContent := prevContent s; lastRenderKey := lastRenderKey s;
     hasEmittedStart := hasEmittedStart s;
     lastCompleteBlockCount := lastCompleteBlockCount s;
     emitted := emitted s; pending := pending s |}.

Definition set_prevContent v (s : state) : state :=
  {| staticContainer := staticContainer s;
     streamingContainer := streamingContainer s;
     streamingHtml := streamingHtml s; boundHtml := boundHtml s;
     staticBlockCount := staticBlockCount s; tailMarkdown := tailMarkdown s;
     prevContent := v; lastRenderKey := lastRenderKey s;
     hasEmittedStart := hasEmittedStart s;
     lastCompleteBlockCount := lastCompleteBlockCount s;
     emitted := emitted s; pending := pending s |}.

Definition set_lastRenderKey v (s : state) : state :=
  {| staticContainer := staticContainer s;
     streamingContainer := streamingContainer s;
     streamingHtml := streamingHtml s; boundHtml := boundHtml s;
     staticBlockCount := staticBlockCount s; tailMarkdown := tailMarkdown s;
     prevContent := prevContent s; lastRenderKey := v;
     hasEmittedStart := hasEmittedStart s;
     lastCompleteBlockCount := lastCompleteBlockCount s;
     emitted := emitted s; pending := pending s |}.

Definition set_hasEmittedStart v (s : state) : state :=
  {| staticContainer := staticContainer s;
     streamingContainer := streamingContainer s;
     streamingHtml := streamingHtml s; boundHtml := boundHtml s;
     staticBlockCount := staticBlockCount s; tailMarkdown := tailMarkdown s;
     prevContent := prevContent s; lastRenderKey := lastRenderKey s;
     hasEmittedStart := v;
     lastCompleteBlockCount := lastCompleteBlockCount s;
     emitted := emitted s; pending := pending s |}.

Definition set_lastCompleteBlockCount v (s : state) : state :=
  {| staticContainer := staticContainer s;
     streamingContainer := streamingContainer s;
     streamingHtml := streamingHtml s; boundHtml := boundHtml s;
     staticBlockCount := staticBlockCount s; tailMarkdown := tailMarkdown s;
     prevContent := prevContent s; lastRenderKey := lastRenderKey s;
     hasEmittedStart := hasEmittedStart s;
     lastCompleteBlockCount := v;
     emitted := emitted s; pending := pending s |}.

Definition set_emitted v (s : state) : state :=
  {| staticContainer := staticContainer s;
     streamingContainer := streamingContainer s;
     streamingHtml := streamingHtml s; boundHtml := boundHtml s;
     staticBlockCount := staticBlockCount s; tailMarkdown := tailMarkdown s;
     prevContent := prevContent s; lastRenderKey := lastRenderKey s;
     hasEmittedStart := hasEmittedStart s;
     lastCompleteBlockCount := lastCompleteBlockCount s;
     emitted := v; pending := pending s |}.

Definition set_pending v (s : state) : state :=
  {| staticContainer := staticContainer s;
     streamingContainer := streamingContainer s;
     streamingHtml := streamingHtml s; boundHtml := boundHtml s;
     staticBlockCount := staticBlockCount s; tailMarkdown := tailMarkdown s;
     prevContent := prevContent s; lastRenderKey := lastRenderKey s;
     hasEmittedStart := hasEmittedStart s;
     lastCompleteBlockCount := lastCompleteBlockCount s;
     emitted := emitted s; pending := v |}.

(** The component right after mounting: both refs point to empty
    containers and every variable holds its initial value. *)
Definition init : state :=
  {| staticContainer := Some []; streamingContainer := Some [];
     streamingHtml := []; boundHtml := [];
     staticBlockCount := 0; tailMarkdown := []; prevContent := [];
     lastRenderKey := []; hasEmittedStart := false;
     lastCompleteBlockCount := 0; emitted := []; pending := [] |}.

(** The component during [setup], when the watcher runs for the first
    time ([immediate: true]): the template refs are still null. *)
Definition unmounted : state :=
  set_streamingContainer None (set_staticContainer None init).

(** Mounting creates the two (empty) containers and sets the refs. *)
Definition mountRefs (s : state) : state :=
  set_streamingContainer (Some []) (set_staticContainer (Some []) s).

(** [nextTick(cb)] *)
Definition nextTick (t : task) (s : state) : state :=
  set_pending (pending s ++ [t]) s.

(** [emit(name)] *)
Definition emit (e : event) (s : state) : state :=
  set_emitted (emitted s ++ [e]) s.

(** [renderBlockHtml(mdText)] *)
Definition renderBlockHtml (mdText : str) : str :=
  if negb (truthy mdText) || (length (trim mdText) =? 0) then []
  else render mdText.

(** The [while (streamingContainer.value.firstChild)] loop of
    [flushToStatic]: each iteration appends the first in-flight child to
    the committed container (which removes it from the in-flight one) and
    increments [staticBlockCount]. *)
Fixpoint moveChildren (streaming static : list node) (count : nat)
  : list node * list node * nat :=
  match streaming with
  | [] => (streaming, static, count)
  | firstChild :: others => moveChildren others (static ++ [firstChild]) (S count)
  end.

(** [flushToStatic()] *)
Definition flushToStatic (s : state) : state :=
  match staticContainer s, streamingContainer s with
  | Some static, Some streaming =>
      let '(streaming', static', count') :=
        moveChildren streaming static (staticBlockCount s) in
      nextTick TApplyMarginStatic
        (set_staticBlockCount count'
           (set_staticContainer (Some static')
              (set_streamingContainer (Some streaming') s)))
  | _, _ => s
  end.

(** [setStreamingHtml(html)] *)
Definition setStreamingHtml (html : str) (s : state) : state :=
  if str_eqb (lastRenderKey s) html then s
  else
    let s := set_lastRenderKey html s in
    let s := set_streamingHtml (orElse html []) s in
    nextTick TApplyMarginStreaming s.

(** [finalizeAll(fullText)], up to the registration of its callback. *)
Definition finalizeAll (fullText : str) (s : state) : state :=
  match staticContainer s with
  | None => s
  | Some _ =>
      let s := set_staticContainer (Some []) s in
      let s := set_staticBlockCount 0 s in
      let fullHtml := render (orElse fullText []) in
      let s := setStreamingHtml fullHtml s in
      nextTick (TFinalizeReset fullText) s
  end.

Definition isRender (t : task) : bool :=
  match t with TRender => true | _ => false end.

Definition isFinalize (t : task) : bool :=
  match t with TFinalizeReset _ => true | _ => false end.

(** An assignment [streamingHtml.value = v] made from a [nextTick]
    callback: a changed value queues a re-render, once. *)
Definition assignStreamingHtml (v : str) (s : state) : state :=
  if str_eqb (streamingHtml s) v then s
  else
    let s := set_streamingHtml v s in
    if existsb isRender (pending s) then s else nextTick TRender s.

(** The callback [finalizeAll] hands to [nextTick]. *)
Definition finalizeReset (fullText : str) (s : state) : state :=
  let s := flushToStatic s in
  let s := set_tailMarkdown [] s in
  let s := set_staticBlockCount 0 s in
  let s := set_lastCompleteBlockCount 0 s in
  let s := set_lastRenderKey [] s in
  let s := set_prevContent (orElse fullText []) s in
  let s := assignStreamingHtml [] s in
  nextTick THighlight s.

(** The loop [for (const block of blocks) { const html =
    renderBlockHtml(block); if (html) accumulatedHtml += html; }]. *)
Definition accumulateHtml (blocks : list str) : str :=
  fold_left
    (fun accumulatedHtml block =>
       let html := renderBlockHtml block in
       if truthy html then accumulatedHtml ++ html else accumulatedHtml)
    blocks [].

(** [blocks.length > 1 ? blocks.slice(0, -1) : []] *)
Definition completeBlocksOf (blocks : list str) : list str :=
  if 1 <? length blocks then removelast blocks else [].

(** [blocks.length ? blocks[blocks.length - 1] : ''] *)
Definition lastBlockOf (blocks : list str) : str :=
  if nonEmpty blocks then last blocks [] else [].

(** [processAppendedSuffix(suffix)] *)
Definition processAppendedSuffix (suffix : str) (s : state) : state :=
  if negb (truthy suffix) || (length suffix =? 0) then
    let blocks := splitIntoBlocks (tailMarkdown s) in
    let streamingBlock := lastBlockOf blocks in
    setStreamingHtml (renderBlockHtml streamingBlock) s
  else
    let s :=
      set_tailMarkdown
        (if truthy (tailMarkdown s) then tailMarkdown s ++ suffix else suffix) s in
    let blocks := splitIntoBlocks (tailMarkdown s) in
    let completeBlocks := completeBlocksOf blocks in
    let streamingBlock := lastBlockOf blocks in
    let s :=
      if lastCompleteBlockCount s <? length completeBlocks then
        let newBlocks := skipn (lastCompleteBlockCount s) completeBlocks in
        let accumulatedHtml := accumulateHtml newBlocks in
        let s :=
          if truthy accumulatedHtml then
            nextTick TFlushToStatic (setStreamingHtml accumulatedHtml s)
          else s in
        set_lastCompleteBlockCount (length completeBlocks) s
      else s in
    setStreamingHtml (renderBlockHtml streamingBlock) s.

(** [handleNonPrefixReplace(newContent, isComplete)] *)
Definition handleNonPrefixReplace (newContent : str) (isComplete : bool)
    (s : state) : state :=
  if isComplete then finalizeAll newContent s
  else
    let s :=
      match staticContainer s with
      | Some _ => set_staticContainer (Some []) s
      | None => s
      end in
    let s := set_staticBlockCount 0 s in
    let s := set_lastCompleteBlockCount 0 s in
    let s := set_tailMarkdown [] s in
    let s := set_lastRenderKey [] s in
    let s := set_prevContent [] s in
    let blocks := splitIntoBlocks (orElse newContent []) in
    let completeBlocks := completeBlocksOf blocks in
    let accumulatedHtml := accumulateHtml completeBlocks in
    let s :=
      if truthy accumulatedHtml then
        nextTick TFlushToStatic (setStreamingHtml accumulatedHtml s)
      else s in
    let s := set_lastCompleteBlockCount (length completeBlocks) s in
    let s := set_tailMarkdown (lastBlockOf blocks) s in
    let s := setStreamingHtml (renderBlockHtml (tailMarkdown s)) s in
    set_prevContent (orElse newContent []) s.

(** [processContentNow(newContent, isComplete)] *)
Definition processContentNow (newContent : str) (isComplete : bool)
    (s : state) : state :=
  let newContent := orElse newContent [] in
  if negb (truthy (prevContent s)) then
    (* Fresh content: handle as initial render *)
    let s := if negb (hasEmittedStart s)
             then set_hasEmittedStart true (emit EvStart s) else s in
    let s := handleNonPrefixReplace newContent false s in
    set_prevContent newContent s
  else if isComplete then
    (* Complete: finalize *)
    emit EvComplete (finalizeAll newContent s)
  else if startsWith newContent (prevContent s) then
    (* Fast path: simple append *)
    let suffix := sliceFrom (length (prevContent s)) newContent in
    let s := processAppendedSuffix suffix s in
    set_prevContent newContent s
  else
    (* Rewind / replacement fallback *)
    let minLength := Nat.min (length (prevContent s)) (length newContent) in
    if (minLength =? 0)
       || negb (startsWith newContent (substringTo minLength (prevContent s)))
    then handleNonPrefixReplace newContent isComplete s
    else
      let s := processAppendedSuffix [] s in
      set_prevContent newContent s.

(** The watcher on [[props.content, props.isComplete]]. *)
Definition watchCallback (newContent : str) (isComplete : bool) (s : state)
  : state :=
  let s :=
    if negb (truthy newContent)
       || (length newContent <? length (prevContent s))
    then set_hasEmittedStart false s else s in
  processContentNow (orElse newContent []) isComplete s.

(** Vue's re-render of the component: the [v-html] binding assigns
    [innerHTML] of the in-flight container when the bound value changed. *)
Definition vueRender (s : state) : state :=
  if str_eqb (streamingHtml s) (boundHtml s) then s
  else
    let s :=
      match streamingContainer s with
      | Some _ => set_streamingContainer (Some (parseHtml (streamingHtml s))) s
      | None => s
      end in
    set_boundHtml (streamingHtml s) s.

Definition runTask (t : task) (s : state) : state :=
  match t with
  | TRender => vueRender s
  | TApplyMarginStatic => s
  | TApplyMarginStreaming => s
  | TFlushToStatic => flushToStatic s
  | TFinalizeReset fullText => finalizeReset fullText s
  | THighlight => s
  end.

(** An upper bound on the number of tasks a task stands for, itself and
    those it registers included. *)
Definition taskWeight (t : task) : nat :=
  match t with
  | TFinalizeReset _ => 4
  | TFlushToStatic => 2
  | _ => 1
  end.

Definition queueWeight (q : list task) : nat :=
  fold_right (fun t n => taskWeight t + n) 0 q.

(** Run waiting callbacks in first-in first-out order. *)
Fixpoint drain (fuel : nat) (s : state) : state :=
  match fuel with
  | 0 => s
  | S fuel' =>
      match pending s with
      | [] => s
      | t :: q => drain fuel' (runTask t (set_pending q s))
      end
  end.

(** One prop change, from the watcher to quiescence: watcher, re-render,
    then every callback. *)
Definition update (newContent : str) (isComplete : bool) (s : state) : state :=
  let s := vueRender (watchCallback newContent isComplete s) in
  drain (queueWeight (pending s)) s.

(** A sequence of prop changes. *)
Definition run (updates : list (str * bool)) (s : state) : state :=
  fold_left (fun s u => update (fst u) (snd u) s) updates s.

(** Both template refs point to their elements. *)
Definition mounted (s : state) : Prop :=
  staticContainer s <> None /\ streamingContainer s <> None.

(** The in-flight container holds what the last render put there, or
    nothing once its nodes were moved away. *)
Definition domConsistent (s : state) : Prop :=
  streamingContainer s = Some []
  \/ streamingContainer s = Some (parseHtml (boundHtml s)).

(** A state between two prop changes: no callback is waiting, the DOM
    binding is up to date and the component is mounted. *)
Definition quiescent (s : state) : Prop :=
  pending s = [] /\ boundHtml s = streamingHtml s /\ mounted s
  /\ domConsistent s.

Definition noFinalize (q : list task) : Prop :=
  forallb (fun t => negb (isFinalize t)) q = true.

(** Tasks that move no node and reset no variable. *)
Definition isQuiet (t : task) : bool :=
  match t with
  | TFlushToStatic | TFinalizeReset _ => false
  | _ => true
  end.

Definition isFlush (t : task) : bool :=
  match t with TFlushToStatic => true | _ => false end.

(** Margin stamps and flushes: what the streaming paths register. *)
Definition isStreamTask (t : task) : bool :=
  match t with
  | TApplyMarginStatic | TApplyMarginStreaming | TFlushToStatic => true
  | _ => false
  end.

(** The content carried by the last update of a sequence, [''] if none. *)
Definition lastContent (updates : list (str * bool)) : str :=
  last (map fst updates) [].

Definition event_eqb (a b : event) : bool :=
  match a, b with
  | EvStart, EvStart | EvComplete, EvComplete => true
  | _, _ => false
  end.

(** How many times [e] was emitted. *)
Definition countEvent (e : event) (log : list event) : nat :=
  length (filter (event_eqb e) log).

(** The state a full reset on [next] leaves: tail buffer, committed-block
    count and snapshot re-derived from [next], and a committed region that
    is empty or holds the nodes rendered from the last block of [next]. *)
Definition resetOutcome (next : str) (s : state) : Prop :=
  tailMarkdown s = lastBlockOf (splitIntoBlocks next)
  /\ lastCompleteBlockCount s = length (completeBlocksOf (splitIntoBlocks next))
  /\ prevContent s = next
  /\ (staticContainer s = Some []
      \/ staticContainer s
         = Some (parseHtml
                   (renderBlockHtml (lastBlockOf (splitIntoBlocks next))))).

(** What a full reset on [next] re-derives from [next] alone: the tail
    buffer is its last block, the committed-block count the number of
    its complete blocks, the snapshot [next] itself. *)
Definition rederivedFrom (next : str) (s : state) : Prop :=
  tailMarkdown s = lastBlockOf (splitIntoBlocks next)
  /\ lastCompleteBlockCount s = length (completeBlocksOf (splitIntoBlocks next))
  /\ prevContent s = next.

End Component.

Arguments init {node}.
Arguments unmounted {node}.
Arguments mounted {node} s.
Arguments quiescent {node} parseHtml s.
Arguments domConsistent {node} parseHtml s.
Arguments resetOutcome {node} parseHtml render next s.
Arguments rederivedFrom {node} next s.

(** ** A small renderer for concrete runs

    One paragraph per non-empty text, and a parser that yields one node per
    non-empty HTML string. *)

Definition demoRender (s : str) : str :=
  if truthy s then lit "<p>" ++ s ++ lit "</p>" else [].

Definition demoParse (html : str) : list str :=
  if truthy html then [html] else [].

Module Samples.

Definition hi : str := lit "# Hi".
Definition hiWorld : str := lit "# Hi" ++ nl :: lit "world".
Definition twoBlocks : str := lit "a" ++ nl :: nl :: lit "# b".
Definition twoBlocksCut : str := lit "a" ++ nl :: nl :: lit "# ".
Definition fenced : str :=
  join_nl [lit "a"; lit "```js"; lit "x"; []; lit "y"; lit "```"; lit "z"].

(** A mounted component with one committed node and two in flight. *)
Definition flushDemo : state str :=
  set_streamingContainer (Some [lit "<p>b</p>"; lit "<p>c</p>"])
    (set_staticContainer (Some [lit "<p>a</p>"]) init).

End Samples.

(** ** Margin stamps: [applyMarginClasses] *)

Module Margins.

(** A child node of a container.  For an element, [body] stands for its
    tag, its other attributes and its descendants, and [classList] for
    the tokens of its [class] attribute as written, in order; a token may
    be written more than once. *)
Inductive domNode :=
| TextNode (data : str)
| Element (body : str) (classList : list str).

Definition firstBlock : str := lit "first-block".
Definition lastBlock : str := lit "last-block".

Definition isElement (n : domNode) : bool :=
  match n with Element _ _ => true | TextNode _ => false end.

(** [container.children]: the element children; text nodes are not in
    that collection. *)
Definition children (childNodes : list domNode) : list domNode :=
  filter isElement childNodes.

(** The token set of a [DOMTokenList]: the tokens of the attribute in
    order of first occurrence, each once.  [remove] and [add] work on it
    and write it back to the attribute. *)
Fixpoint tokenSet (tokens : list str) : list str :=
  match tokens with
  | [] => []
  | t :: rest => t :: filter (fun u => negb (str_eqb u t)) (tokenSet rest)
  end.

(** [classList.remove(...tokens)] *)
Definition classList_remove (tokens classList : list str) : list str :=
  filter (fun t => negb (existsb (str_eqb t) tokens)) (tokenSet classList).

(** [classList.add(token)]: appended to the token set unless already
    there. *)
Definition classList_add (token : str) (classList : list str) : list str :=
  if existsb (str_eqb token) (tokenSet classList) then tokenSet classList
  else tokenSet classList ++ [token].

(** The body of the loop, for the child at index [i] of [len]. *)
Definition stampChild (i len : nat) (classList : list str) : list str :=
  let classList := classList_remove [firstBlock; lastBlock] classList in
  let classList :=
    if i =? 0 then classList_add firstBlock classList else classList in
  if i =? len - 1 then classList_add lastBlock classList else classList.

(** The loop [for (let i = 0; i < children.length; i++)], from index [i],
    over the child nodes that remain; text nodes are skipped because the
    loop indexes [children]. *)
Fixpoint stampChildren (i len : nat) (childNodes : list domNode)
  : list domNode :=
  match childNodes with
  | [] => []
  | TextNode data :: rest => TextNode data :: stampChildren i len rest
  | Element body classList :: rest =>
      Element body (stampChild i len classList)
      :: stampChildren (S i) len rest
  end.

(** [applyMarginClasses(container)]; [None] is a null container. *)
Definition applyMarginClasses (container : option (list domNode))
  : option (list domNode) :=
  match container with
  | None => None
  | Some childNodes =>
      Some (stampChildren 0 (length (children childNodes)) childNodes)
  end.

(** The class lists of the element children, in order. *)
Definition childClasses (childNodes : list domNode) : list (list str) :=
  flat_map (fun n => match n with
                     | Element _ classList => [classList]
                     | TextNode _ => []
                     end) childNodes.

(** A node with the two margin classes erased from its token set. *)
Definition withoutMarkers (n : domNode) : domNode :=
  match n with
  | Element body classList =>
      Element body (classList_remove [firstBlock; lastBlock] classList)
  | TextNode data => TextNode data
  end.

End Margins.

(** ** The fence rule of the Markdown renderer: language name and class *)

Module Markdown.

(** [info.split(/\s+/g)[0]]: the text before the first whitespace. *)
Definition firstWord (info : str) : str :=
  takeWhile (fun c => negb (is_space c)) info.

(** The language name the fence rule computes from [token.info]:
    [info = token.info ? md.utils.unescapeAll(token.info).trim() : ""],
    [langName = info ? info.split(/\s+/g)[0] : ""],
    [lang = langName || "text"].  [unescapeAll] is markdown-it's. *)
Definition fenceLang (unescapeAll : str -> str) (tokenInfo : str) : str :=
  let info := if truthy tokenInfo then trim (unescapeAll tokenInfo) else [] in
  let langName := if truthy info then firstWord info else [] in
  orElse langName (lit "text").

(** The [class] attribute the fence rule writes on the [code] element:
    [class="hljs ${safeLangClass}"]. *)
Definition fenceCodeClass (safeLangClass : str) : str :=
  lit "hljs " ++ safeLangClass.

End Markdown.

(** ** Lazy highlighting: [highlightBlock] and [highlightAllBlocks] *)

Module LazyHighlight.

(** [\w]: ASCII letters, digits and the underscore. *)
Definition is_word (c : char) : bool :=
  ((48 <=? c) && (c <=? 57) || (65 <=? c) && (c <=? 90) || (c =? 95)
   || (97 <=? c) && (c <=? 122))%N.

Definition languagePrefix : str := lit "language-".

(** [className.match(/language-(\w+)/)]: the capture group of the
    leftmost match, if any. *)
Fixpoint langMatch (className : str) : option str :=
  match className with
  | [] => None
  | _ :: rest =>
      if startsWith className languagePrefix then
        match takeWhile is_word (skipn (length languagePrefix) className) with
        | [] => langMatch rest
        | captured => Some captured
        end
      else langMatch rest
  end.

(** A [code] element: its [class] attribute, its markup and its
    [data-needs-highlight] attribute ([None]: not set). *)
Record codeNode := {
  className : str;
  innerHTML : str;
  needsHighlight : option str
}.

Section Highlighter.

(** The browser and highlight.js: the text of a piece of markup
    ([textContent]), [classList.add], [hljs.getLanguage] (is the language
    known) and [hljs.highlight] ([None]: it throws). *)
Variable textContentOf : str -> str.
Variable classListAdd : str -> str -> str.
Variable getLanguage : str -> bool.
Variable highlight : str -> str -> option str.

(** [highlightBlock(codeElement)] *)
Definition highlightBlock (codeElement : codeNode) : codeNode :=
  if negb (truthy (textContentOf (innerHTML codeElement))) then codeElement
  else
    let lang :=
      match langMatch (className codeElement) with
      | Some captured => captured
      | None => lit "text"
      end in
    if truthy lang && negb (str_eqb lang (lit "text")) && getLanguage lang
    then
      match highlight (textContentOf (innerHTML codeElement)) lang with
      | Some value =>
          {| className := classListAdd (lit "hljs") (className codeElement);
             innerHTML := value;
             needsHighlight := needsHighlight codeElement |}
      | None => codeElement
      end
    else codeElement.

(** [code[data-needs-highlight="true"]] *)
Definition selected (block : codeNode) : bool :=
  match needsHighlight block with
  | Some v => str_eqb v (lit "true")
  | None => false
  end.

(** [highlightAllBlocks(container)].  The container is given by its
    [code] descendants in document order, none inside another; [None] is
    a null container, [windowDefined] the test
    [typeof window !== 'undefined']. *)
Definition highlightAllBlocks (windowDefined : bool)
    (container : option (list codeNode)) : option (list codeNode) :=
  match container with
  | None => None
  | Some blocks =>
      if negb windowDefined then Some blocks
      else
        Some (map (fun block =>
                     if selected block then
                       let block := highlightBlock block in
                       {| className := className block;
                          innerHTML := innerHTML block;
                          needsHighlight := Some (lit "false") |}
                     else block)
                blocks)
  end.

End Highlighter.

End LazyHighlight.

(** ** The search endpoint: the handler of [search.get.js] *)

Module SearchApi.

(** The query object, as far as the handler reads it.  [q] and
    [freshness] are only tested for truthiness before use, so a missing
    parameter is the empty string; [count], [offset] and [safesearch]
    have destructuring defaults, which apply to a missing parameter
    ([None]) only.  A repeated parameter (an array) is not covered. *)
Record query := {
  q : str;
  count : option str;
  offset : option str;
  safesearch : option str;
  freshness : str
}.

(** An argument of [Math.min]: a default (a number) or a query string. *)
Inductive jsValue :=
| JNumber (n : N)
| JString (s : str).

(** What the [catch] block reads from a thrown value: [error.statusCode]
    and [error.statusMessage], with [0] and [''] for a missing or falsy
    property. *)
Record jsError := {
  statusCodeProp : N;
  statusMessageProp : str
}.

(** The request the handler sends: the search parameters appended to
    the URL, in order, and the two headers. *)
Record request := {
  searchParams : list (str * str);
  authorization : str;
  contentType : str
}.

(** The code unit of the double quote. *)
Definition dquote : char := 34%N.

(** ['Query parameter "q" is required.'] *)
Definition qRequiredMessage : str :=
  lit "Query parameter " ++ dquote :: lit "q" ++ dquote :: lit " is required.".

Section Handler.

(** The parsed body of the upstream answer. *)
Variable json : Type.

(** What [fetch] resolves to. *)
Record response := {
  ok : bool;
  status : N;
  statusText : str;
  jsonBody : jsError + json      (* [response.json()] rejects or resolves *)
}.

(** h3's [createError({ statusCode, statusMessage })], the built-in
    [Math.min(x, n).toString()], and the network: [fetch] rejects or
    resolves. *)
Variable createError : N -> str -> jsError.
Variable minToString : jsValue -> N -> str.
Variable fetch : request -> jsError + response.

Inductive outcome :=
| Returned (data : json)
| Threw (error : jsError).

(** [a || b] on numbers. *)
Definition orNumber (a b : N) : N := if (a =? 0)%N then b else a.

Definition withDefault (v : option str) (default : jsValue) : jsValue :=
  match v with Some s => JString s | None => default end.

(** The request built inside [try]. *)
Definition searchRequest (apiKey : str) (query : query) : request :=
  {| searchParams :=
       [(lit "q", q query);
        (lit "count", minToString (withDefault (count query) (JNumber 20)) 20);
        (lit "offset", minToString (withDefault (offset query) (JNumber 0)) 9);
        (lit "safesearch",
         match safesearch query with Some s => s | None => lit "moderate" end)]
       ++ (if truthy (freshness query)
           then [(lit "freshness", freshness query)] else []);
     authorization := lit "Bearer " ++ apiKey;
     contentType := lit "application/json" |}.

(** The handler: its outcome and the requests it sent.  [apiKey] is
    [config.hackclubSearchApiKey], [''] when not configured. *)
Definition handler (apiKey : str) (query : query)
  : outcome * list request :=
  if negb (truthy apiKey) then
    (Threw (createError 500 (lit "Search API key is not configured.")), [])
  else if negb (truthy (q query)) then
    (Threw (createError 400 qRequiredMessage), [])
  else
    let searchUrl := searchRequest apiKey query in
    let tried : jsError + json :=
      match fetch searchUrl with
      | inl rejected => inl rejected
      | inr response =>
          if negb (ok response) then
            inl (createError (status response)
                   (lit "Search API failed: " ++ statusText response))
          else jsonBody response
      end in
    match tried with
    | inr data => (Returned data, [searchUrl])
    | inl error =>
        (Threw (createError (orNumber (statusCodeProp error) 500)
                  (orElse (statusMessageProp error)
                     (lit "Internal Server Error"))),
         [searchUrl])
    end.

End Handler.

Arguments Threw {json} error.

End SearchApi.

(** ** The tool registry: [ToolManager] *)

Module ToolManager.

Section Registry.

(** Executors take the arguments object to a result; schemas are plain
    data. *)
Variables args value error schemaT : Type.

(** What an executor settles to: [args => Promise]. *)
Inductive settled :=
| Fulfilled (v : value)
| RejectedWith (e : error).

(** [{ executor, schema }] *)
Record tool := {
  executor : args -> settled;
  schema : schemaT
}.

(** [this.tools]: a [Map] from names to tools, as the list of its
    entries in insertion order; a name occurs at most once. *)
Definition toolMap := list (str * tool).

(** [Map.prototype.get] *)
Definition mapGet (name : str) (tools : toolMap) : option tool :=
  match find (fun entry => str_eqb (fst entry) name) tools with
  | Some entry => Some (snd entry)
  | None => None
  end.

(** [Map.prototype.set]: an existing key keeps its place, a new one goes
    last. *)
Fixpoint mapSet (name : str) (t : tool) (tools : toolMap) : toolMap :=
  match tools with
  | [] => [(name, t)]
  | entry :: rest =>
      if str_eqb (fst entry) name then (fst entry, t) :: rest
      else entry :: mapSet name t rest
  end.

(** [Map.prototype.delete] *)
Definition mapDelete (name : str) (tools : toolMap) : toolMap :=
  filter (fun entry => negb (str_eqb (fst entry) name)) tools.

(** [registerTool(name, executor, schema)] *)
Definition registerTool (name : str) (exec : args -> settled)
    (sch : schemaT) (tools : toolMap) : toolMap :=
  mapSet name {| executor := exec; schema := sch |} tools.

(** [unregisterTool(name)] *)
Definition unregisterTool (name : str) (tools : toolMap) : toolMap :=
  mapDelete name tools.

(** [getToolSchemas()] *)
Definition getToolSchemas (tools : toolMap) : list schemaT :=
  map (fun entry => schema (snd entry)) tools.

(** [getTool(name)] *)
Definition getTool (name : str) (tools : toolMap) : option tool :=
  mapGet name tools.

(** [getToolNames()] *)
Definition getToolNames (tools : toolMap) : list str := map fst tools.

(** What [executeTool] settles to: the executor's result, the
    executor's error thrown again, or the [Error] for an unknown name,
    given by its message. *)
Inductive executed :=
| Result (v : value)
| Rethrown (e : error)
| NotFound (message : str).

(** [`Tool "${name}" not found`] *)
Definition notFoundMessage (name : str) : str :=
  lit "Tool " ++ 34%N :: name ++ 34%N :: lit " not found".

(** [executeTool(name, args)] *)
Definition executeTool (name : str) (a : args) (tools : toolMap)
  : executed :=
  match mapGet name tools with
  | None => NotFound (notFoundMessage name)
  | Some t =>
      match executor t a with
      | Fulfilled v => Result v
      | RejectedWith e => Rethrown e
      end
  end.

(** [getSchemasByNames(names)]: [map], [filter(Boolean)], [map]. *)
Definition getSchemasByNames (names : list str) (tools : toolMap)
  : list schemaT :=
  map schema
    (flat_map (fun found => match found with Some t => [t] | None => [] end)
       (map (fun name => mapGet name tools) names)).

End Registry.

Arguments Fulfilled {value error} v.
Arguments RejectedWith {value error} e.
Arguments Result {value error} v.
Arguments Rethrown {value error} e.
Arguments NotFound {value error} message.

End ToolManager.

(** ** Attachments: [useAttachments] *)

Module Attachments.

Definition MAX_FILE_SIZE : N := 20 * 1024 * 1024.
Definition MAX_ATTACHMENTS : nat := 4.

(** The two values of [ALLOWED_TYPES]: ['image'] and ['pdf']. *)
Inductive kind := image | pdf.

(** What a property read on the object literal [ALLOWED_TYPES] gives: one
    of its own six entries, a member inherited from [Object.prototype]
    (truthy, and no string), or [undefined]. *)
Inductive lookup :=
| Own (k : kind)
| Inherited
| Undefined.

Definition objectPrototypeKeys : list str :=
  [lit "constructor"; lit "__proto__"; lit "hasOwnProperty";
   lit "isPrototypeOf"; lit "propertyIsEnumerable"; lit "toLocaleString";
   lit "toString"; lit "valueOf"; lit "__defineGetter__";
   lit "__defineSetter__"; lit "__lookupGetter__"; lit "__lookupSetter__"].

Definition includes (l : list str) (s : str) : bool := existsb (str_eqb s) l.

(** [ALLOWED_TYPES[type]] *)
Definition ALLOWED_TYPES (type : str) : lookup :=
  if includes [lit "image/png"; lit "image/jpeg"; lit "image/jpg";
               lit "image/webp"; lit "image/gif"] type then Own image
  else if str_eqb type (lit "application/pdf") then Own pdf
  else if includes objectPrototypeKeys type then Inherited
  else Undefined.

Definition ALLOWED_EXTENSIONS : list str :=
  [lit "png"; lit "jpg"; lit "jpeg"; lit "webp"; lit "gif"; lit "pdf"].

Definition imageExtensions : list str :=
  [lit "png"; lit "jpg"; lit "jpeg"; lit "webp"; lit "gif"].

(** A [File], as far as the composable reads it. *)
Record file := {
  name : str;
  type : str;
  size : N
}.

(** [name.split('.').pop()]: the text after the last dot, the whole name
    if it has none. *)
Fixpoint lastSegment (name : str) : str :=
  match name with
  | [] => []
  | c :: rest =>
      if existsb (N.eqb 46) rest then lastSegment rest
      else if (c =? 46)%N then rest else name
  end.

(** [{ valid: true }] or [{ valid: false, error }]. *)
Inductive validation :=
| Valid
| Invalid (error : str).

(** The [type] of a stored attachment: ['image'], ['pdf'], or the
    inherited member a read of [ALLOWED_TYPES] can give. *)
Inductive storedType :=
| Kind (k : kind)
| InheritedMember.

Record attachment := {
  id : str;
  attType : storedType;
  filename : str;
  dataUrl : str;
  mimeType : str
}.

(** The two refs: [attachments] and [error] ([None] is [null]). *)
Record refs := {
  attachments : list attachment;
  error : option str
}.

(** [{ success: true }] or [{ success: false, error }]. *)
Inductive added :=
| Success
| Failure (error : str).

Definition quoted (s : str) : str := 34%N :: s ++ [34%N].

Section Composable.

(** [String.prototype.toLowerCase], and the [FileReader] behind
    [fileToDataUrl] ([None]: the promise rejects). *)
Variable toLowerCase : str -> str.
Variable fileToDataUrl : file -> option str.

Definition extensionOf (f : file) : str := toLowerCase (lastSegment (name f)).

(** [validateFile(file, supportsVision)] *)
Definition validateFile (f : file) (supportsVision : bool) : validation :=
  if (MAX_FILE_SIZE <? size f)%N then
    Invalid (lit "File " ++ quoted (name f)
             ++ lit " exceeds the 20MB size limit.")
  else
    let extension := extensionOf f in
    let fileType := ALLOWED_TYPES (type f) in
    let isAllowedExtension := includes ALLOWED_EXTENSIONS extension in
    if (match fileType with Undefined => true | _ => false end)
       && negb isAllowedExtension
    then
      Invalid
        (lit "File type not supported. Allowed: PNG, JPG, WEBP, GIF, PDF.")
    else
      let isImage :=
        (match fileType with Own image => true | _ => false end)
        || includes imageExtensions extension in
      if isImage && negb supportsVision then
        Invalid
          (lit "The current model does not support image analysis. Please select a vision-capable model or upload a PDF.")
      else Valid.

(** [addFile(file, supportsVision)]; [uuid] is what [crypto.randomUUID()]
    returns in this call ([None]: it throws). *)
Definition addFile (f : file) (supportsVision : bool) (uuid : option str)
    (r : refs) : added * refs :=
  let r := {| attachments := attachments r; error := None |} in
  if MAX_ATTACHMENTS <=? length (attachments r) then
    let message := lit "Maximum of 4 attachments allowed." in
    (Failure message,
     {| attachments := attachments r; error := Some message |})
  else
    match validateFile f supportsVision with
    | Invalid message =>
        (Failure message,
         {| attachments := attachments r; error := Some message |})
    | Valid =>
        match fileToDataUrl f, uuid with
        | Some url, Some newId =>
            let extension := extensionOf f in
            let newType :=
              match ALLOWED_TYPES (type f) with
              | Own k => Kind k
              | Inherited => InheritedMember
              | Undefined =>
                  if includes imageExtensions extension then Kind image
                  else Kind pdf
              end in
            (Success,
             {| attachments :=
                  attachments r
                  ++ [{| id := newId;
                         attType := newType;
                         filename := name f;
                         dataUrl := url;
                         mimeType :=
                           if truthy (type f) then type f
                           else match newType with
                                | Kind pdf => lit "application/pdf"
                                | _ => lit "image/" ++ extension
                                end |}];
                error := error r |})
        | _, _ =>
            let errorMsg :=
              lit "Failed to process file " ++ quoted (name f) ++ lit "." in
            (Failure errorMsg,
             {| attachments := attachments r; error := Some errorMsg |})
        end
    end.

(** [removeAttachment(id)] *)
Definition removeAttachment (target : str) (r : refs) : refs :=
  {| attachments :=
       filter (fun a => negb (str_eqb (id a) target)) (attachments r);
     error := error r |}.

(** [clearAttachments()] *)
Definition clearAttachments (r : refs) : refs :=
  {| attachments := []; error := None |}.

(** [clearError()] *)
Definition clearError (r : refs) : refs :=
  {| attachments := attachments r; error := None |}.

(** The computed [hasImages]. *)
Definition hasImages (r : refs) : bool :=
  existsb (fun a => match attType a with Kind image => true | _ => false end)
    (attachments r).

(** A call made on what the composable returns; an [addFile] is awaited
    before the next call is made. *)
Inductive call :=
| CallAddFile (f : file) (supportsVision : bool) (uuid : option str)
| CallRemoveAttachment (target : str)
| CallClearAttachments
| CallClearError.

Definition doCall (c : call) (r : refs) : refs :=
  match c with
  | CallAddFile f supportsVision uuid =>
      snd (addFile f supportsVision uuid r)
  | CallRemoveAttachment target => removeAttachment target r
  | CallClearAttachments => clearAttachments r
  | CallClearError => clearError r
  end.

Definition doCalls (calls : list call) (r : refs) : refs :=
  fold_left (fun r c => doCall c r) calls r.

(** [useAttachments()]: the refs at the start. *)
Definition useAttachments : refs := {| attachments := []; error := None |}.

End Composable.

End Attachments.

(** ** More inputs for concrete runs *)

Module MoreSamples.

Import Samples.

(** Two paragraphs with an empty line between them. *)
Definition twoParagraphs : str := lit "one" ++ nl :: nl :: lit "two".

(** A paragraph, an empty line, then a heading and its text. *)
Definition introThenHeading : str :=
  join_nl [lit "intro"; []; lit "# Title"; lit "text"].

(** The component after the first content ["a"]. *)
Definition afterFirst : state str :=
  run demoParse demoRender [(lit "a", false)] init.

(** The component that received ["# Hi"] before its refs were set. *)
Definition beforeMount : state str :=
  update demoParse demoRender hi false unmounted.

(** A container whose children carry stale margin classes. *)
Definition staleMargins : list Margins.domNode :=
  [Margins.Element (lit "<p>a</p>") [Margins.lastBlock];
   Margins.TextNode [nl];
   Margins.Element (lit "<p>b</p>") [];
   Margins.Element (lit "<pre>c</pre>") [lit "code"; Margins.firstBlock]].

(** A single paragraph whose class attribute repeats a token. *)
Definition repeatedToken : list Margins.domNode :=
  [Margins.Element (lit "<p>a</p>") [lit "x"; lit "x"; Margins.lastBlock]].

(** A highlighter that knows every language. *)
Definition demoClassListAdd (token className : str) : str :=
  className ++ lit " " ++ token.
Definition demoHighlight (text lang : str) : option str :=
  Some (lit "<span>" ++ text ++ lit "</span>").

(** An upstream that answers 404. *)
Definition demoCreateError (statusCode : N) (statusMessage : str)
  : SearchApi.jsError :=
  {| SearchApi.statusCodeProp := statusCode;
     SearchApi.statusMessageProp := statusMessage |}.
Definition demoMinToString (v : SearchApi.jsValue) (bound : N) : str :=
  match v with
  | SearchApi.JNumber _ => if (bound =? 20)%N then lit "20" else lit "0"
  | SearchApi.JString s => s
  end.
Definition notFoundFetch (r : SearchApi.request)
  : SearchApi.jsError + SearchApi.response str :=
  inr {| SearchApi.ok := false; SearchApi.status := 404;
         SearchApi.statusText := lit "Not Found";
         SearchApi.jsonBody := inr [] |}.
Definition demoQuery : SearchApi.query :=
  {| SearchApi.q := lit "rocq"; SearchApi.count := None;
     SearchApi.offset := None; SearchApi.safesearch := None;
     SearchApi.freshness := [] |}.

(** Files picked while the model has no vision support. *)
Definition demoDataUrl (f : Attachments.file) : option str :=
  Some (lit "data:").
Definition pngFile : Attachments.file :=
  {| Attachments.name := lit "a.png"; Attachments.type := lit "image/png";
     Attachments.size := 10 |}.
Definition pdfFile : Attachments.file :=
  {| Attachments.name := lit "doc.pdf";
     Attachments.type := lit "application/pdf"; Attachments.size := 10 |}.

End MoreSamples.

(* ===================================================================== *)
(** * Part II — properties                                                *)
(* ===================================================================== *)

Unset Implicit Arguments.

(** ** Strings *)

Module JsStringFacts.

Lemma str_eqb_eq (a b : str) : str_eqb a b = true <-> a = b.
Proof.
  unfold str_eqb. destruct (list_eq_dec N.eq_dec a b); split; congruence.
Qed.

Lemma str_eqb_refl (a : str) : str_eqb a a = true.
Proof. now apply str_eqb_eq. Qed.

Lemma truthy_false (s : str) : truthy s = false <-> s = [].
Proof. destruct s; simpl; split; congruence. Qed.

Lemma orElse_nil (s : str) : orElse s [] = s.
Proof. now destruct s. Qed.

Lemma split_nl_nonempty (s : str) : split_nl s <> [].
Proof.
  destruct s as [|c s]; simpl; [discriminate|].
  destruct (c =? nl)%N; [discriminate|].
  destruct (split_nl s); discriminate.
Qed.

Lemma join_split_nl (s : str) : join_nl (split_nl s) = s.
Proof.
  induction s as [|c s IH]; [reflexivity|].
  cbn [split_nl]. destruct (N.eqb_spec c nl) as [->|Hc].
  - pose proof (split_nl_nonempty s) as Hne.
    destruct (split_nl s) as [|l ls]; [congruence|].
    change (join_nl ([] :: l :: ls)) with (nl :: join_nl (l :: ls)).
    now rewrite IH.
  - destruct (split_nl s) as [|l ls] eqn:E.
    + now destruct (split_nl_nonempty s).
    + rewrite <- IH. now destruct ls.
Qed.

Lemma split_nl_lines (s : str) :
  Forall (fun l => existsb (N.eqb nl) l = false) (split_nl s).
Proof.
  induction s as [|c s IH]; cbn [split_nl].
  - now repeat constructor.
  - destruct (N.eqb_spec c nl) as [->|Hc].
    + constructor; [reflexivity|assumption].
    + assert (Hcn : (nl =? c)%N = false) by (apply N.eqb_neq; congruence).
      destruct (split_nl s) as [|l ls].
      * repeat constructor. cbn [existsb]. now rewrite Hcn.
      * inversion IH; subst. constructor; [|assumption].
        cbn [existsb]. now rewrite Hcn.
Qed.

Lemma join_nl_snoc (ls : list str) (l : str) :
  ls <> [] -> join_nl (ls ++ [l]) = join_nl ls ++ nl :: l.
Proof.
  induction ls as [|a ls IH]; [congruence|]. intros _.
  destruct ls as [|b ls]; [reflexivity|].
  change (join_nl ((a :: b :: ls) ++ [l]))
    with (a ++ nl :: join_nl ((b :: ls) ++ [l])).
  rewrite IH by discriminate.
  change (join_nl (a :: b :: ls)) with (a ++ nl :: join_nl (b :: ls)).
  now rewrite <- app_assoc.
Qed.

Lemma startsWith_spec (s p : str) :
  startsWith s p = true <-> exists t, s = p ++ t.
Proof.
  revert s. induction p as [|a p IH]; intros s.
  - destruct s; simpl; split; eauto.
  - destruct s as [|b s]; simpl.
    + split; [discriminate|]. intros [t Ht]. discriminate.
    + rewrite andb_true_iff, IH, N.eqb_eq. split.
      * intros [-> [t ->]]. now exists t.
      * intros [t Ht]. injection Ht as -> ->. eauto.
Qed.

Lemma startsWith_refl (s : str) : startsWith s s = true.
Proof. apply startsWith_spec. exists []. now rewrite app_nil_r. Qed.

End JsStringFacts.

Import JsStringFacts.

(** ** The block splitter *)

Module SplitterFacts.

Arguments join_nl : simpl never.

Lemma splitLoop_app (pre post : list str) (st : splitState) :
  splitLoop (pre ++ post) st = splitLoop post (splitUpto pre post st).
Proof.
  revert st. induction pre as [|l pre IH]; intros st; [reflexivity|].
  simpl. apply IH.
Qed.

Lemma splitUpto_app (a b post : list str) (st : splitState) :
  splitUpto (a ++ b) post st = splitUpto b post (splitUpto a (b ++ post) st).
Proof.
  revert st. induction a as [|l a IH]; intros st; [reflexivity|].
  simpl. rewrite <- app_assoc. apply IH.
Qed.

(** *** Steps inside and at the borders of a fence *)

Lemma step_inside_fence (line : str) (rest : list str) (st : splitState) :
  inCodeFence st = true ->
  startsWith (trim line) (fenceChar st) = false ->
  splitStep line rest st = pushLine line st.
Proof.
  intros Hin Hno. unfold splitStep.
  destruct (fenceMatch (trim line)); rewrite Hin; simpl; [|reflexivity].
  now rewrite Hno.
Qed.

Lemma step_opens_fence (line : str) (rest : list str) (st : splitState)
    (delim : str) :
  inCodeFence st = false ->
  fenceMatch (trim line) = Some delim ->
  splitStep line rest st =
  {| blocks := if nonEmpty (currentBlock st)
               then blocks st ++ [join_nl (currentBlock st)] else blocks st;
     currentBlock := [line];
     inCodeFence := true;
     fenceChar := delim |}.
Proof.
  intros Hout Hm. unfold splitStep. rewrite Hm, Hout. simpl.
  destruct (currentBlock st) eqn:E; simpl; rewrite ?E; reflexivity.
Qed.

Lemma step_closes_fence (line : str) (rest : list str) (st : splitState) :
  inCodeFence st = true ->
  fenceMatch (fenceChar st) <> None ->
  startsWith (trim line) (fenceChar st) = true ->
  splitStep line rest st =
  {| blocks := blocks st ++ [join_nl (currentBlock st ++ [line])];
     currentBlock := [];
     inCodeFence := false;
     fenceChar := [] |}.
Proof.
  intros Hin Hdelim Hclose. unfold splitStep.
  destruct (fenceMatch (trim line)) eqn:Hm.
  - rewrite Hin. simpl. now rewrite Hclose.
  - exfalso. apply Hdelim. unfold fenceMatch in *.
    destruct (startsWith (trim line) backticks) eqn:Hb; [discriminate|].
    destruct (startsWith (trim line) tildes) eqn:Ht; [discriminate|].
    destruct (startsWith (fenceChar st) backticks) eqn:Hb'.
    + apply startsWith_spec in Hb', Hclose.
      destruct Hb' as [t1 E1], Hclose as [t2 E2].
      assert (startsWith (trim line) backticks = true); [|congruence].
      apply startsWith_spec. exists (t1 ++ t2).
      now rewrite E2, E1, app_assoc.
    + destruct (startsWith (fenceChar st) tildes) eqn:Ht'; [|reflexivity].
      apply startsWith_spec in Ht', Hclose.
      destruct Ht' as [t1 E1], Hclose as [t2 E2].
      assert (startsWith (trim line) tildes = true); [|congruence].
      apply startsWith_spec. exists (t1 ++ t2).
      now rewrite E2, E1, app_assoc.
Qed.

Lemma fenceMatch_delim (trimmed delim : str) :
  fenceMatch trimmed = Some delim -> fenceMatch delim <> None.
Proof.
  unfold fenceMatch.
  destruct (startsWith trimmed backticks);
    [intros [= <-]; discriminate|].
  destruct (startsWith trimmed tildes); [intros [= <-]|]; discriminate.
Qed.

(** Lines that do not begin with the delimiter of the open fence are all
    appended to the current block; no block is pushed meanwhile. *)
Lemma fence_body_appended (body post : list str) (st : splitState) :
  inCodeFence st = true ->
  Forall (fun l => startsWith (trim l) (fenceChar st) = false) body ->
  splitUpto body post st =
  {| blocks := blocks st;
     currentBlock := currentBlock st ++ body;
     inCodeFence := true;
     fenceChar := fenceChar st |}.
Proof.
  revert st. induction body as [|l body IH]; intros st Hin Hbody.
  - simpl. rewrite app_nil_r. destruct st; simpl in *. now subst.
  - inversion Hbody as [|? ? Hl Hrest]; subst. simpl.
    rewrite step_inside_fence by assumption.
    rewrite IH by assumption. simpl. now rewrite <- app_assoc.
Qed.

Lemma splitStep_blocks_grow (line : str) (rest : list str) (st : splitState) :
  exists more, blocks (splitStep line rest st) = blocks st ++ more.
Proof.
  unfold splitStep.
  repeat match goal with
         | |- context [match ?x with _ => _ end] => destruct x; simpl
         end;
    try (now exists []; rewrite app_nil_r); eauto.
Qed.

Lemma splitLoop_blocks_grow (lines : list str) (st : splitState) :
  exists more, blocks (splitLoop lines st) = blocks st ++ more.
Proof.
  revert st. induction lines as [|l ls IH]; intros st; simpl.
  - exists []. now rewrite app_nil_r.
  - destruct (IH (splitStep l ls st)) as [m1 E1].
    destruct (splitStep_blocks_grow l ls st) as [m2 E2].
    exists (m2 ++ m1). now rewrite E1, E2, app_assoc.
Qed.

Lemma splitIntoBlocks_loop (markdown : str) (st : splitState) :
  truthy markdown = true ->
  splitLoop (split_nl markdown) splitInit = st ->
  blocks st ++ (if nonEmpty (currentBlock st)
                then [join_nl (currentBlock st)] else []) <> [] ->
  splitIntoBlocks markdown =
  blocks st ++ (if nonEmpty (currentBlock st)
                then [join_nl (currentBlock st)] else []).
Proof.
  intros Ht Hst Hne. unfold splitIntoBlocks. rewrite Ht, Hst. cbn [negb].
  destruct (currentBlock st) as [|c cs] eqn:E; cbn [nonEmpty] in *.
  - rewrite app_nil_r in *. destruct (blocks st); [congruence|reflexivity].
  - unfold closeBlock. cbn [blocks]. rewrite E.
    destruct (blocks st ++ [join_nl (c :: cs)]); [congruence|reflexivity].
Qed.

(** C7. [splitIntoBlocks] never returns an empty sequence, it returns
    exactly [[""]] for the empty string, and its result is a function of
    the input string alone. *)
Theorem splitIntoBlocks_nonempty :
  (forall markdown : str, splitIntoBlocks markdown <> [])
  /\ splitIntoBlocks [] = [[]]
  /\ (forall m1 m2 : str, m1 = m2 -> splitIntoBlocks m1 = splitIntoBlocks m2).
Proof.
  split; [|split].
  - intros markdown. unfold splitIntoBlocks.
    destruct (negb (truthy markdown)); [discriminate|].
    match goal with
    | |- (if nonEmpty ?b then _ else _) <> [] => destruct b; discriminate
    end.
  - reflexivity.
  - now intros m1 m2 ->.
Qed.

(** C6. Fence integrity.  Let the input consist of the lines
    [pre ++ opener :: body ++ post], where the loop is outside a fence
    after [pre], [opener] is a fence-opening line with delimiter [delim]
    and no line of [body] (blank lines included) begins with [delim].
    Then no block is pushed while [body] is read: after it the current
    block is exactly [opener :: body] and the fence is still open.  If the
    input ends there, the unterminated fence is emitted as the final
    block; if a line beginning with [delim] follows, it closes the block,
    which is emitted as [opener :: body ++ [closer]]. *)
Theorem fence_integrity
    (markdown : str) (pre body post : list str) (opener delim : str) :
  split_nl markdown = pre ++ opener :: body ++ post ->
  inCodeFence (splitUpto pre (opener :: body ++ post) splitInit) = false ->
  fenceMatch (trim opener) = Some delim ->
  Forall (fun l => startsWith (trim l) delim = false) body ->
  let atOpener := splitUpto (pre ++ [opener]) (body ++ post) splitInit in
  let afterBody := splitUpto (pre ++ opener :: body) post splitInit in
  blocks afterBody = blocks atOpener
  /\ currentBlock afterBody = opener :: body
  /\ inCodeFence afterBody = true
  /\ (post = [] ->
      splitIntoBlocks markdown =
      blocks atOpener ++ [join_nl (opener :: body)])
  /\ (forall closer post',
        post = closer :: post' ->
        startsWith (trim closer) delim = true ->
        exists later,
          splitIntoBlocks markdown =
          blocks atOpener ++ join_nl (opener :: body ++ [closer]) :: later).
Proof.
  intros Hlines Hout Hopen Hbody atOpener afterBody.
  assert (Htruthy : truthy markdown = true).
  { destruct markdown; [|reflexivity]. simpl in Hlines.
    destruct pre as [|p pre]; simpl in Hlines.
    - injection Hlines as <- _. discriminate.
    - injection Hlines as _ Hnil. now destruct pre. }
  set (st0 := splitUpto pre (opener :: body ++ post) splitInit) in *.
  assert (HatOpener :
    atOpener =
    {| blocks := if nonEmpty (currentBlock st0)
                 then blocks st0 ++ [join_nl (currentBlock st0)]
                 else blocks st0;
       currentBlock := [opener]; inCodeFence := true; fenceChar := delim |}).
  { unfold atOpener. rewrite splitUpto_app. simpl.
    fold st0. now apply step_opens_fence. }
  assert (HafterBody :
    afterBody =
    {| blocks := blocks atOpener; currentBlock := opener :: body;
       inCodeFence := true; fenceChar := delim |}).
  { unfold afterBody.
    replace (pre ++ opener :: body) with ((pre ++ [opener]) ++ body)
      by now rewrite <- app_assoc.
    rewrite splitUpto_app. fold atOpener.
    rewrite fence_body_appended; rewrite HatOpener; simpl; auto. }
  assert (Hloop :
    splitLoop (split_nl markdown) splitInit = splitLoop post afterBody).
  { rewrite Hlines.
    replace (pre ++ opener :: body ++ post)
      with ((pre ++ opener :: body) ++ post)
      by now rewrite <- app_assoc.
    now rewrite splitLoop_app. }
  rewrite HafterBody. simpl. repeat split.
  - intros ->. rewrite HafterBody in Hloop. simpl in Hloop.
    rewrite (splitIntoBlocks_loop _ _ Htruthy Hloop); simpl; [reflexivity|].
    now destruct (blocks atOpener).
  - intros closer post' -> Hclose.
    rewrite HafterBody in Hloop. simpl in Hloop.
    rewrite step_closes_fence in Hloop; simpl; auto;
      [|now apply fenceMatch_delim with (trimmed := trim opener)].
    simpl in Hloop.
    match type of Hloop with
    | _ = splitLoop post' ?st1 =>
        destruct (splitLoop_blocks_grow post' st1) as [more Hmore];
        simpl in Hmore
    end.
    rewrite (splitIntoBlocks_loop _ _ Htruthy Hloop); rewrite Hmore.
    + rewrite <- !app_assoc. simpl. eauto.
    + rewrite <- !app_assoc. destruct (blocks atOpener); discriminate.
Qed.

(** *** Blocks tile the input *)

Lemma weave_snoc (seps bs : list str) (sep b : str) :
  length seps = length bs ->
  weave (seps ++ [sep]) (bs ++ [b]) = weave seps bs ++ sep ++ b.
Proof.
  revert bs. induction seps as [|s seps IH]; intros [|b0 bs] Hlen;
    try discriminate; simpl.
  - now rewrite app_nil_r.
  - injection Hlen as Hlen. now rewrite IH, <- !app_assoc.
Qed.

Lemma Tiles_single (l : str) : Tiles l [l] [].
Proof.
  exists [[]]. simpl. repeat split; auto. now rewrite !app_nil_r.
Qed.

Lemma weave_grow_last (seps bs : list str) (b x : str) :
  length seps = S (length bs) ->
  weave seps (bs ++ [b ++ x]) = weave seps (bs ++ [b]) ++ x.
Proof.
  revert bs. induction seps as [|s seps IH]; intros bs Hlen; [discriminate|].
  destruct bs as [|b0 bs]; simpl in *.
  - destruct seps; [|discriminate]. simpl.
    now rewrite !app_nil_r, app_assoc.
  - injection Hlen as Hlen. rewrite IH by assumption.
    now rewrite <- !app_assoc.
Qed.

Lemma Tiles_grow_last (text : str) (bs : list str) (b x : str) :
  Tiles text (bs ++ [b]) [] -> Tiles (text ++ x) (bs ++ [b ++ x]) [].
Proof.
  intros (seps & Hlen & Hok & ->).
  assert (Hlen' : length seps = S (length bs))
    by (rewrite Hlen, length_app; simpl; apply Nat.add_1_r).
  exists seps. repeat split; auto.
  - rewrite Hlen, !length_app. reflexivity.
  - rewrite weave_grow_last by assumption. now rewrite !app_nil_r.
Qed.

Lemma Tiles_trailing (text : str) (bs : list str) (trailing : str) :
  Tiles text bs [] -> Tiles (text ++ trailing) bs trailing.
Proof.
  intros (seps & Hlen & Hok & ->). exists seps.
  repeat split; auto. now rewrite app_nil_r.
Qed.

Lemma Tiles_new_block (text : str) (bs : list str) (trailing l : str) :
  bs <> [] ->
  isTrailing trailing ->
  Tiles text bs trailing ->
  Tiles (text ++ nl :: l) (bs ++ [l]) [].
Proof.
  intros Hne Htr (seps & Hlen & Hok & ->).
  exists (seps ++ [trailing ++ [nl]]). rewrite !length_app. simpl.
  split; [lia|]. split.
  - destruct seps as [|s0 ss]; [now destruct bs|].
    destruct Hok as [-> Hss]. simpl. split; [reflexivity|].
    apply Forall_app. split; [assumption|]. constructor; [|constructor].
    destruct Htr as [->|(w & Hw & ->)]; [now left|right].
    exists w. now split.
  - rewrite weave_snoc by assumption.
    rewrite app_nil_r, <- !app_assoc. reflexivity.
Qed.

Lemma TileInv_push (done : list str) (st : splitState) (line : str) :
  TileInv done st -> TileInv (done ++ [line]) (pushLine line st).
Proof.
  intros [Hfence Hinv]. split.
  - intros _. simpl. now destruct (currentBlock st).
  - simpl. destruct (currentBlock st) as [|c cs] eqn:E; simpl.
    + split; [now destruct done|].
      destruct Hinv as [[-> Hb]|(Hd & Hb & trailing & Htr & Ht)].
      * rewrite Hb. apply Tiles_single.
      * rewrite join_nl_snoc by assumption.
        now apply Tiles_new_block with (trailing := trailing).
    + destruct Hinv as [Hd Ht]. split; [now destruct done|].
      rewrite join_nl_snoc by assumption.
      change (c :: cs ++ [line]) with ((c :: cs) ++ [line]).
      rewrite join_nl_snoc by discriminate.
      now apply Tiles_grow_last.
Qed.

Lemma TileInv_close_blank (done : list str) (st : splitState) (line : str) :
  inCodeFence st = false ->
  currentBlock st <> [] ->
  isBlank line = true ->
  TileInv done st -> TileInv (done ++ [line]) (closeBlock st).
Proof.
  intros Hout Hcur Hblank [Hfence Hinv]. split.
  - simpl. congruence.
  - simpl. right. destruct (currentBlock st) as [|c cs]; [congruence|].
    destruct Hinv as [Hd Ht].
    split; [now destruct done|]. split; [now destruct (blocks st)|].
    exists (nl :: line). split; [right; now exists line|].
    rewrite join_nl_snoc by assumption. now apply Tiles_trailing.
Qed.

Lemma TileInv_open_fence (done : list str) (st : splitState) (line delim : str) :
  TileInv done st ->
  TileInv (done ++ [line])
    {| blocks := if nonEmpty (currentBlock st)
                 then blocks st ++ [join_nl (currentBlock st)] else blocks st;
       currentBlock := [line]; inCodeFence := true; fenceChar := delim |}.
Proof.
  intros [Hfence Hinv]. split; [discriminate|]. simpl.
  split; [now destruct done|].
  destruct (currentBlock st) as [|c cs]; simpl.
  - destruct Hinv as [[-> Hb]|(Hd & Hb & trailing & Htr & Ht)].
    + rewrite Hb. apply Tiles_single.
    + rewrite join_nl_snoc by assumption.
      now apply Tiles_new_block with (trailing := trailing).
  - destruct Hinv as [Hd Ht]. rewrite join_nl_snoc by assumption.
    apply Tiles_new_block with (trailing := []); auto.
    + now destruct (blocks st).
    + now left.
Qed.

Lemma TileInv_close_fence (done : list str) (st : splitState) (line : str) :
  inCodeFence st = true ->
  TileInv done st ->
  TileInv (done ++ [line])
    {| blocks := blocks st ++ [join_nl (currentBlock st ++ [line])];
       currentBlock := []; inCodeFence := false; fenceChar := [] |}.
Proof.
  intros Hin [Hfence Hinv]. split; [discriminate|]. simpl. right.
  specialize (Hfence Hin).
  destruct (currentBlock st) as [|c cs] eqn:E; [congruence|].
  destruct Hinv as [Hd Ht].
  split; [now destruct done|]. split; [now destruct (blocks st)|].
  exists []. split; [now left|].
  rewrite join_nl_snoc by assumption.
  rewrite join_nl_snoc by discriminate.
  now apply Tiles_grow_last.
Qed.

Lemma TileInv_step (done rest : list str) (st : splitState) (line : str) :
  existsb (N.eqb nl) line = false ->
  TileInv done st -> TileInv (done ++ [line]) (splitStep line rest st).
Proof.
  intros Hline Hinv. pose proof Hinv as [Hfence _].
  destruct (fenceMatch (trim line)) as [delim|] eqn:Hm.
  - destruct (inCodeFence st) eqn:Hin.
    + unfold splitStep. rewrite Hm, Hin. simpl.
      destruct (startsWith (trim line) (fenceChar st)) eqn:Hc.
      * now apply TileInv_close_fence.
      * now apply TileInv_push.
    + rewrite (step_opens_fence line rest st delim Hin Hm).
      now apply TileInv_open_fence.
  - unfold splitStep. rewrite Hm.
    destruct (inCodeFence st) eqn:Hin; [now apply TileInv_push|].
    destruct (truthy (trim line)) eqn:Ht; simpl;
      [now apply TileInv_push|].
    destruct (currentBlock st) as [|c cs] eqn:E; simpl;
      [now apply TileInv_push|].
    assert (Hblank : isBlank line = true)
      by (unfold isBlank; now rewrite Ht, Hline).
    assert (Hclose : TileInv (done ++ [line]) (closeBlock st))
      by (apply TileInv_close_blank; auto; congruence).
    destruct (find _ rest) as [nxt|]; [|assumption].
    destruct (negb (truthy nxt) || blockStarters nxt);
      [assumption|now apply TileInv_push].
Qed.

Lemma TileInv_loop (lines done : list str) (st : splitState) :
  Forall (fun l => existsb (N.eqb nl) l = false) lines ->
  TileInv done st -> TileInv (done ++ lines) (splitLoop lines st).
Proof.
  revert done st. induction lines as [|l ls IH]; intros done st Hl Hinv.
  - now rewrite app_nil_r.
  - inversion Hl; subst. simpl.
    replace (done ++ l :: ls) with ((done ++ [l]) ++ ls)
      by now rewrite <- app_assoc.
    apply IH; [assumption|]. now apply TileInv_step.
Qed.

(** C9. The blocks tile the input: the input is the first block followed,
    for each later block, by a separator and that block, and at the end by
    what was dropped.  A separator is a line break, or a line break, a
    blank line and a line break; what is dropped is nothing, or a line
    break and a blank line.  Hence every block is a contiguous substring
    of the input and the blocks occur in order without overlapping. *)
Theorem splitIntoBlocks_tiles (markdown : str) :
  exists first rest seps trailing,
    splitIntoBlocks markdown = first :: rest
    /\ length seps = length rest
    /\ Forall isSeparator seps
    /\ isTrailing trailing
    /\ markdown = first ++ weave seps rest ++ trailing.
Proof.
  destruct (truthy markdown) eqn:Htruthy.
  2:{ apply truthy_false in Htruthy. subst.
      exists [], [], [], []. repeat split; auto. now left. }
  assert (Hinv : TileInv (split_nl markdown)
                   (splitLoop (split_nl markdown) splitInit)).
  { apply (TileInv_loop (split_nl markdown) [] splitInit).
    - apply split_nl_lines.
    - split; [discriminate|]. simpl. now left. }
  set (st := splitLoop (split_nl markdown) splitInit) in *.
  assert (Hfinal :
    blocks st ++ (if nonEmpty (currentBlock st)
                  then [join_nl (currentBlock st)] else []) <> []
    /\ exists trailing,
         isTrailing trailing
         /\ Tiles markdown
              (blocks st ++ (if nonEmpty (currentBlock st)
                             then [join_nl (currentBlock st)] else []))
              trailing).
  { destruct Hinv as [_ Hinv]. rewrite join_split_nl in Hinv.
    destruct (currentBlock st) as [|c cs]; simpl.
    - destruct Hinv as [[Hd _]|(_ & Hb & trailing & Htr & Ht)].
      + now destruct (split_nl_nonempty markdown).
      + rewrite app_nil_r. split; [assumption|]. now exists trailing.
    - destruct Hinv as [_ Ht]. split; [now destruct (blocks st)|].
      exists []. split; [now left|assumption]. }
  destruct Hfinal as (Hne & trailing & Htr & seps & Hlen & Hok & Htext).
  rewrite (splitIntoBlocks_loop markdown st Htruthy eq_refl Hne).
  destruct (blocks st ++ _) as [|first rest]; [congruence|].
  destruct seps as [|s0 ss]; [discriminate|].
  destruct Hok as [-> Hss]. simpl in Hlen, Htext.
  exists first, rest, ss, trailing.
  repeat split; auto. now rewrite Htext, <- app_assoc.
Qed.

End SplitterFacts.

(** ** The component *)

Section ComponentFacts.

Context {node : Type}.
Variable parseHtml : str -> list node.
Variable render : str -> str.

Implicit Types (s : state node) (q : list task) (t : task).

(** *** Flushing *)

Lemma moveChildren_spec (streaming static : list node) (count : nat) :
  moveChildren streaming static count
  = ([], static ++ streaming, count + length streaming).
Proof.
  revert static count.
  induction streaming as [|n streaming IH]; intros static count; simpl.
  - now rewrite app_nil_r, Nat.add_0_r.
  - rewrite IH, <- app_assoc. simpl. now rewrite Nat.add_succ_r.
Qed.

Lemma flushToStatic_mounted s (static streaming : list node) :
  staticContainer s = Some static ->
  streamingContainer s = Some streaming ->
  flushToStatic s =
  nextTick TApplyMarginStatic
    (set_staticBlockCount (staticBlockCount s + length streaming)
       (set_staticContainer (Some (static ++ streaming))
          (set_streamingContainer (Some []) s))).
Proof.
  intros Hs Hi. unfold flushToStatic.
  now rewrite Hs, Hi, moveChildren_spec.
Qed.

(** C8. Flushing is append-only and idempotent.  When a container is
    missing or the in-flight region is empty, the committed region and
    the committed-node count are unchanged.  Otherwise the in-flight
    nodes are appended, in order, after the committed nodes, which keep
    their places; the in-flight region is left empty, so that a second
    flush changes nothing more. *)
Theorem flushToStatic_append_only s :
  (staticContainer s = None \/ streamingContainer s = None
   \/ streamingContainer s = Some [] ->
   staticContainer (flushToStatic s) = staticContainer s
   /\ staticBlockCount (flushToStatic s) = staticBlockCount s)
  /\ (forall committed inflight,
        staticContainer s = Some committed ->
        streamingContainer s = Some inflight ->
        staticContainer (flushToStatic s) = Some (committed ++ inflight)
        /\ streamingContainer (flushToStatic s) = Some []
        /\ staticBlockCount (flushToStatic s)
           = staticBlockCount s + length inflight)
  /\ staticContainer (flushToStatic (flushToStatic s))
     = staticContainer (flushToStatic s)
  /\ streamingContainer (flushToStatic (flushToStatic s))
     = streamingContainer (flushToStatic s)
  /\ staticBlockCount (flushToStatic (flushToStatic s))
     = staticBlockCount (flushToStatic s).
Proof.
  assert (Happ : forall s' committed inflight,
    staticContainer s' = Some committed ->
    streamingContainer s' = Some inflight ->
    staticContainer (flushToStatic s') = Some (committed ++ inflight)
    /\ streamingContainer (flushToStatic s') = Some []
    /\ staticBlockCount (flushToStatic s')
       = staticBlockCount s' + length inflight).
  { intros s' committed inflight Hs Hi.
    now rewrite (flushToStatic_mounted s' committed inflight Hs Hi). }
  assert (Hmiss : forall s',
    staticContainer s' = None \/ streamingContainer s' = None ->
    flushToStatic s' = s').
  { intros s' [H|H]; unfold flushToStatic; rewrite H; [reflexivity|].
    now destruct (staticContainer s'). }
  split; [|split; [exact (Happ s)|]].
  - intros [H|[H|H]].
    + now rewrite Hmiss by auto.
    + now rewrite Hmiss by auto.
    + destruct (staticContainer s) as [committed|] eqn:Hs.
      * destruct (Happ s committed [] Hs H) as (-> & _ & ->).
        simpl. now rewrite app_nil_r, Nat.add_0_r.
      * now rewrite Hmiss by auto.
  - destruct (staticContainer s) as [committed|] eqn:Hs;
      [|now rewrite !(Hmiss s) by auto].
    destruct (streamingContainer s) as [inflight|] eqn:Hi;
      [|now rewrite !(Hmiss s) by auto].
    destruct (Happ s committed inflight Hs Hi) as (Hs' & Hi' & Hc').
    destruct (Happ (flushToStatic s) _ _ Hs' Hi') as (-> & -> & ->).
    simpl. now rewrite Hs', Hi', app_nil_r, Nat.add_0_r.
Qed.

(** *** Rendering a block *)

Lemma accumulateHtml_fold (bs : list str) (acc : str) :
  fold_left
    (fun accumulatedHtml block =>
       let html := renderBlockHtml render block in
       if truthy html then accumulatedHtml ++ html else accumulatedHtml)
    bs acc
  = acc ++ accumulateHtml render bs.
Proof.
  unfold accumulateHtml. revert acc.
  induction bs as [|b bs IH]; intros acc; simpl.
  - now rewrite app_nil_r.
  - rewrite IH. rewrite (IH (if truthy _ then _ else _)).
    destruct (truthy (renderBlockHtml render b)); simpl;
      now rewrite ?app_assoc.
Qed.

Lemma accumulateHtml_app (bs1 bs2 : list str) :
  accumulateHtml render (bs1 ++ bs2)
  = accumulateHtml render bs1 ++ accumulateHtml render bs2.
Proof.
  unfold accumulateHtml at 1. rewrite fold_left_app.
  fold (accumulateHtml render bs1). apply accumulateHtml_fold.
Qed.

Lemma accumulateHtml_cons (b : str) (bs : list str) :
  accumulateHtml render (b :: bs)
  = renderBlockHtml render b ++ accumulateHtml render bs.
Proof.
  unfold accumulateHtml at 1. simpl. rewrite accumulateHtml_fold.
  now destruct (renderBlockHtml render b).
Qed.

Lemma dropWhile_all (p : char -> bool) (w : str) :
  forallb p w = true -> dropWhile p w = [].
Proof.
  induction w as [|c w IH]; [reflexivity|]. simpl.
  intros H. apply andb_true_iff in H as [-> H]. auto.
Qed.

Lemma trim_whitespace (w : str) : forallb is_space w = true -> trim w = [].
Proof.
  intros H. unfold trim, trimEnd, trimStart.
  rewrite (dropWhile_all is_space w H). reflexivity.
Qed.

(** C10. A block that is empty or consists only of white space renders
    to the empty string; this holds whatever the external render function
    is, so that function is not consulted.  Such a block adds nothing to
    the HTML accumulated for commit: the accumulated HTML is the same as
    if the block were absent. *)
Theorem blank_block_renders_nothing (block : str) :
  block = [] \/ forallb is_space block = true ->
  (forall anyRender : str -> str, renderBlockHtml anyRender block = [])
  /\ (forall before after : list str,
        accumulateHtml render (before ++ block :: after)
        = accumulateHtml render (before ++ after)).
Proof.
  intros Hblank.
  assert (Htrim : truthy (trim block) = false).
  { destruct Hblank as [->|H]; [reflexivity|]. now rewrite trim_whitespace. }
  assert (Hnone : forall anyRender, renderBlockHtml anyRender block = []).
  { intros anyRender. unfold renderBlockHtml.
    apply truthy_false in Htrim. rewrite Htrim. simpl.
    now rewrite orb_true_r. }
  split; [exact Hnone|].
  intros before after.
  now rewrite !accumulateHtml_app, accumulateHtml_cons, Hnone.
Qed.

(** *** Frame lemmas for the synchronous functions *)

Local Opaque splitIntoBlocks startsWith trim str_eqb orElse.

Ltac frame_setStreamingHtml :=
  intros; unfold setStreamingHtml;
  match goal with
  | |- context [if ?c then _ else _] => destruct c
  end; reflexivity.

Lemma setStreamingHtml_emitted (html : str) s :
  emitted (setStreamingHtml html s) = emitted s.
Proof. frame_setStreamingHtml. Qed.

Lemma setStreamingHtml_static (html : str) s :
  staticContainer (setStreamingHtml html s) = staticContainer s.
Proof. frame_setStreamingHtml. Qed.

Lemma setStreamingHtml_streaming (html : str) s :
  streamingContainer (setStreamingHtml html s) = streamingContainer s.
Proof. frame_setStreamingHtml. Qed.

Lemma setStreamingHtml_bound (html : str) s :
  boundHtml (setStreamingHtml html s) = boundHtml s.
Proof. frame_setStreamingHtml. Qed.

Lemma setStreamingHtml_count (html : str) s :
  staticBlockCount (setStreamingHtml html s) = staticBlockCount s.
Proof. frame_setStreamingHtml. Qed.

Lemma setStreamingHtml_tail (html : str) s :
  tailMarkdown (setStreamingHtml html s) = tailMarkdown s.
Proof. frame_setStreamingHtml. Qed.

Lemma setStreamingHtml_prev (html : str) s :
  prevContent (setStreamingHtml html s) = prevContent s.
Proof. frame_setStreamingHtml. Qed.

Lemma setStreamingHtml_flag (html : str) s :
  hasEmittedStart (setStreamingHtml html s) = hasEmittedStart s.
Proof. frame_setStreamingHtml. Qed.

Lemma setStreamingHtml_complete (html : str) s :
  lastCompleteBlockCount (setStreamingHtml html s) = lastCompleteBlockCount s.
Proof. frame_setStreamingHtml. Qed.

Lemma setStreamingHtml_key (html : str) s :
  lastRenderKey (setStreamingHtml html s) = html.
Proof.
  unfold setStreamingHtml.
  destruct (str_eqb (lastRenderKey s) html) eqn:E; [|reflexivity].
  now apply str_eqb_eq in E.
Qed.

Lemma setStreamingHtml_value (html : str) s :
  streamingHtml (setStreamingHtml html s)
  = if str_eqb (lastRenderKey s) html then streamingHtml s else html.
Proof.
  unfold setStreamingHtml.
  destruct (str_eqb (lastRenderKey s) html); [reflexivity|].
  simpl. apply orElse_nil.
Qed.

Lemma setStreamingHtml_pending (html : str) s :
  pending (setStreamingHtml html s)
  = pending s
    ++ (if str_eqb (lastRenderKey s) html then []
        else [TApplyMarginStreaming]).
Proof.
  unfold setStreamingHtml.
  destruct (str_eqb (lastRenderKey s) html); simpl;
    now rewrite ?app_nil_r.
Qed.

Create Rewrite HintDb frame.

Hint Rewrite setStreamingHtml_emitted setStreamingHtml_static
  setStreamingHtml_streaming setStreamingHtml_bound setStreamingHtml_count
  setStreamingHtml_tail setStreamingHtml_prev setStreamingHtml_flag
  setStreamingHtml_complete setStreamingHtml_key : frame.

(** Simplify a projection of a state built by the synchronous functions,
    splitting on the conditionals met on the way. *)
Ltac frame :=
  repeat (simpl; autorewrite with frame;
          match goal with
          | |- context [if ?c then _ else _] => destruct c eqn:?
          | |- context [match ?c with Some _ => _ | None => _ end] =>
              destruct c eqn:?
          end);
  simpl; autorewrite with frame.

Lemma handleNonPrefixReplace_emitted (c : str) s :
  emitted (handleNonPrefixReplace render c false s) = emitted s.
Proof. unfold handleNonPrefixReplace, nextTick. frame; reflexivity. Qed.

Lemma processAppendedSuffix_emitted (suffix : str) s :
  emitted (processAppendedSuffix render suffix s) = emitted s.
Proof. unfold processAppendedSuffix, nextTick. frame; reflexivity. Qed.

Lemma finalizeAll_emitted (c : str) s :
  emitted (finalizeAll render c s) = emitted s.
Proof. unfold finalizeAll, nextTick. frame; reflexivity. Qed.

Hint Rewrite handleNonPrefixReplace_emitted processAppendedSuffix_emitted
  finalizeAll_emitted : frame.

Lemma processContentNow_emitted (c : str) (b : bool) s :
  emitted (processContentNow render c b s)
  = emitted s
    ++ (if negb (truthy (prevContent s)) && negb (hasEmittedStart s)
        then [EvStart] else [])
    ++ (if truthy (prevContent s) && b then [EvComplete] else []).
Proof.
  unfold processContentNow, emit.
  destruct (truthy (prevContent s)), b, (hasEmittedStart s);
    frame; now rewrite ?app_nil_r.
Qed.

Lemma watchCallback_emitted (c : str) (b : bool) s :
  emitted (watchCallback render c b s)
  = emitted s
    ++ (if negb (truthy (prevContent s))
           && (negb (truthy c) || negb (hasEmittedStart s))
        then [EvStart] else [])
    ++ (if truthy (prevContent s) && b then [EvComplete] else []).
Proof.
  unfold watchCallback. rewrite processContentNow_emitted.
  destruct (truthy (prevContent s)) eqn:Hprev.
  - destruct (_ || _); simpl; now rewrite Hprev.
  - assert (Hlen : (length c <? length (prevContent s)) = false).
    { apply truthy_false in Hprev. rewrite Hprev. apply Nat.ltb_ge. simpl. lia. }
    rewrite Hlen, orb_false_r.
    destruct (truthy c); simpl; now rewrite Hprev.
Qed.

(** *** Running the waiting callbacks *)

Lemma queueWeight_app q1 q2 :
  queueWeight (q1 ++ q2) = queueWeight q1 + queueWeight q2.
Proof.
  induction q1 as [|t q1 IH]; simpl; [reflexivity|]. rewrite IH. lia.
Qed.

Lemma noFinalize_app q1 q2 :
  noFinalize (q1 ++ q2) <-> noFinalize q1 /\ noFinalize q2.
Proof. unfold noFinalize. rewrite forallb_app. apply andb_true_iff. Qed.

Lemma flushToStatic_pending s :
  exists spawned,
    pending (flushToStatic s) = pending s ++ spawned
    /\ queueWeight spawned <= 1 /\ noFinalize spawned
    /\ existsb isRender spawned = false.
Proof.
  unfold flushToStatic.
  destruct (staticContainer s), (streamingContainer s);
    try (exists []; rewrite app_nil_r; repeat split; simpl; auto; fail).
  rewrite moveChildren_spec. simpl.
  exists [TApplyMarginStatic]. repeat split; simpl; auto.
Qed.

(** A task leaves the tasks behind it in place and registers new ones
    after them, fewer than its weight allows and never a finalization. *)
Lemma runTask_spawn t q s :
  exists spawned,
    pending (runTask parseHtml t (set_pending q s)) = q ++ spawned
    /\ queueWeight spawned < taskWeight t
    /\ noFinalize spawned.
Proof.
  assert (Hnone : forall s', pending s' = q ->
            exists spawned, pending s' = q ++ spawned
                            /\ queueWeight spawned < 1
                            /\ noFinalize spawned).
  { intros s' ->. exists []. rewrite app_nil_r. repeat split. simpl. lia. }
  destruct t; cbn [runTask taskWeight]; try (now apply Hnone).
  - apply Hnone. unfold vueRender. frame; reflexivity.
  - destruct (flushToStatic_pending (set_pending q s))
      as (spawned & -> & Hw & Hnf & _).
    exists spawned. repeat split; auto. lia.
  - unfold finalizeReset, assignStreamingHtml, nextTick.
    destruct (flushToStatic_pending (set_pending q s))
      as (spawned & Hp & Hw & Hnf & Hr).
    cbn [pending set_pending] in Hp.
    set (s1 := flushToStatic (set_pending q s)) in *.
    frame; rewrite ?Hp, <- ?app_assoc;
      eexists; (split; [reflexivity|]);
      rewrite ?queueWeight_app, ?noFinalize_app; simpl;
      repeat split; auto; lia.
Qed.

Lemma drain_invariant (I : state node -> Prop) :
  (forall t q s, pending s = t :: q -> I s ->
                 I (runTask parseHtml t (set_pending q s))) ->
  forall fuel s, I s -> I (drain parseHtml fuel s).
Proof.
  intros Hstep fuel. induction fuel as [|fuel IH]; intros s Hs; simpl; auto.
  destruct (pending s) as [|t q] eqn:Hp; auto.
Qed.

(** The fuel [update] provides is enough: no callback is left waiting. *)
Lemma drain_pending fuel s :
  queueWeight (pending s) <= fuel -> pending (drain parseHtml fuel s) = [].
Proof.
  revert s. induction fuel as [|fuel IH]; intros s Hw; simpl.
  - destruct (pending s) as [|t q]; [reflexivity|].
    simpl in Hw. destruct t; simpl in Hw; lia.
  - destruct (pending s) as [|t q] eqn:Hp; [assumption|].
    apply IH. destruct (runTask_spawn t q s) as (spawned & -> & Hlt & _).
    rewrite queueWeight_app. simpl in Hw. lia.
Qed.

Lemma update_pending (c : str) (b : bool) s :
  pending (update parseHtml render c b s) = [].
Proof. unfold update. now apply drain_pending. Qed.

Lemma flushToStatic_frame s :
  emitted (flushToStatic s) = emitted s
  /\ hasEmittedStart (flushToStatic s) = hasEmittedStart s
  /\ prevContent (flushToStatic s) = prevContent s
  /\ tailMarkdown (flushToStatic s) = tailMarkdown s
  /\ lastCompleteBlockCount (flushToStatic s) = lastCompleteBlockCount s
  /\ lastRenderKey (flushToStatic s) = lastRenderKey s
  /\ streamingHtml (flushToStatic s) = streamingHtml s
  /\ boundHtml (flushToStatic s) = boundHtml s.
Proof.
  destruct (staticContainer s) as [static|] eqn:Hs;
    [destruct (streamingContainer s) as [streaming|] eqn:Hi|].
  - rewrite (flushToStatic_mounted s static streaming Hs Hi).
    repeat split.
  - unfold flushToStatic. rewrite Hs, Hi. repeat split.
  - unfold flushToStatic. rewrite Hs. repeat split.
Qed.

Lemma runTask_emitted t s :
  emitted (runTask parseHtml t s) = emitted s
  /\ hasEmittedStart (runTask parseHtml t s) = hasEmittedStart s.
Proof.
  destruct t; cbn [runTask]; auto.
  - unfold vueRender. frame; auto.
  - split; apply flushToStatic_frame.
  - destruct (flushToStatic_frame s) as (He & Hf & _).
    unfold finalizeReset, assignStreamingHtml, nextTick.
    set (s1 := flushToStatic s) in *. frame; auto.
Qed.

Lemma drain_emitted fuel s :
  emitted (drain parseHtml fuel s) = emitted s
  /\ hasEmittedStart (drain parseHtml fuel s) = hasEmittedStart s.
Proof.
  apply (drain_invariant
           (fun s' => emitted s' = emitted s
                      /\ hasEmittedStart s' = hasEmittedStart s)); auto.
  intros t q s' _ [<- <-]. apply (runTask_emitted t (set_pending q s')).
Qed.

Lemma vueRender_frame s :
  emitted (vueRender parseHtml s) = emitted s
  /\ pending (vueRender parseHtml s) = pending s
  /\ prevContent (vueRender parseHtml s) = prevContent s
  /\ tailMarkdown (vueRender parseHtml s) = tailMarkdown s
  /\ lastCompleteBlockCount (vueRender parseHtml s) = lastCompleteBlockCount s
  /\ lastRenderKey (vueRender parseHtml s) = lastRenderKey s
  /\ streamingHtml (vueRender parseHtml s) = streamingHtml s
  /\ staticContainer (vueRender parseHtml s) = staticContainer s
  /\ hasEmittedStart (vueRender parseHtml s) = hasEmittedStart s.
Proof. unfold vueRender. frame; repeat split. Qed.

Lemma update_emitted (c : str) (b : bool) s :
  emitted (update parseHtml render c b s)
  = emitted (watchCallback render c b s).
Proof.
  unfold update.
  destruct (drain_emitted
              (queueWeight (pending (vueRender parseHtml
                                       (watchCallback render c b s))))
              (vueRender parseHtml (watchCallback render c b s)))
    as [-> _].
  apply vueRender_frame.
Qed.

(** *** What the watcher leaves behind *)

(** Close a branch whose conditions contradict what is known of
    [prevContent]. *)
Ltac absurd_branch Hprev :=
  simpl in *; rewrite ?Hprev in *; simpl in *; congruence.

Ltac unfold_watcher :=
  unfold watchCallback, processContentNow, handleNonPrefixReplace,
    processAppendedSuffix, finalizeAll, nextTick, emit.

Lemma watchCallback_containers (c : str) (b : bool) s :
  streamingContainer (watchCallback render c b s) = streamingContainer s
  /\ boundHtml (watchCallback render c b s) = boundHtml s
  /\ (staticContainer s <> None ->
      staticContainer (watchCallback render c b s) <> None).
Proof.
  unfold_watcher. frame; repeat split; congruence.
Qed.

Lemma watchCallback_prev (c : str) (b : bool) s :
  b = false \/ truthy (prevContent s) = false ->
  prevContent (watchCallback render c b s) = c.
Proof.
  intros Hb. unfold_watcher. rewrite !orElse_nil.
  destruct (truthy (prevContent s)) eqn:Hprev, b;
    try (destruct Hb; discriminate);
    frame; rewrite ?orElse_nil; try reflexivity; absurd_branch Hprev.
Qed.

Hint Rewrite setStreamingHtml_pending : frame.

Ltac solve_extends :=
  rewrite <- ?app_assoc;
  first [ exists []; split; [now rewrite app_nil_r|reflexivity]
        | eexists; split; [reflexivity|reflexivity] ].

Lemma watchCallback_pending (c : str) (b : bool) s :
  b = false \/ truthy (prevContent s) = false ->
  exists extra,
    pending (watchCallback render c b s) = pending s ++ extra
    /\ noFinalize extra.
Proof.
  intros Hb. unfold_watcher. rewrite !orElse_nil.
  destruct (truthy (prevContent s)) eqn:Hprev, b;
    try (destruct Hb; discriminate);
    frame; try solve_extends; absurd_branch Hprev.
Qed.

Lemma processAppendedSuffix_count (suffix : str) s :
  lastCompleteBlockCount s
  <= lastCompleteBlockCount (processAppendedSuffix render suffix s).
Proof.
  unfold processAppendedSuffix, nextTick. frame; auto.
  all: match goal with
       | H : (_ <? _) = true |- _ => apply Nat.ltb_lt in H; simpl in H; lia
       end.
Qed.

(** *** What the callbacks leave behind *)

Lemma runTask_stream_frame t s :
  isFinalize t = false ->
  prevContent (runTask parseHtml t s) = prevContent s
  /\ tailMarkdown (runTask parseHtml t s) = tailMarkdown s
  /\ lastCompleteBlockCount (runTask parseHtml t s) = lastCompleteBlockCount s.
Proof.
  destruct t; cbn [runTask isFinalize]; try discriminate; intros _; auto.
  - repeat split; apply vueRender_frame.
  - repeat split; apply flushToStatic_frame.
Qed.

(** While no finalization is waiting, running the callbacks leaves the
    snapshot, the tail buffer and the committed-block count alone. *)
Lemma drain_stream_frame fuel s :
  noFinalize (pending s) ->
  prevContent (drain parseHtml fuel s) = prevContent s
  /\ tailMarkdown (drain parseHtml fuel s) = tailMarkdown s
  /\ lastCompleteBlockCount (drain parseHtml fuel s)
     = lastCompleteBlockCount s.
Proof.
  intros Hnf.
  apply (drain_invariant
           (fun s' => noFinalize (pending s')
                      /\ prevContent s' = prevContent s
                      /\ tailMarkdown s' = tailMarkdown s
                      /\ lastCompleteBlockCount s' = lastCompleteBlockCount s));
    [|now auto].
  intros t q s' Hp (Hq & <- & <- & <-). rewrite Hp in Hq.
  unfold noFinalize in Hq. simpl in Hq.
  apply andb_true_iff in Hq as [Ht Hq]. apply negb_true_iff in Ht.
  split.
  - destruct (runTask_spawn t q s') as (spawned & -> & _ & Hsp).
    apply noFinalize_app. now split.
  - apply (runTask_stream_frame t (set_pending q s') Ht).
Qed.

Lemma vueRender_mounted s : mounted s -> mounted (vueRender parseHtml s).
Proof.
  intros [Hs Hi]. unfold vueRender, mounted.
  frame; split; congruence.
Qed.

Lemma vueRender_bound s :
  boundHtml (vueRender parseHtml s) = streamingHtml (vueRender parseHtml s).
Proof.
  unfold vueRender. destruct (str_eqb _ _) eqn:E.
  - symmetry. now apply str_eqb_eq.
  - now destruct (streamingContainer s).
Qed.

Lemma flushToStatic_mounted_inv s : mounted s -> mounted (flushToStatic s).
Proof.
  intros [Hs Hi].
  destruct (staticContainer s) as [static|] eqn:Es; [|congruence].
  destruct (streamingContainer s) as [streaming|] eqn:Ei; [|congruence].
  rewrite (flushToStatic_mounted s static streaming Es Ei).
  split; discriminate.
Qed.

Lemma runTask_mounted t s : mounted s -> mounted (runTask parseHtml t s).
Proof.
  intros Hm. destruct t; cbn [runTask]; auto.
  - now apply vueRender_mounted.
  - now apply flushToStatic_mounted_inv.
  - apply flushToStatic_mounted_inv in Hm. destruct Hm as [Hs Hi].
    unfold finalizeReset, assignStreamingHtml, nextTick, mounted.
    set (s1 := flushToStatic s) in *. frame; auto.
Qed.

Lemma drain_mounted fuel s : mounted s -> mounted (drain parseHtml fuel s).
Proof.
  apply (drain_invariant (fun s' => mounted s')).
  intros t q s' _ Hm. apply runTask_mounted. exact Hm.
Qed.

Lemma runTask_binding t q s :
  pending s = t :: q ->
  boundHtml s = streamingHtml s \/ existsb isRender (pending s) = true ->
  boundHtml (runTask parseHtml t (set_pending q s))
  = streamingHtml (runTask parseHtml t (set_pending q s))
  \/ existsb isRender (pending (runTask parseHtml t (set_pending q s))) = true.
Proof.
  intros Hp Hinv. rewrite Hp in Hinv.
  assert (Hkeep : forall s',
    boundHtml s' = boundHtml s -> streamingHtml s' = streamingHtml s ->
    (exists spawned, pending s' = q ++ spawned) ->
    isRender t = false ->
    boundHtml s' = streamingHtml s' \/ existsb isRender (pending s') = true).
  { intros s' Hb Hv [spawned Hq] Ht. rewrite Hb, Hv, Hq.
    destruct Hinv as [H|H]; [now left|right].
    simpl in H. rewrite Ht in H. rewrite existsb_app. simpl in H.
    now rewrite H. }
  destruct t; cbn [runTask].
  - left. apply vueRender_bound.
  - apply Hkeep; auto. now exists []; rewrite app_nil_r.
  - apply Hkeep; auto. now exists []; rewrite app_nil_r.
  - destruct (flushToStatic_frame (set_pending q s)) as (_&_&_&_&_&_& Hv & Hb).
    destruct (flushToStatic_pending (set_pending q s)) as (sp & Hq & _).
    apply Hkeep; auto. now exists sp.
  - destruct (flushToStatic_frame (set_pending q s)) as (_&_&_&_&_&_& Hv & Hb).
    destruct (flushToStatic_pending (set_pending q s)) as (sp & Hq & _).
    assert (Hflush : boundHtml (flushToStatic (set_pending q s))
                     = streamingHtml (flushToStatic (set_pending q s))
                     \/ existsb isRender
                          (pending (flushToStatic (set_pending q s))) = true).
    { apply Hkeep; auto. now exists sp. }
    unfold finalizeReset, assignStreamingHtml, nextTick.
    set (s1 := flushToStatic (set_pending q s)) in *.
    frame; rewrite ?existsb_app; simpl; rewrite ?orb_true_r;
      try (now right).
    + match goal with
      | H : str_eqb _ [] = true |- _ => apply str_eqb_eq in H
      end.
      destruct Hflush as [H|H]; [left; congruence|right].
      now rewrite H.
    + right. match goal with H : existsb _ _ = true |- _ => now rewrite H end.
  - apply Hkeep; auto. now exists []; rewrite app_nil_r.
Qed.

Lemma drain_binding fuel s :
  boundHtml s = streamingHtml s ->
  pending (drain parseHtml fuel s) = [] ->
  boundHtml (drain parseHtml fuel s) = streamingHtml (drain parseHtml fuel s).
Proof.
  intros Hb Hnil.
  assert (H : boundHtml (drain parseHtml fuel s)
              = streamingHtml (drain parseHtml fuel s)
              \/ existsb isRender (pending (drain parseHtml fuel s)) = true).
  { apply (drain_invariant
             (fun s' => boundHtml s' = streamingHtml s'
                        \/ existsb isRender (pending s') = true));
      [|now left].
    intros t q s' Hp Hinv. now apply runTask_binding. }
  rewrite Hnil in H. now destruct H.
Qed.

(** *** One update, from the watcher to quiescence *)

Lemma update_stream_frame (c : str) (b : bool) s :
  b = false \/ truthy (prevContent s) = false ->
  noFinalize (pending s) ->
  prevContent (update parseHtml render c b s) = c
  /\ tailMarkdown (update parseHtml render c b s)
     = tailMarkdown (watchCallback render c b s)
  /\ lastCompleteBlockCount (update parseHtml render c b s)
     = lastCompleteBlockCount (watchCallback render c b s).
Proof.
  intros Hb Hnf. unfold update.
  set (s1 := watchCallback render c b s).
  destruct (vueRender_frame s1) as (_ & Hp & Hprev & Htail & Hcnt & _).
  destruct (drain_stream_frame
              (queueWeight (pending (vueRender parseHtml s1)))
              (vueRender parseHtml s1)) as (-> & -> & ->).
  - rewrite Hp. subst s1.
    destruct (watchCallback_pending c b s Hb) as (extra & -> & Hextra).
    apply noFinalize_app. now split.
  - rewrite Hprev, Htail, Hcnt. repeat split.
    subst s1. now apply watchCallback_prev.
Qed.

Lemma drain_step fuel t q s :
  pending s = t :: q ->
  drain parseHtml (S fuel) s
  = drain parseHtml fuel (runTask parseHtml t (set_pending q s)).
Proof. intros Hp. simpl. now rewrite Hp. Qed.

Lemma runTask_quiet t q s :
  isQuiet t = true ->
  pending (runTask parseHtml t (set_pending q s)) = q
  /\ staticContainer (runTask parseHtml t (set_pending q s))
     = staticContainer s
  /\ prevContent (runTask parseHtml t (set_pending q s)) = prevContent s
  /\ tailMarkdown (runTask parseHtml t (set_pending q s)) = tailMarkdown s
  /\ lastCompleteBlockCount (runTask parseHtml t (set_pending q s))
     = lastCompleteBlockCount s.
Proof.
  destruct t; cbn [runTask isQuiet]; try discriminate; intros _;
    repeat split.
  all: apply (vueRender_frame (set_pending q s)).
Qed.

(** Quiet tasks leave the committed region and the variables alone. *)
Lemma drain_quiet fuel s :
  forallb isQuiet (pending s) = true ->
  staticContainer (drain parseHtml fuel s) = staticContainer s
  /\ prevContent (drain parseHtml fuel s) = prevContent s
  /\ tailMarkdown (drain parseHtml fuel s) = tailMarkdown s
  /\ lastCompleteBlockCount (drain parseHtml fuel s)
     = lastCompleteBlockCount s.
Proof.
  intros Hq.
  apply (drain_invariant
           (fun s' => forallb isQuiet (pending s') = true
                      /\ staticContainer s' = staticContainer s
                      /\ prevContent s' = prevContent s
                      /\ tailMarkdown s' = tailMarkdown s
                      /\ lastCompleteBlockCount s'
                         = lastCompleteBlockCount s));
    [|now auto].
  intros t q s' Hp (Hquiet & <- & <- & <- & <-).
  rewrite Hp in Hquiet. simpl in Hquiet.
  apply andb_true_iff in Hquiet as [Ht Hquiet].
  destruct (runTask_quiet t q s' Ht) as (-> & -> & -> & -> & ->).
  now repeat split.
Qed.

Lemma processContentNow_complete (c : str) s :
  truthy (prevContent s) = true ->
  processContentNow render c true s
  = emit EvComplete (finalizeAll render c s).
Proof.
  intros Hprev. unfold processContentNow.
  now rewrite Hprev, orElse_nil.
Qed.

Lemma finalizeAll_mounted (c : str) s (static : list node) :
  staticContainer s = Some static ->
  finalizeAll render c s
  = nextTick (TFinalizeReset c)
      (setStreamingHtml (render c)
         (set_staticBlockCount 0 (set_staticContainer (Some []) s))).
Proof.
  intros Hs. unfold finalizeAll. now rewrite Hs, orElse_nil.
Qed.

(** The callback of [finalizeAll], run on a mounted component whose
    committed region was just cleared. *)
Lemma finalizeReset_effect (c : str) s (streaming : list node) :
  staticContainer s = Some [] ->
  streamingContainer s = Some streaming ->
  forallb isQuiet (pending s) = true ->
  staticContainer (finalizeReset c s) = Some streaming
  /\ prevContent (finalizeReset c s) = c
  /\ tailMarkdown (finalizeReset c s) = []
  /\ lastCompleteBlockCount (finalizeReset c s) = 0
  /\ forallb isQuiet (pending (finalizeReset c s)) = true.
Proof.
  intros Hs Hi Hq. unfold finalizeReset, assignStreamingHtml, nextTick.
  rewrite (flushToStatic_mounted s [] streaming Hs Hi).
  rewrite orElse_nil. unfold nextTick.
  frame; rewrite ?forallb_app, ?Hq; auto.
Qed.

(** A finalization waiting behind margin stamps only. *)
Lemma drain_then_finalize fuel s q (c : str) (shown : list node) :
  pending s = q ++ [TFinalizeReset c] ->
  Forall (eq TApplyMarginStreaming) q ->
  staticContainer s = Some [] ->
  streamingContainer s = Some shown ->
  length q < fuel ->
  staticContainer (drain parseHtml fuel s) = Some shown
  /\ prevContent (drain parseHtml fuel s) = c
  /\ tailMarkdown (drain parseHtml fuel s) = []
  /\ lastCompleteBlockCount (drain parseHtml fuel s) = 0.
Proof.
  revert fuel s. induction q as [|t q IH]; intros fuel s Hp Hq Hs Hi Hfuel.
  - destruct fuel as [|fuel]; [simpl in Hfuel; lia|].
    rewrite (drain_step fuel _ _ s Hp). cbn [runTask].
    destruct (finalizeReset_effect c (set_pending [] s) shown)
      as (Hfs & Hfp & Hft & Hfc & Hfq); auto.
    destruct (drain_quiet fuel _ Hfq) as (-> & -> & -> & ->). auto.
  - destruct fuel as [|fuel]; [simpl in Hfuel; lia|].
    inversion Hq as [|? ? <- Hq']; subst.
    rewrite (drain_step fuel _ _ s Hp). cbn [runTask].
    apply IH; auto. simpl in Hfuel. lia.
Qed.

(** The completing update on a non-empty snapshot. *)
Lemma update_complete (c : str) s (static streaming : list node) :
  pending s = [] ->
  boundHtml s = streamingHtml s ->
  staticContainer s = Some static ->
  streamingContainer s = Some streaming ->
  truthy (prevContent s) = true ->
  staticContainer (update parseHtml render c true s)
  = Some (if str_eqb (lastRenderKey s) (render c) then streaming
          else if str_eqb (render c) (streamingHtml s) then streaming
               else parseHtml (render c))
  /\ prevContent (update parseHtml render c true s) = c
  /\ tailMarkdown (update parseHtml render c true s) = []
  /\ lastCompleteBlockCount (update parseHtml render c true s) = 0.
Proof.
  intros Hp Hb Hs Hi Hprev.
  set (s0 := if negb (truthy c) || (length c <? length (prevContent s))
             then set_hasEmittedStart false s else s).
  assert (H0 : pending s0 = [] /\ boundHtml s0 = streamingHtml s
               /\ streamingHtml s0 = streamingHtml s
               /\ staticContainer s0 = Some static
               /\ streamingContainer s0 = Some streaming
               /\ prevContent s0 = prevContent s
               /\ lastRenderKey s0 = lastRenderKey s).
  { subst s0. destruct (_ || _); simpl; auto 10. }
  destruct H0 as (Hp0 & Hb0 & Hv0 & Hs0 & Hi0 & Hprev0 & Hkey0).
  unfold update.
  set (s2 := vueRender parseHtml (watchCallback render c true s)).
  assert (H2 : exists q,
    pending s2 = q ++ [TFinalizeReset c]
    /\ Forall (eq TApplyMarginStreaming) q
    /\ staticContainer s2 = Some []
    /\ streamingContainer s2
       = Some (if str_eqb (lastRenderKey s) (render c) then streaming
               else if str_eqb (render c) (streamingHtml s) then streaming
                    else parseHtml (render c))).
  { subst s2. unfold watchCallback. rewrite orElse_nil. fold s0.
    rewrite processContentNow_complete by congruence.
    rewrite (finalizeAll_mounted c s0 static Hs0).
    unfold vueRender, setStreamingHtml, emit, nextTick.
    rewrite orElse_nil.
    cbn [lastRenderKey set_staticBlockCount set_staticContainer].
    rewrite Hkey0.
    destruct (str_eqb (lastRenderKey s) (render c)) eqn:Hkey;
      cbn; rewrite ?Hb0, ?Hv0, ?Hp0, ?Hi0.
    - rewrite str_eqb_refl. cbn. rewrite ?Hp0, ?Hi0.
      exists []. auto.
    - destruct (str_eqb (render c) (streamingHtml s)) eqn:Hval;
        cbn; rewrite ?Hp0, ?Hi0; cbn;
        exists [TApplyMarginStreaming]; auto. }
  destruct H2 as (q & Hq & Hmargins & Hs2 & Hi2).
  apply (drain_then_finalize _ s2 q c _ Hq Hmargins Hs2 Hi2).
  rewrite Hq, queueWeight_app. simpl.
  assert (length q <= queueWeight q); [|lia].
  clear. induction q as [|t q IH]; simpl; [lia|].
  destruct t; simpl; lia.
Qed.

(** *** Quiescent states *)

Lemma vueRender_dom s :
  domConsistent parseHtml s -> domConsistent parseHtml (vueRender parseHtml s).
Proof.
  unfold domConsistent, vueRender. intros [H|H]; rewrite H;
    destruct (str_eqb _ _); simpl; auto.
Qed.

Lemma flushToStatic_dom s :
  domConsistent parseHtml s -> domConsistent parseHtml (flushToStatic s).
Proof.
  intros Hd.
  destruct (staticContainer s) as [static|] eqn:Hs.
  - destruct (streamingContainer s) as [streaming|] eqn:Hi.
    + rewrite (flushToStatic_mounted s static streaming Hs Hi). now left.
    + unfold flushToStatic. now rewrite Hs, Hi.
  - unfold flushToStatic. now rewrite Hs.
Qed.

Lemma runTask_dom t s :
  domConsistent parseHtml s -> domConsistent parseHtml (runTask parseHtml t s).
Proof.
  intros Hd. destruct t; cbn [runTask]; auto.
  - now apply vueRender_dom.
  - now apply flushToStatic_dom.
  - apply flushToStatic_dom in Hd.
    destruct (flushToStatic_frame s) as (_&_&_&_&_&_&_& Hb).
    unfold finalizeReset, assignStreamingHtml, nextTick, domConsistent in *.
    set (s1 := flushToStatic s) in *. frame; auto.
Qed.

Lemma drain_dom fuel s :
  domConsistent parseHtml s -> domConsistent parseHtml (drain parseHtml fuel s).
Proof.
  apply (drain_invariant (fun s' => domConsistent parseHtml s')).
  intros t q s' _ Hd. apply runTask_dom.
  unfold domConsistent in *. exact Hd.
Qed.

Lemma update_quiescent (c : str) (b : bool) s :
  quiescent parseHtml s ->
  quiescent parseHtml (update parseHtml render c b s)
  /\ prevContent (update parseHtml render c b s) = c.
Proof.
  intros (Hp & Hb & Hm & Hd).
  destruct (watchCallback_containers c b s) as (Hi1 & Hb1 & Hs1).
  split; [split; [|split; [|split]]|].
  - apply update_pending.
  - unfold update. apply drain_binding; [apply vueRender_bound|].
    now apply drain_pending.
  - unfold update. apply drain_mounted, vueRender_mounted.
    destruct Hm as [Hs Hi]. split; [auto|congruence].
  - unfold update. apply drain_dom, vueRender_dom.
    unfold domConsistent in *. now rewrite Hi1, Hb1.
  - destruct b; [destruct (truthy (prevContent s)) eqn:Hprev|].
    + destruct Hm as [Hs Hi].
      destruct (staticContainer s) as [static|] eqn:Es; [|congruence].
      destruct (streamingContainer s) as [streaming|] eqn:Ei; [|congruence].
      apply (update_complete c s static streaming); auto.
    + apply update_stream_frame; auto. now rewrite Hp.
    + apply update_stream_frame; auto. now rewrite Hp.
Qed.

Lemma init_quiescent : quiescent parseHtml (@init node).
Proof.
  split; [|split; [|split; [split|]]]; try reflexivity; try discriminate.
  now left.
Qed.

Lemma run_cons (u : str * bool) (us : list (str * bool)) s :
  run parseHtml render (u :: us) s
  = run parseHtml render us (update parseHtml render (fst u) (snd u) s).
Proof. reflexivity. Qed.

Lemma run_app (us1 us2 : list (str * bool)) s :
  run parseHtml render (us1 ++ us2) s
  = run parseHtml render us2 (run parseHtml render us1 s).
Proof. unfold run. apply fold_left_app. Qed.

Lemma lastContent_cons (u v : str * bool) (us : list (str * bool)) :
  lastContent (u :: v :: us) = lastContent (v :: us).
Proof. reflexivity. Qed.

Lemma run_quiescent (us : list (str * bool)) s :
  quiescent parseHtml s ->
  quiescent parseHtml (run parseHtml render us s)
  /\ prevContent (run parseHtml render us s)
     = match us with [] => prevContent s | _ :: _ => lastContent us end.
Proof.
  revert s. induction us as [|u us IH]; intros s Hq; [now split|].
  rewrite run_cons.
  destruct (update_quiescent (fst u) (snd u) s Hq) as [Hq' Hprev].
  destruct (IH _ Hq') as [Hq'' Hprev'']. split; [assumption|].
  rewrite Hprev''. destruct us as [|v us]; [exact Hprev|].
  now rewrite lastContent_cons.
Qed.

Lemma run_init_prev (us : list (str * bool)) :
  prevContent (run parseHtml render us init) = lastContent us.
Proof.
  destruct (run_quiescent us init init_quiescent) as [_ ->].
  now destruct us.
Qed.

(** *** Events *)

Lemma countEvent_app (e : event) (l1 l2 : list event) :
  countEvent e (l1 ++ l2) = countEvent e l1 + countEvent e l2.
Proof. unfold countEvent. now rewrite filter_app, length_app. Qed.

Lemma update_count_complete (c : str) (b : bool) s :
  countEvent EvComplete (emitted (update parseHtml render c b s))
  = countEvent EvComplete (emitted s)
    + (if truthy (prevContent s) && b then 1 else 0).
Proof.
  rewrite update_emitted, watchCallback_emitted, !countEvent_app.
  destruct (negb _ && _), (truthy (prevContent s) && b);
    unfold countEvent; simpl; lia.
Qed.

Lemma update_count_start (c : str) (b : bool) s :
  countEvent EvStart (emitted (update parseHtml render c b s))
  = countEvent EvStart (emitted s)
    + (if negb (truthy (prevContent s))
          && (negb (truthy c) || negb (hasEmittedStart s))
       then 1 else 0).
Proof.
  rewrite update_emitted, watchCallback_emitted, !countEvent_app.
  destruct (negb _ && _), (truthy (prevContent s) && b);
    unfold countEvent; simpl; lia.
Qed.

Lemma run_count_complete_stream (us : list (str * bool)) s :
  Forall (fun u => snd u = false) us ->
  countEvent EvComplete (emitted (run parseHtml render us s))
  = countEvent EvComplete (emitted s).
Proof.
  revert s. induction us as [|u us IH]; intros s Hus; [reflexivity|].
  inversion Hus as [|? ? Hu Hus']; subst.
  rewrite run_cons, IH, update_count_complete, Hu by assumption.
  rewrite andb_false_r. lia.
Qed.

Lemma run_count_start_later (us : list (str * bool)) s :
  quiescent parseHtml s ->
  truthy (prevContent s) = true ->
  Forall (fun u => truthy (fst u) = true) us ->
  countEvent EvStart (emitted (run parseHtml render us s))
  = countEvent EvStart (emitted s).
Proof.
  revert s. induction us as [|u us IH]; intros s Hq Hprev Hus;
    [reflexivity|].
  inversion Hus as [|? ? Hu Hus']; subst.
  destruct (update_quiescent (fst u) (snd u) s Hq) as [Hq' Hprev'].
  rewrite run_cons, IH; auto; [|now rewrite Hprev'].
  rewrite update_count_start, Hprev. simpl. lia.
Qed.

(** C1 (amended).  Let the completing update, with text [text], arrive
    after a sequence of updates that left a non-empty snapshot, and let
    the in-flight region at that moment either already hold the nodes of
    [render text] or be due for a re-render, [render text] being
    different from both the last render key and the HTML now bound to the
    region.  Then the committed region after the update holds exactly the
    nodes of [render text], the single-shot full render. *)
Theorem finalize_commits_full_render
    (updates : list (str * bool)) (text : str) :
  truthy (lastContent updates) = true ->
  streamingContainer (run parseHtml render updates init)
  = Some (parseHtml (render text))
  \/ (render text <> lastRenderKey (run parseHtml render updates init)
      /\ render text <> streamingHtml (run parseHtml render updates init)) ->
  staticContainer
    (update parseHtml render text true (run parseHtml render updates init))
  = Some (parseHtml (render text)).
Proof.
  intros Hlast Hshown.
  destruct (run_quiescent updates init init_quiescent)
    as [(Hp & Hb & [Hs Hi] & _) _].
  pose proof (run_init_prev updates) as Hprev.
  set (s := run parseHtml render updates init) in *.
  destruct (staticContainer s) as [static|] eqn:Es; [|congruence].
  destruct (streamingContainer s) as [streaming|] eqn:Ei; [|congruence].
  destruct (update_complete text s static streaming) as [-> _]; auto;
    [congruence|].
  f_equal.
  destruct (str_eqb (lastRenderKey s) (render text)) eqn:Hkey.
  - apply str_eqb_eq in Hkey.
    destruct Hshown as [H|[H _]]; congruence.
  - destruct (str_eqb (render text) (streamingHtml s)) eqn:Hval;
      [|reflexivity].
    apply str_eqb_eq in Hval.
    destruct Hshown as [H|[_ H]]; congruence.
Qed.

(** C3 (amended).  In a sequence with a single update whose isComplete
    flag is true, the complete event is emitted exactly once when that
    update arrives on a non-empty snapshot, and not at all when it is the
    first content or arrives on an empty snapshot (it is then handled as
    an initial streaming render).  On a non-empty snapshot that update
    runs [finalizeAll] on the final text and then emits complete. *)
Theorem complete_emitted_once
    (before after : list (str * bool)) (text : str) :
  Forall (fun u => snd u = false) before ->
  Forall (fun u => snd u = false) after ->
  countEvent EvComplete
    (emitted (run parseHtml render (before ++ (text, true) :: after) init))
  = (if truthy (lastContent before) then 1 else 0)
  /\ (forall s : state node,
        truthy (prevContent s) = true ->
        processContentNow render text true s
        = emit EvComplete (finalizeAll render text s)).
Proof.
  intros Hbefore Hafter. split.
  - rewrite run_app, run_cons.
    rewrite run_count_complete_stream by assumption.
    rewrite update_count_complete.
    rewrite run_count_complete_stream by assumption.
    rewrite run_init_prev. simpl. now rewrite andb_true_r.
  - intros s Hprev. now apply processContentNow_complete.
Qed.

(** The start flag after the watcher: up on an empty snapshot (start was
    emitted now or before), and on a non-empty one taken down by empty or
    shorter content. *)
Lemma handleNonPrefixReplace_flag (c : str) s :
  hasEmittedStart (handleNonPrefixReplace render c false s)
  = hasEmittedStart s.
Proof. unfold handleNonPrefixReplace, nextTick. frame; reflexivity. Qed.

Lemma processAppendedSuffix_flag (suffix : str) s :
  hasEmittedStart (processAppendedSuffix render suffix s) = hasEmittedStart s.
Proof. unfold processAppendedSuffix, nextTick. frame; reflexivity. Qed.

Lemma finalizeAll_flag (c : str) s :
  hasEmittedStart (finalizeAll render c s) = hasEmittedStart s.
Proof. unfold finalizeAll, nextTick. frame; reflexivity. Qed.

Lemma processContentNow_flag (c : str) (b : bool) s :
  hasEmittedStart (processContentNow render c b s)
  = if truthy (prevContent s) then hasEmittedStart s else true.
Proof.
  unfold processContentNow, emit.
  destruct (truthy (prevContent s)); cbn [negb].
  - destruct b; [cbn [hasEmittedStart set_emitted]; apply finalizeAll_flag|].
    repeat match goal with
           | |- context [if ?x then _ else _] => destruct x
           end;
      cbn [hasEmittedStart set_prevContent];
      rewrite ?processAppendedSuffix_flag, ?handleNonPrefixReplace_flag;
      reflexivity.
  - cbn [hasEmittedStart set_prevContent].
    rewrite handleNonPrefixReplace_flag.
    destruct (hasEmittedStart s) eqn:E; cbn [negb]; [exact E|reflexivity].
Qed.

Lemma watchCallback_flag (c : str) (b : bool) s :
  hasEmittedStart (watchCallback render c b s)
  = if truthy (prevContent s)
    then (if negb (truthy c) || (length c <? length (prevContent s))
          then false else hasEmittedStart s)
    else true.
Proof.
  unfold watchCallback. rewrite processContentNow_flag.
  now destruct (_ || _).
Qed.

Lemma update_flag (c : str) (b : bool) s :
  hasEmittedStart (update parseHtml render c b s)
  = hasEmittedStart (watchCallback render c b s).
Proof.
  unfold update.
  destruct (drain_emitted
              (queueWeight (pending (vueRender parseHtml
                                       (watchCallback render c b s))))
              (vueRender parseHtml (watchCallback render c b s)))
    as [_ ->].
  apply vueRender_frame.
Qed.

(** A session opened by an update with empty content and continued with
    non-empty content gets one start, whatever the state before. *)
Lemma run_count_start_session (b : bool) (rest : list (str * bool)) s :
  quiescent parseHtml s ->
  rest <> [] ->
  Forall (fun u => truthy (fst u) = true) rest ->
  countEvent EvStart
    (emitted (run parseHtml render (([], b) :: rest) s))
  = countEvent EvStart (emitted s) + 1.
Proof.
  intros Hq Hne Hrest. destruct rest as [|u us]; [congruence|].
  inversion Hrest as [|? ? Hu Hus]; subst.
  destruct (update_quiescent [] b s Hq) as [Hq1 Hprev1].
  set (s1 := update parseHtml render [] b s) in *.
  destruct (update_quiescent (fst u) (snd u) s1 Hq1) as [Hq2 Hprev2].
  rewrite !run_cons. cbn [fst snd]. fold s1.
  rewrite run_count_start_later; auto; [|now rewrite Hprev2].
  rewrite update_count_start, Hprev1, Hu. cbn [truthy negb andb orb].
  subst s1. rewrite update_flag, watchCallback_flag, update_count_start.
  cbn [truthy negb orb]. rewrite andb_true_r.
  destruct (truthy (prevContent s)); cbn [negb]; lia.
Qed.

(** C4 (amended).  An update emits start exactly when it arrives on an
    empty snapshot and either carries empty content or finds
    [hasEmittedStart] off, and then emits it once; so an update with empty
    content on an empty snapshot does emit start.  Start is emitted
    exactly once per session: over a non-empty sequence of updates that
    all carry non-empty content it is emitted exactly once, on the first
    update; and a session opened by an update with empty content and
    continued with one or more updates with non-empty content adds exactly
    one start to the log, whatever updates came before. *)
Theorem start_emitted_once :
  (forall (c : str) (b : bool) (s : state node),
      countEvent EvStart (emitted (update parseHtml render c b s))
      = countEvent EvStart (emitted s)
        + (if negb (truthy (prevContent s))
              && (negb (truthy c) || negb (hasEmittedStart s))
           then 1 else 0))
  /\ (forall updates : list (str * bool),
        updates <> [] ->
        Forall (fun u => truthy (fst u) = true) updates ->
        countEvent EvStart (emitted (run parseHtml render updates init)) = 1)
  /\ (forall (before rest : list (str * bool)) (b : bool),
        rest <> [] ->
        Forall (fun u => truthy (fst u) = true) rest ->
        countEvent EvStart
          (emitted (run parseHtml render (before ++ ([], b) :: rest) init))
        = countEvent EvStart (emitted (run parseHtml render before init))
          + 1).
Proof.
  split; [exact update_count_start|]. split.
  - intros updates Hne Hall. destruct updates as [|u us]; [congruence|].
    inversion Hall as [|? ? Hu Hus]; subst.
    destruct (update_quiescent (fst u) (snd u) init init_quiescent)
      as [Hq Hprev].
    rewrite run_cons, run_count_start_later; auto; [|now rewrite Hprev].
    rewrite update_count_start. simpl. now rewrite orb_true_r.
  - intros before rest b Hne Hrest.
    rewrite run_app. apply run_count_start_session; auto.
    apply run_quiescent, init_quiescent.
Qed.

(** When the new content is a non-empty strict prefix of the snapshot,
    the guard of the rewind branch fails. *)
Lemma prefix_guard (prev next : str) :
  truthy next = true ->
  startsWith prev next = true ->
  (Nat.min (length prev) (length next) =? 0)
  || negb (startsWith next
             (substringTo (Nat.min (length prev) (length next)) prev))
  = false.
Proof.
  intros Hnext Hpre. apply startsWith_spec in Hpre as [t ->].
  rewrite length_app, Nat.min_r by lia.
  unfold substringTo. rewrite firstn_app, Nat.sub_diag, firstn_all.
  simpl. rewrite app_nil_r, startsWith_refl.
  destruct next; [discriminate|reflexivity].
Qed.

Lemma watchCallback_stream_count (c : str) s :
  truthy (prevContent s) = true ->
  startsWith c (prevContent s) = true
  \/ (truthy c = true /\ startsWith (prevContent s) c = true) ->
  lastCompleteBlockCount s
  <= lastCompleteBlockCount (watchCallback render c false s).
Proof.
  intros Hprev Hkind. unfold watchCallback, processContentNow.
  rewrite !orElse_nil.
  set (s0 := if negb (truthy c) || (length c <? length (prevContent s))
             then set_hasEmittedStart false s else s).
  assert (H0 : prevContent s0 = prevContent s
               /\ lastCompleteBlockCount s0 = lastCompleteBlockCount s)
    by (subst s0; destruct (_ || _); auto).
  destruct H0 as [Hp0 Hc0]. rewrite Hp0, Hprev. cbn [negb].
  rewrite <- Hc0.
  destruct (startsWith c (prevContent s)) eqn:Hstarts.
  - apply processAppendedSuffix_count.
  - destruct Hkind as [H|[Hc Hpre]]; [discriminate|].
    rewrite (prefix_guard (prevContent s) c Hc Hpre).
    apply processAppendedSuffix_count.
Qed.

(** C5 (amended).  On a non-empty snapshot, an update that does not
    complete the message and whose content starts with the snapshot never
    lowers the committed-block count, so over a sequence of such appends
    the count never decreases from one update to the next; the same holds
    when the content merely cuts the snapshot back to a non-empty prefix.
    A completing update, an append included, resets the count to 0.  So
    the count is reset only on a fresh start, on a rewind or on
    completion. *)
Theorem committed_count_monotone (updates : list (str * bool)) (next : str) :
  truthy (prevContent (run parseHtml render updates init)) = true ->
  (startsWith next (prevContent (run parseHtml render updates init)) = true
   \/ (truthy next = true
       /\ startsWith (prevContent (run parseHtml render updates init)) next
          = true) ->
   lastCompleteBlockCount (run parseHtml render updates init)
   <= lastCompleteBlockCount
        (update parseHtml render next false
           (run parseHtml render updates init)))
  /\ lastCompleteBlockCount
       (update parseHtml render next true
          (run parseHtml render updates init)) = 0.
Proof.
  intros Hprev.
  destruct (run_quiescent updates init init_quiescent)
    as [(Hp & Hb & [Hs Hi] & _) _].
  set (s := run parseHtml render updates init) in *.
  split.
  - intros Hkind.
    destruct (update_stream_frame next false s) as (_ & _ & ->); auto.
    + now rewrite Hp.
    + now apply watchCallback_stream_count.
  - destruct (staticContainer s) as [static|] eqn:Es; [|congruence].
    destruct (streamingContainer s) as [streaming|] eqn:Ei; [|congruence].
    now apply (update_complete next s static streaming).
Qed.

(** *** Rewind *)

(** The guard of the rewind branch holds when the new content is empty
    or is not a prefix of the snapshot. *)
Lemma rewind_guard (prev next : str) :
  truthy prev = true ->
  startsWith next prev = false ->
  next = [] \/ startsWith prev next = false ->
  (Nat.min (length prev) (length next) =? 0)
  || negb (startsWith next
             (substringTo (Nat.min (length prev) (length next)) prev))
  = true.
Proof.
  intros Hprev Hno [->|Hnp].
  - now rewrite Nat.min_0_r.
  - apply orb_true_iff. right. apply negb_true_iff.
    destruct (startsWith next
                (substringTo (Nat.min (length prev) (length next)) prev))
      eqn:E; [exfalso|reflexivity].
    unfold substringTo in E.
    destruct (Nat.le_ge_cases (length prev) (length next)) as [Hle|Hge].
    + rewrite Nat.min_l, firstn_all in E by assumption. congruence.
    + rewrite Nat.min_r in E by assumption.
      apply startsWith_spec in E as [t Et].
      assert (Hlen : length t = 0).
      { apply (f_equal (@length char)) in Et.
        rewrite length_app, length_firstn, Nat.min_l in Et by assumption.
        lia. }
      destruct t; [|discriminate]. rewrite app_nil_r in Et.
      assert (startsWith prev next = true); [|congruence].
      apply startsWith_spec. exists (skipn (length next) prev).
      rewrite Et at 1. symmetry. apply firstn_skipn.
Qed.

Hint Rewrite setStreamingHtml_value : frame.

(** [handleNonPrefixReplace] on a mounted component with no callback
    waiting. *)
Lemma handleNonPrefixReplace_state (c : str) s (static : list node) :
  staticContainer s = Some static ->
  pending s = [] ->
  staticContainer (handleNonPrefixReplace render c false s) = Some []
  /\ streamingContainer (handleNonPrefixReplace render c false s)
     = streamingContainer s
  /\ boundHtml (handleNonPrefixReplace render c false s) = boundHtml s
  /\ forallb isStreamTask
       (pending (handleNonPrefixReplace render c false s)) = true
  /\ (existsb isFlush
        (pending (handleNonPrefixReplace render c false s)) = true ->
      streamingHtml (handleNonPrefixReplace render c false s)
      = renderBlockHtml render (lastBlockOf (splitIntoBlocks c)))
  /\ tailMarkdown (handleNonPrefixReplace render c false s)
     = lastBlockOf (splitIntoBlocks c)
  /\ lastCompleteBlockCount (handleNonPrefixReplace render c false s)
     = length (completeBlocksOf (splitIntoBlocks c)).
Proof.
  intros Hs Hp. unfold handleNonPrefixReplace, nextTick.
  rewrite Hs, !orElse_nil. cbn [negb].
  set (acc := accumulateHtml render (completeBlocksOf (splitIntoBlocks c))).
  set (X := renderBlockHtml render (lastBlockOf (splitIntoBlocks c))).
  destruct (truthy acc) eqn:Hacc; frame; rewrite ?Hp; simpl;
    repeat split; auto; try discriminate; intros _;
    repeat match goal with
           | H : str_eqb _ _ = true |- _ => apply str_eqb_eq in H
           end;
    try congruence.
  all: try match goal with
           | H : [] = ?a, Ha : truthy ?a = true |- _ =>
               rewrite <- H in Ha; discriminate
           end.
  all: assumption.
Qed.

(** Margin stamps and flushes can only append the in-flight nodes to the
    committed region, and do so only if a flush is among them. *)
Lemma drain_stream_static fuel s (a b : list node) :
  forallb isStreamTask (pending s) = true ->
  staticContainer s = Some a ->
  streamingContainer s = Some b ->
  (existsb isFlush (pending s) = false ->
   staticContainer (drain parseHtml fuel s) = Some a)
  /\ (staticContainer (drain parseHtml fuel s) = Some a
      \/ staticContainer (drain parseHtml fuel s) = Some (a ++ b)).
Proof.
  intros Hq Hs Hi.
  assert (H : forallb isStreamTask (pending (drain parseHtml fuel s)) = true
              /\ ((staticContainer (drain parseHtml fuel s) = Some a
                   /\ streamingContainer (drain parseHtml fuel s) = Some b
                   /\ (existsb isFlush (pending s) = false ->
                       existsb isFlush (pending (drain parseHtml fuel s))
                       = false))
                  \/ (staticContainer (drain parseHtml fuel s) = Some (a ++ b)
                      /\ streamingContainer (drain parseHtml fuel s) = Some []
                      /\ existsb isFlush (pending s) = true))).
  { apply (drain_invariant
             (fun s' =>
                forallb isStreamTask (pending s') = true
                /\ ((staticContainer s' = Some a
                     /\ streamingContainer s' = Some b
                     /\ (existsb isFlush (pending s) = false ->
                         existsb isFlush (pending s') = false))
                    \/ (staticContainer s' = Some (a ++ b)
                        /\ streamingContainer s' = Some []
                        /\ existsb isFlush (pending s) = true))));
      [|now auto 10].
    clear Hq Hs Hi. intros t q s' Hp [Hq Hcase]. rewrite Hp in *.
    simpl in Hq. apply andb_true_iff in Hq as [Ht Hq].
    destruct t; try discriminate; cbn [runTask].
    - split; [exact Hq|]. simpl in Hcase. exact Hcase.
    - split; [exact Hq|]. simpl in Hcase. exact Hcase.
    - destruct Hcase as [(Hs & Hi & Hf)|(Hs & Hi & Hf)].
      + rewrite (flushToStatic_mounted (set_pending q s') a b Hs Hi).
        simpl. rewrite forallb_app, Hq. split; [reflexivity|]. right.
        repeat split.
        destruct (existsb isFlush (pending s)); [reflexivity|].
        now specialize (Hf eq_refl).
      + rewrite (flushToStatic_mounted (set_pending q s') (a ++ b) [] Hs Hi).
        simpl. rewrite forallb_app, Hq, app_nil_r. split; [reflexivity|].
        right. now repeat split. }
  destruct H as [_ [(H1 & _ & _)|(H1 & _ & Hf)]].
  - split; auto.
  - split; [|now right]. intros Hno. congruence.
Qed.

Lemma vueRender_streaming s (b : list node) :
  streamingContainer s = Some b ->
  streamingContainer (vueRender parseHtml s)
  = Some (if str_eqb (streamingHtml s) (boundHtml s) then b
          else parseHtml (streamingHtml s)).
Proof.
  intros Hi. unfold vueRender.
  destruct (str_eqb _ _); [assumption|]. now rewrite Hi.
Qed.

Lemma watchCallback_rewind (next : str) s :
  truthy (prevContent s) = true ->
  startsWith next (prevContent s) = false ->
  next = [] \/ startsWith (prevContent s) next = false ->
  watchCallback render next false s
  = handleNonPrefixReplace render next false
      (if negb (truthy next) || (length next <? length (prevContent s))
       then set_hasEmittedStart false s else s).
Proof.
  intros Hprev Hno Hnp. unfold watchCallback, processContentNow.
  rewrite !orElse_nil.
  set (s0 := if negb (truthy next) || (length next <? length (prevContent s))
             then set_hasEmittedStart false s else s).
  assert (Hp0 : prevContent s0 = prevContent s)
    by (subst s0; now destruct (_ || _)).
  rewrite Hp0, Hprev, Hno. cbn [negb].
  now rewrite rewind_guard.
Qed.

Lemma watchCallback_prefix (next : str) s :
  truthy (prevContent s) = true ->
  truthy next = true ->
  startsWith next (prevContent s) = false ->
  startsWith (prevContent s) next = true ->
  watchCallback render next false s
  = set_prevContent next
      (processAppendedSuffix render []
         (if negb (truthy next) || (length next <? length (prevContent s))
          then set_hasEmittedStart false s else s)).
Proof.
  intros Hprev Hnext Hno Hpre. unfold watchCallback, processContentNow.
  rewrite !orElse_nil.
  set (s0 := if negb (truthy next) || (length next <? length (prevContent s))
             then set_hasEmittedStart false s else s).
  assert (Hp0 : prevContent s0 = prevContent s)
    by (subst s0; now destruct (_ || _)).
  rewrite Hp0, Hprev, Hno. cbn [negb].
  now rewrite prefix_guard.
Qed.

(** Cutting the snapshot back to a non-empty prefix keeps the tail
    buffer, the committed-block count and the committed region. *)
Lemma prefix_cut_keeps (next : str) s :
  quiescent parseHtml s ->
  truthy (prevContent s) = true ->
  truthy next = true ->
  startsWith next (prevContent s) = false ->
  startsWith (prevContent s) next = true ->
  tailMarkdown (update parseHtml render next false s) = tailMarkdown s
  /\ lastCompleteBlockCount (update parseHtml render next false s)
     = lastCompleteBlockCount s
  /\ staticContainer (update parseHtml render next false s)
     = staticContainer s.
Proof.
  intros (Hp & Hb & [Hs Hi] & Hd) Hprev Hnext Hno Hpre.
  destruct (update_stream_frame next false s) as (_ & -> & ->);
    auto; [now rewrite Hp|].
  unfold update. rewrite (watchCallback_prefix next s Hprev Hnext Hno Hpre).
  set (s0 := if negb (truthy next) || (length next <? length (prevContent s))
             then set_hasEmittedStart false s else s).
  destruct (staticContainer s) as [static|] eqn:Es; [|congruence].
  destruct (streamingContainer s) as [streaming|] eqn:Ei; [|congruence].
  assert (H0 : staticContainer s0 = Some static /\ pending s0 = []
               /\ streamingContainer s0 = Some streaming
               /\ tailMarkdown s0 = tailMarkdown s
               /\ lastCompleteBlockCount s0 = lastCompleteBlockCount s)
    by (subst s0; destruct (_ || _); auto 10).
  destruct H0 as (Hs0 & Hp0 & Hi0 & Ht0 & Hc0).
  set (s1 := set_prevContent next (processAppendedSuffix render [] s0)).
  assert (H1 : tailMarkdown s1 = tailMarkdown s
               /\ lastCompleteBlockCount s1 = lastCompleteBlockCount s
               /\ staticContainer s1 = Some static
               /\ streamingContainer s1 = Some streaming
               /\ forallb isStreamTask (pending s1) = true
               /\ existsb isFlush (pending s1) = false).
  { subst s1. unfold processAppendedSuffix. cbn [truthy negb orb].
    cbn [tailMarkdown lastCompleteBlockCount staticContainer
         streamingContainer pending set_prevContent].
    autorewrite with frame. rewrite Hp0.
    repeat split; auto. all: now destruct (str_eqb _ _). }
  destruct H1 as (Ht1 & Hc1 & Hs1 & Hi1 & Hq1 & Hf1).
  repeat split; auto.
  destruct (vueRender_frame s1) as (_ & Hp2 & _ & _ & _ & _ & _ & Hs2 & _).
  assert (Hi2 := vueRender_streaming s1 streaming Hi1).
  rewrite Hs1 in Hs2.
  destruct (fun Hq => drain_stream_static
              (queueWeight (pending (vueRender parseHtml s1)))
              (vueRender parseHtml s1) static _ Hq Hs2 Hi2)
    as [Hnoflush _]; [now rewrite Hp2|].
  apply Hnoflush. now rewrite Hp2.
Qed.

(** The watcher on a completing update: the committed region is empty
    when it returns. *)
Lemma watchCallback_complete_static (c : str) s (static : list node) :
  staticContainer s = Some static ->
  truthy (prevContent s) = true ->
  staticContainer (watchCallback render c true s) = Some [].
Proof.
  intros Hs Hprev. unfold watchCallback. rewrite orElse_nil.
  set (s0 := if negb (truthy c) || (length c <? length (prevContent s))
             then set_hasEmittedStart false s else s).
  assert (H0 : staticContainer s0 = Some static
               /\ prevContent s0 = prevContent s)
    by (subst s0; destruct (_ || _); auto).
  destruct H0 as [Hs0 Hp0].
  rewrite processContentNow_complete by now rewrite Hp0.
  rewrite (finalizeAll_mounted c s0 static Hs0).
  cbn [staticContainer emit set_emitted nextTick set_pending].
  now rewrite setStreamingHtml_static.
Qed.

(** C2 (amended).  Let the previous snapshot be non-empty and the next
    content not start with it.  On an update that does not complete the
    message: if the next content is empty or is not a prefix of the
    snapshot (so: whenever it diverges from the snapshot, shorter or not),
    the update is a full reset: the committed region is cleared (it is
    empty when the watcher returns) and tail buffer, committed-block count
    and snapshot are re-derived from the next content alone; if the next
    content is a non-empty strict prefix of the snapshot, nothing is
    reset: tail buffer, committed-block count and committed region stay
    as they were.  On a completing update the reset always happens: the
    committed region is cleared, the tail buffer is discarded, the count
    is 0 and the snapshot is the next content. *)
Theorem rewind_resets (updates : list (str * bool)) (next : str) :
  truthy (prevContent (run parseHtml render updates init)) = true ->
  startsWith next (prevContent (run parseHtml render updates init)) = false ->
  (next = []
   \/ startsWith (prevContent (run parseHtml render updates init)) next
      = false ->
   staticContainer
     (watchCallback render next false (run parseHtml render updates init))
   = Some []
   /\ rederivedFrom next
        (update parseHtml render next false
           (run parseHtml render updates init)))
  /\ (truthy next = true ->
      startsWith (prevContent (run parseHtml render updates init)) next
      = true ->
      tailMarkdown
        (update parseHtml render next false
           (run parseHtml render updates init))
      = tailMarkdown (run parseHtml render updates init)
      /\ lastCompleteBlockCount
           (update parseHtml render next false
              (run parseHtml render updates init))
         = lastCompleteBlockCount (run parseHtml render updates init)
      /\ staticContainer
           (update parseHtml render next false
              (run parseHtml render updates init))
         = staticContainer (run parseHtml render updates init))
  /\ (staticContainer
        (watchCallback render next true (run parseHtml render updates init))
      = Some []
      /\ tailMarkdown
           (update parseHtml render next true
              (run parseHtml render updates init)) = []
      /\ lastCompleteBlockCount
           (update parseHtml render next true
              (run parseHtml render updates init)) = 0
      /\ prevContent
           (update parseHtml render next true
              (run parseHtml render updates init)) = next).
Proof.
  intros Hprev Hno.
  destruct (run_quiescent updates init init_quiescent) as [Hq _].
  set (s := run parseHtml render updates init) in *.
  split; [|split; [intros Hnext Hpre; now apply prefix_cut_keeps|]].
  - intros Hnp. destruct Hq as (Hp & Hb & [Hs Hi] & Hd).
    destruct (update_stream_frame next false s) as (Hprev' & Htail & Hcnt);
      auto; [now rewrite Hp|].
    unfold rederivedFrom. rewrite Hprev', Htail, Hcnt.
    rewrite (watchCallback_rewind next s Hprev Hno Hnp).
    set (s0 := if negb (truthy next) || (length next <? length (prevContent s))
               then set_hasEmittedStart false s else s).
    destruct (staticContainer s) as [static|] eqn:Es; [|congruence].
    assert (H0 : staticContainer s0 = Some static /\ pending s0 = [])
      by (subst s0; destruct (_ || _); auto).
    destruct H0 as (Hs0 & Hp0).
    destruct (handleNonPrefixReplace_state next s0 static Hs0 Hp0)
      as (Hs1 & _ & _ & _ & _ & Ht1 & Hc1).
    repeat split; assumption.
  - destruct Hq as (Hp & Hb & [Hs Hi] & Hd).
    destruct (staticContainer s) as [static|] eqn:Es; [|congruence].
    destruct (streamingContainer s) as [streaming|] eqn:Ei; [|congruence].
    split; [now apply (watchCallback_complete_static next s static)|].
    destruct (update_complete next s static streaming)
      as (_ & Hprev' & Htail & Hcnt); auto.
Qed.

(** *** The first call, before mounting *)

Lemma mountRefs_setStreamingHtml (html : str) s :
  mountRefs (setStreamingHtml html s) = setStreamingHtml html (mountRefs s).
Proof.
  unfold setStreamingHtml.
  change (lastRenderKey (mountRefs s)) with (lastRenderKey s).
  destruct (str_eqb (lastRenderKey s) html); reflexivity.
Qed.

Lemma mountRefs_setters s :
  (forall v, mountRefs (set_prevContent v s) = set_prevContent v (mountRefs s))
  /\ (forall v, mountRefs (set_tailMarkdown v s)
                = set_tailMarkdown v (mountRefs s))
  /\ (forall v, mountRefs (set_lastCompleteBlockCount v s)
                = set_lastCompleteBlockCount v (mountRefs s))
  /\ (forall v, mountRefs (set_lastRenderKey v s)
                = set_lastRenderKey v (mountRefs s))
  /\ (forall v, mountRefs (set_staticBlockCount v s)
                = set_staticBlockCount v (mountRefs s))
  /\ (forall t, mountRefs (nextTick t s) = nextTick t (mountRefs s)).
Proof. repeat split. Qed.

Ltac push_mountRefs :=
  repeat first
    [ rewrite mountRefs_setStreamingHtml
    | rewrite (proj1 (mountRefs_setters _))
    | rewrite (proj1 (proj2 (mountRefs_setters _)))
    | rewrite (proj1 (proj2 (proj2 (mountRefs_setters _))))
    | rewrite (proj1 (proj2 (proj2 (proj2 (mountRefs_setters _)))))
    | rewrite (proj1 (proj2 (proj2 (proj2 (proj2 (mountRefs_setters _))))))
    | rewrite (proj2 (proj2 (proj2 (proj2 (proj2 (mountRefs_setters _)))))) ].

Lemma mountRefs_handleNonPrefixReplace (c : str) s :
  staticContainer s = None ->
  mountRefs (handleNonPrefixReplace render c false s)
  = handleNonPrefixReplace render c false (mountRefs s).
Proof.
  intros Hs. unfold handleNonPrefixReplace. cbv zeta. rewrite Hs.
  assert (Hm : staticContainer (mountRefs s) = Some []) by reflexivity.
  rewrite Hm.
  assert (Hc : set_staticContainer (Some []) (mountRefs s) = mountRefs s)
    by reflexivity.
  rewrite Hc.
  destruct (truthy (accumulateHtml render
                      (completeBlocksOf (splitIntoBlocks (orElse c [])))));
    push_mountRefs; reflexivity.
Qed.

(** The first run of the watcher happens during [setup], before the
    refs are set; mounting afterwards gives the state the watcher would
    have produced on the mounted component, so [init] may stand for
    both. *)
Lemma first_call_before_mount (c : str) (b : bool) :
  mountRefs (watchCallback render c b (@unmounted node))
  = watchCallback render c b init.
Proof.
  unfold watchCallback, processContentNow. rewrite !orElse_nil.
  change (prevContent (@unmounted node)) with (@nil char).
  change (prevContent (@init node)) with (@nil char).
  destruct (negb (truthy c) || (length c <? length (@nil char)));
    cbn [prevContent set_hasEmittedStart unmounted init truthy negb
         set_streamingContainer set_staticContainer hasEmittedStart];
    push_mountRefs;
    rewrite mountRefs_handleNonPrefixReplace by reflexivity;
    reflexivity.
Qed.

End ComponentFacts.

(** ** Concrete runs *)

Module Runs.

Import Samples.

(** Scenario A of the specification: [""], ["# Hi"], ["# Hi\nworld"],
    then completion with the same text. *)
Lemma finalize_commits_full_render_witness :
  truthy (lastContent [([], false); (hi, false); (hiWorld, false)]) = true
  /\ staticContainer
       (update demoParse demoRender hiWorld true
          (run demoParse demoRender
             [([], false); (hi, false); (hiWorld, false)] init))
     = Some (demoParse (demoRender hiWorld)).
Proof.
  split; [reflexivity|].
  apply (finalize_commits_full_render demoParse demoRender
           [([], false); (hi, false); (hiWorld, false)] hiWorld).
  - reflexivity.
  - left. vm_compute. reflexivity.
Defined.

(** C1 as stated fails when the completing update is the first content:
    nothing is finalized and the committed region stays empty, while the
    full render has a node. *)
Lemma finalize_first_update_counterexample :
  staticContainer (run demoParse demoRender [(hi, true)] init) = Some []
  /\ staticContainer (run demoParse demoRender [(hi, true)] init)
     <> Some (demoParse (demoRender hi)).
Proof. split; [vm_compute; reflexivity|vm_compute; discriminate]. Qed.

(** Why the amended C1 asks for an in-flight region that shows the full
    render or is due for a re-render.  After ["a\n\n# b"] the nodes of
    the open block were moved to the committed region; the rewind to
    ["# b"] clears that region and publishes the same HTML again, which
    changes neither the bound value nor the DOM; the completing update
    then finds its full render equal to the last render key, skips the
    re-render and flushes an empty in-flight region. *)
Example finalize_after_stale_key :
  staticContainer
    (run demoParse demoRender
       [([], false); (twoBlocks, false); (lit "# b", false);
        (lit "# b", true)] init)
  = Some []
  /\ demoParse (demoRender (lit "# b")) = [demoRender (lit "# b")].
Proof. split; vm_compute; reflexivity. Qed.

(** Scenario C of the specification: from ["A\nB\nC"] to ["A\nX"]. *)
Lemma rewind_resets_witness :
  truthy (prevContent
            (run demoParse demoRender
               [(join_nl [lit "A"; lit "B"; lit "C"], false)] init)) = true
  /\ staticContainer
       (watchCallback demoRender (join_nl [lit "A"; lit "X"]) false
          (run demoParse demoRender
             [(join_nl [lit "A"; lit "B"; lit "C"], false)] init))
     = Some []
  /\ rederivedFrom (join_nl [lit "A"; lit "X"])
       (update demoParse demoRender (join_nl [lit "A"; lit "X"]) false
          (run demoParse demoRender
             [(join_nl [lit "A"; lit "B"; lit "C"], false)] init)).
Proof.
  assert (H1 : truthy (prevContent
                         (run demoParse demoRender
                            [(join_nl [lit "A"; lit "B"; lit "C"], false)]
                            init)) = true)
    by (vm_compute; reflexivity).
  assert (H2 : startsWith (join_nl [lit "A"; lit "X"])
                 (prevContent
                    (run demoParse demoRender
                       [(join_nl [lit "A"; lit "B"; lit "C"], false)] init))
               = false)
    by (vm_compute; reflexivity).
  split; [exact H1|].
  destruct (rewind_resets demoParse demoRender
              [(join_nl [lit "A"; lit "B"; lit "C"], false)]
              (join_nl [lit "A"; lit "X"]) H1 H2) as (Hreset & _ & _).
  apply Hreset. right. vm_compute. reflexivity.
Defined.

(** C2 as stated fails when the next content is a non-empty strict prefix
    of the snapshot: the tail buffer is kept and the committed region is
    not cleared. *)
Lemma rewind_prefix_counterexample :
  length twoBlocksCut
  < length (prevContent
              (run demoParse demoRender
                 [([], false); (twoBlocks, false)] init))
  /\ startsWith
       (prevContent
          (run demoParse demoRender [([], false); (twoBlocks, false)] init))
       twoBlocksCut = true
  /\ tailMarkdown
       (update demoParse demoRender twoBlocksCut false
          (run demoParse demoRender [([], false); (twoBlocks, false)] init))
     = lit "# b"
  /\ staticContainer
       (update demoParse demoRender twoBlocksCut false
          (run demoParse demoRender [([], false); (twoBlocks, false)] init))
     = Some [demoRender (lit "# b")]
  /\ ~ rederivedFrom twoBlocksCut
         (update demoParse demoRender twoBlocksCut false
            (run demoParse demoRender
               [([], false); (twoBlocks, false)] init)).
Proof.
  split; [vm_compute; lia|].
  split; [vm_compute; reflexivity|].
  split; [vm_compute; reflexivity|].
  split; [vm_compute; reflexivity|].
  intros (Htail & _). vm_compute in Htail. discriminate.
Qed.

(** Completion after [""] and ["# Hi"]: one complete event. *)
Lemma complete_emitted_once_witness :
  Forall (fun u : str * bool => snd u = false) [([], false); (hi, false)]
  /\ countEvent EvComplete
       (emitted
          (run demoParse demoRender
             ([([], false); (hi, false)] ++ (hi, true) :: []) init))
     = 1.
Proof.
  assert (H : Forall (fun u : str * bool => snd u = false)
                [([], false); (hi, false)])
    by (repeat constructor).
  split; [exact H|].
  exact (proj1 (complete_emitted_once demoParse demoRender
                  [([], false); (hi, false)] [] hi H (Forall_nil _))).
Defined.

(** C3 as stated fails when the completing update is the very first
    content: no complete event is emitted. *)
Lemma complete_first_update_counterexample :
  countEvent EvComplete
    (emitted (run demoParse demoRender [(hi, true)] init)) = 0.
Proof. vm_compute. reflexivity. Qed.

(** Two updates with non-empty content: one start event.  Scenario A of
    the specification, which opens with [""]: one start event too. *)
Lemma start_emitted_once_witness :
  countEvent EvStart
    (emitted (run demoParse demoRender [(hi, false); (hiWorld, false)] init))
  = 1
  /\ countEvent EvStart
       (emitted
          (run demoParse demoRender
             ([] ++ ([], false) :: [(hi, false); (hiWorld, false)]) init))
     = countEvent EvStart (emitted (run demoParse demoRender [] init)) + 1.
Proof.
  destruct (start_emitted_once demoParse demoRender)
    as (_ & Honce & Hsession).
  split.
  - apply (Honce [(hi, false); (hiWorld, false)]).
    + discriminate.
    + repeat constructor.
  - apply (Hsession [] [(hi, false); (hiWorld, false)] false).
    + discriminate.
    + repeat constructor.
Defined.

(** C4 as stated fails: the update with empty content that the watcher
    delivers first does emit start. *)
Lemma start_on_empty_counterexample :
  emitted (update demoParse demoRender [] false init) = [EvStart].
Proof. vm_compute. reflexivity. Qed.

(** From ["a"] to ["a\n\n# b"]: the count goes from 0 to 1; had the
    update been a completing one, the count would be 0. *)
Lemma committed_count_monotone_witness :
  truthy (prevContent (run demoParse demoRender [(lit "a", false)] init))
  = true
  /\ startsWith twoBlocks
       (prevContent (run demoParse demoRender [(lit "a", false)] init)) = true
  /\ lastCompleteBlockCount (run demoParse demoRender [(lit "a", false)] init)
     <= lastCompleteBlockCount
          (update demoParse demoRender twoBlocks false
             (run demoParse demoRender [(lit "a", false)] init))
  /\ lastCompleteBlockCount
       (update demoParse demoRender twoBlocks true
          (run demoParse demoRender [(lit "a", false)] init)) = 0.
Proof.
  assert (H1 : truthy (prevContent
                         (run demoParse demoRender [(lit "a", false)] init))
               = true)
    by (vm_compute; reflexivity).
  assert (H2 : startsWith twoBlocks
                 (prevContent
                    (run demoParse demoRender [(lit "a", false)] init))
               = true)
    by (vm_compute; reflexivity).
  destruct (committed_count_monotone demoParse demoRender
              [(lit "a", false)] twoBlocks H1) as [Hmono Hzero].
  split; [exact H1|]. split; [exact H2|].
  split; [exact (Hmono (or_introl H2))|exact Hzero].
Defined.

(** C5 as stated fails on a completing append: after ["a"] and
    ["a\n\n# b"] the count is 1; the completing update with
    ["a\n\n# b\n\n# c"], which starts with the snapshot, takes it
    to 0. *)
Lemma committed_count_completion_counterexample :
  startsWith (twoBlocks ++ nl :: nl :: lit "# c")
    (prevContent
       (run demoParse demoRender
          [(lit "a", false); (twoBlocks, false)] init)) = true
  /\ lastCompleteBlockCount
       (run demoParse demoRender
          [(lit "a", false); (twoBlocks, false)] init) = 1
  /\ lastCompleteBlockCount
       (update demoParse demoRender (twoBlocks ++ nl :: nl :: lit "# c") true
          (run demoParse demoRender
             [(lit "a", false); (twoBlocks, false)] init)) = 0
  /\ ~ lastCompleteBlockCount
         (run demoParse demoRender
            [(lit "a", false); (twoBlocks, false)] init)
       <= lastCompleteBlockCount
            (update demoParse demoRender
               (twoBlocks ++ nl :: nl :: lit "# c") true
               (run demoParse demoRender
                  [(lit "a", false); (twoBlocks, false)] init)).
Proof.
  split; [vm_compute; reflexivity|].
  split; [vm_compute; reflexivity|].
  split; [vm_compute; reflexivity|].
  vm_compute. lia.
Qed.

(** A fenced block with a blank line inside, between two paragraphs. *)
Lemma fence_integrity_witness :
  split_nl fenced
  = [lit "a"] ++ lit "```js" :: [lit "x"; []; lit "y"] ++ [lit "```"; lit "z"]
  /\ splitIntoBlocks fenced
     = [lit "a"; join_nl [lit "```js"; lit "x"; []; lit "y"; lit "```"];
        lit "z"]
  /\ exists later,
       splitIntoBlocks fenced
       = [lit "a"]
         ++ join_nl (lit "```js" :: [lit "x"; []; lit "y"] ++ [lit "```"])
            :: later.
Proof.
  split; [vm_compute; reflexivity|]. split; [vm_compute; reflexivity|].
  destruct (SplitterFacts.fence_integrity fenced
              [lit "a"] [lit "x"; []; lit "y"] [lit "```"; lit "z"]
              (lit "```js") backticks)
    as (_ & _ & _ & _ & Hclose).
  - vm_compute. reflexivity.
  - vm_compute. reflexivity.
  - vm_compute. reflexivity.
  - repeat constructor.
  - apply (Hclose (lit "```") [lit "z"]); reflexivity.
Defined.

(** One committed node, two in flight; and the empty in-flight region of
    [init]. *)
Lemma flushToStatic_append_only_witness :
  staticContainer (flushToStatic flushDemo)
  = Some ([lit "<p>a</p>"] ++ [lit "<p>b</p>"; lit "<p>c</p>"])
  /\ staticContainer (flushToStatic (flushToStatic flushDemo))
     = staticContainer (flushToStatic flushDemo)
  /\ staticContainer (flushToStatic (@init str)) = staticContainer (@init str).
Proof.
  destruct (flushToStatic_append_only flushDemo) as (_ & Happ & Hidem & _).
  destruct (flushToStatic_append_only (@init str)) as (Hnoop & _).
  split; [|split].
  - apply (Happ [lit "<p>a</p>"] [lit "<p>b</p>"; lit "<p>c</p>"]);
      reflexivity.
  - exact Hidem.
  - apply Hnoop. right. right. reflexivity.
Defined.

(** A block of two spaces between two paragraphs. *)
Lemma blank_block_renders_nothing_witness :
  forallb is_space (lit "  ") = true
  /\ renderBlockHtml demoRender (lit "  ") = []
  /\ accumulateHtml demoRender [lit "a"; lit "  "; lit "b"]
     = accumulateHtml demoRender [lit "a"; lit "b"].
Proof.
  assert (H : forallb is_space (lit "  ") = true) by reflexivity.
  destruct (blank_block_renders_nothing demoRender (lit "  ") (or_intror H))
    as [Hnone Hskip].
  split; [exact H|]. split; [apply Hnone|].
  apply (Hskip [lit "a"] [lit "b"]).
Defined.

End Runs.
(** ** More on the block splitter *)

Module SplitterMore.

Import SplitterFacts.

Lemma split_nl_app (l r : str) :
  existsb (N.eqb nl) l = false ->
  split_nl (l ++ nl :: r) = l :: split_nl r.
Proof.
  induction l as [|c l IH]; intros Hl.
  - reflexivity.
  - cbn [existsb] in Hl. apply orb_false_iff in Hl as [Hc Hl].
    cbn [app split_nl]. rewrite N.eqb_sym, Hc, IH by assumption.
    reflexivity.
Qed.

Lemma split_nl_line (l : str) :
  existsb (N.eqb nl) l = false -> split_nl l = [l].
Proof.
  induction l as [|c l IH]; intros Hl; [reflexivity|].
  cbn [existsb] in Hl. apply orb_false_iff in Hl as [Hc Hl].
  cbn [split_nl]. rewrite N.eqb_sym, Hc, IH by assumption. reflexivity.
Qed.

Lemma split_join_nl (ls : list str) :
  ls <> [] ->
  Forall (fun l => existsb (N.eqb nl) l = false) ls ->
  split_nl (join_nl ls) = ls.
Proof.
  induction ls as [|l ls IH]; [congruence|]. intros _ Hls.
  inversion Hls as [|? ? Hl Hls']; subst.
  destruct ls as [|l' ls].
  - now apply split_nl_line.
  - change (join_nl (l :: l' :: ls)) with (l ++ nl :: join_nl (l' :: ls)).
    rewrite split_nl_app by assumption. f_equal.
    apply IH; [discriminate|assumption].
Qed.

Lemma trim_nil_inv (l : str) : truthy (trim l) = true -> truthy l = true.
Proof. now destruct l. Qed.

Lemma find_reaches_last (p : str -> bool) (ls : list str) :
  ls <> [] -> p (last ls []) = true -> exists x, find p ls = Some x.
Proof.
  induction ls as [|l ls IH]; [congruence|]. intros _ Hlast.
  simpl. destruct (p l) eqn:Hp; [eauto|].
  destruct ls as [|l' ls]; [simpl in Hlast; congruence|].
  apply IH; [discriminate|exact Hlast].
Qed.

(** A line that is neither blank nor a fence line goes to the current
    block. *)
Lemma step_plain_line (line : str) (rest : list str) (st : splitState) :
  inCodeFence st = false ->
  fenceMatch (trim line) = None ->
  truthy (trim line) = true ->
  splitStep line rest st = pushLine line st.
Proof.
  intros Hout Hf Ht. unfold splitStep. now rewrite Hf, Hout, Ht.
Qed.

(** Outside a fence, lines that do not open a fence and are no block
    starters all end up in the current block, blank ones included, as
    long as a non-blank line is still to come. *)
Lemma plain_lines_appended (lines : list str) (st : splitState) :
  inCodeFence st = false ->
  currentBlock st <> [] ->
  Forall (fun l => fenceMatch (trim l) = None) lines ->
  Forall (fun l => blockStarters l = false) lines ->
  (lines <> [] -> truthy (trim (last lines [])) = true) ->
  splitLoop lines st =
  {| blocks := blocks st;
     currentBlock := currentBlock st ++ lines;
     inCodeFence := false;
     fenceChar := fenceChar st |}.
Proof.
  revert st. induction lines as [|l ls IH]; intros st Hout Hcur Hf Hs Hlast.
  - simpl. rewrite app_nil_r. destruct st; simpl in *. now subst.
  - inversion Hf as [|? ? Hfl Hf']; inversion Hs as [|? ? Hsl Hs']; subst.
    assert (Hstep : splitStep l ls st = pushLine l st).
    { destruct (truthy (trim l)) eqn:Ht;
        [now apply step_plain_line|].
      unfold splitStep. rewrite Hfl, Hout, Ht.
      destruct (currentBlock st) eqn:Ec; [congruence|]. simpl.
      destruct ls as [|l' ls'].
      - specialize (Hlast ltac:(discriminate)). simpl in Hlast. congruence.
      - destruct (find_reaches_last (fun x => truthy (trim x)) (l' :: ls'))
          as [nxt Hfind]; [discriminate|now apply Hlast|].
        rewrite Hfind. apply find_some in Hfind as [Hin Hnb].
        rewrite (trim_nil_inv nxt Hnb).
        rewrite Forall_forall in Hs'. now rewrite (Hs' nxt Hin). }
    cbn [splitLoop]. rewrite Hstep, IH; auto.
    + simpl. now rewrite <- app_assoc.
    + simpl. now destruct (currentBlock st).
    + intros Hne. destruct ls; [congruence|]. now apply Hlast.
Qed.

Lemma first_line_pushed (line : str) (rest : list str) :
  fenceMatch (trim line) = None ->
  splitStep line rest splitInit = pushLine line splitInit.
Proof.
  intros Hf. unfold splitStep. rewrite Hf. simpl.
  now rewrite andb_false_r.
Qed.

(** X1.  A text with no fence line, whose lines after the first are no
    block starters and whose last line is not blank, is a single block,
    the text itself: blank lines between its paragraphs do not split
    it. *)
Theorem plain_text_single_block (markdown : str) :
  Forall (fun l => fenceMatch (trim l) = None) (split_nl markdown) ->
  Forall (fun l => blockStarters l = false) (tl (split_nl markdown)) ->
  truthy (trim (last (split_nl markdown) [])) = true ->
  splitIntoBlocks markdown = [markdown].
Proof.
  intros Hf Hs Hlast.
  assert (Htruthy : truthy markdown = true).
  { destruct markdown; [discriminate Hlast|reflexivity]. }
  pose proof (join_split_nl markdown) as Hjoin.
  destruct (split_nl markdown) as [|l0 ls] eqn:E;
    [now destruct (split_nl_nonempty markdown)|].
  apply Forall_cons_iff in Hf as [Hf0 Hf']. simpl in Hs.
  assert (Hloop : splitLoop (split_nl markdown) splitInit =
                  {| blocks := []; currentBlock := l0 :: ls;
                     inCodeFence := false; fenceChar := [] |}).
  { rewrite E. cbn [splitLoop]. rewrite first_line_pushed by assumption.
    rewrite plain_lines_appended; auto; try discriminate.
    intros Hne. destruct ls; [congruence|]. exact Hlast. }
  rewrite (splitIntoBlocks_loop markdown _ Htruthy Hloop); simpl;
    [|discriminate].
  now rewrite Hjoin.
Qed.

(** Blocks already pushed are never read again: the loop run with some
    blocks pushed beforehand pushes the same blocks after them. *)
Lemma splitStep_blocks_prefix (pre : list str) (line : str)
    (rest : list str) (st : splitState) :
  splitStep line rest
    {| blocks := pre ++ blocks st; currentBlock := currentBlock st;
       inCodeFence := inCodeFence st; fenceChar := fenceChar st |}
  = {| blocks := pre ++ blocks (splitStep line rest st);
       currentBlock := currentBlock (splitStep line rest st);
       inCodeFence := inCodeFence (splitStep line rest st);
       fenceChar := fenceChar (splitStep line rest st) |}.
Proof.
  unfold splitStep, closeBlock, pushLine. simpl.
  repeat match goal with
         | |- context [match ?x with _ => _ end] => destruct x; simpl
         end;
    rewrite <- ?app_assoc; reflexivity.
Qed.

Lemma splitLoop_blocks_prefix (pre lines : list str) (st : splitState) :
  splitLoop lines
    {| blocks := pre ++ blocks st; currentBlock := currentBlock st;
       inCodeFence := inCodeFence st; fenceChar := fenceChar st |}
  = {| blocks := pre ++ blocks (splitLoop lines st);
       currentBlock := currentBlock (splitLoop lines st);
       inCodeFence := inCodeFence (splitLoop lines st);
       fenceChar := fenceChar (splitLoop lines st) |}.
Proof.
  revert st. induction lines as [|l ls IH]; intros st; [reflexivity|].
  cbn [splitLoop]. rewrite splitStep_blocks_prefix. apply IH.
Qed.

(** From the start, the loop always leaves a block: pushed or current. *)
Lemma split_result_nonempty (lines : list str) :
  lines <> [] ->
  Forall (fun l => existsb (N.eqb nl) l = false) lines ->
  blocks (splitLoop lines splitInit)
  ++ (if nonEmpty (currentBlock (splitLoop lines splitInit))
      then [join_nl (currentBlock (splitLoop lines splitInit))] else [])
  <> [].
Proof.
  intros Hne Hl.
  assert (Hinv : TileInv ([] ++ lines) (splitLoop lines splitInit)).
  { apply TileInv_loop; [assumption|].
    split; [discriminate|]. simpl. now left. }
  destruct Hinv as [_ Hinv]. simpl in Hinv.
  destruct (currentBlock (splitLoop lines splitInit)); simpl.
  - destruct Hinv as [[Hd _]|(_ & Hb & _)]; [congruence|].
    now rewrite app_nil_r.
  - now destruct (blocks (splitLoop lines splitInit)).
Qed.

Lemma plain_para_loop (para : list str) (after : list str) :
  Forall (fun l => truthy (trim l) = true /\ fenceMatch (trim l) = None)
    para ->
  splitUpto para after splitInit =
  {| blocks := []; currentBlock := para;
     inCodeFence := false; fenceChar := [] |}.
Proof.
  intros Hpara.
  assert (H : forall st,
    inCodeFence st = false ->
    splitUpto para after st =
    {| blocks := blocks st; currentBlock := currentBlock st ++ para;
       inCodeFence := false; fenceChar := fenceChar st |}).
  { induction para as [|l ls IH]; intros st Hout.
    - simpl. rewrite app_nil_r. destruct st; simpl in *. now subst.
    - inversion Hpara as [|? ? [Ht Hf] Hpara']; subst. cbn [splitUpto].
      rewrite step_plain_line by assumption.
      rewrite IH by assumption. simpl. now rewrite <- app_assoc. }
  now rewrite H.
Qed.

Lemma splitLoop_cons (line : str) (rest : list str) (st : splitState) :
  splitLoop (line :: rest) st = splitLoop rest (splitStep line rest st).
Proof. reflexivity. Qed.

(** A blank line after a non-empty block, with a non-blank block starter
    as the next non-blank line, closes the block and is dropped. *)
Lemma step_blank_boundary (blank starter : str) (rest : list str)
    (st : splitState) :
  inCodeFence st = false ->
  currentBlock st <> [] ->
  truthy (trim blank) = false ->
  truthy (trim starter) = true ->
  blockStarters starter = true ->
  splitStep blank (starter :: rest) st = closeBlock st.
Proof.
  intros Hout Hcur Hblank Hnb Hstarter. unfold splitStep.
  pose proof (proj1 (truthy_false _) Hblank) as Hnil. rewrite Hnil.
  replace (fenceMatch []) with (@None str) by reflexivity.
  rewrite Hout. cbn [truthy negb andb].
  destruct (currentBlock st) eqn:Ec; [congruence|]. cbn [nonEmpty find].
  now rewrite Hnb, Hstarter, orb_true_r.
Qed.

(** X2.  A confirmed boundary splits the work: when a paragraph (lines
    that are neither blank nor fence lines) is followed by a blank line
    and then by a non-blank block starter, the paragraph is the first
    block and the remaining blocks are those of the text that begins at
    the starter. *)
Theorem boundary_before_starter
    (markdown : str) (para rest : list str) (blank starter : str) :
  split_nl markdown = para ++ blank :: starter :: rest ->
  para <> [] ->
  Forall (fun l => truthy (trim l) = true /\ fenceMatch (trim l) = None)
    para ->
  truthy (trim blank) = false ->
  truthy (trim starter) = true ->
  blockStarters starter = true ->
  splitIntoBlocks markdown
  = join_nl para :: splitIntoBlocks (join_nl (starter :: rest)).
Proof.
  intros Hlines Hne Hpara Hblank Hnb Hstarter.
  assert (Htruthy : truthy markdown = true).
  { destruct markdown; [|reflexivity]. simpl in Hlines.
    destruct para as [|p para]; [congruence|].
    injection Hlines as _ Hnil. now destruct para. }
  assert (Hnl : Forall (fun l => existsb (N.eqb nl) l = false)
                  (starter :: rest)).
  { pose proof (split_nl_lines markdown) as H. rewrite Hlines in H.
    apply Forall_app in H as [_ H]. now inversion H. }
  assert (Hlines' : split_nl (join_nl (starter :: rest)) = starter :: rest)
    by (apply split_join_nl; [discriminate|assumption]).
  assert (Htruthy' : truthy (join_nl (starter :: rest)) = true).
  { apply trim_nil_inv in Hnb. destruct starter; [discriminate|].
    unfold join_nl. now destruct rest. }
  remember (splitLoop (starter :: rest) splitInit) as st eqn:Est.
  assert (Hloop : splitLoop (split_nl markdown) splitInit =
                  {| blocks := [join_nl para] ++ blocks st;
                     currentBlock := currentBlock st;
                     inCodeFence := inCodeFence st;
                     fenceChar := fenceChar st |}).
  { rewrite Hlines, splitLoop_app, plain_para_loop by assumption.
    rewrite splitLoop_cons, step_blank_boundary; auto.
    subst st.
    apply (splitLoop_blocks_prefix [join_nl para]
             (starter :: rest) splitInit). }
  pose proof (split_result_nonempty (starter :: rest)
                ltac:(discriminate) Hnl) as Hne'.
  rewrite <- Est in Hne'.
  rewrite (splitIntoBlocks_loop markdown _ Htruthy Hloop);
    cbn [blocks currentBlock]; [|discriminate].
  rewrite (splitIntoBlocks_loop (join_nl (starter :: rest)) st Htruthy');
    [now rewrite <- app_assoc|now rewrite Hlines', Est|assumption].
Qed.

(** X3.  A boundary confirmed by the end of the input can be revoked by
    what arrives next: after a non-blank line [a] and an empty line the
    split is [[a; ""]], so [a] counts as complete; once a further line
    [b] that is no block starter is appended, the whole text is one
    block again. *)
Theorem trailing_boundary_revoked (a b : str) :
  existsb (N.eqb nl) a = false ->
  existsb (N.eqb nl) b = false ->
  truthy (trim a) = true -> fenceMatch (trim a) = None ->
  truthy (trim b) = true -> fenceMatch (trim b) = None ->
  blockStarters b = false ->
  splitIntoBlocks (a ++ [nl; nl]) = [a; []]
  /\ splitIntoBlocks (a ++ nl :: nl :: b) = [a ++ nl :: nl :: b].
Proof.
  intros Hla Hlb Hta Hfa Htb Hfb Hsb.
  assert (Ha : truthy a = true) by now apply trim_nil_inv.
  split.
  - assert (Hlines : split_nl (a ++ [nl; nl]) = [a; []; []]).
    { rewrite split_nl_app by assumption. reflexivity. }
    assert (Hloop : splitLoop (split_nl (a ++ [nl; nl])) splitInit =
                    {| blocks := [join_nl [a]]; currentBlock := [[]];
                       inCodeFence := false; fenceChar := [] |}).
    { rewrite Hlines. cbn [splitLoop].
      rewrite (step_plain_line a) by (try reflexivity; assumption). reflexivity. }
    assert (Ht : truthy (a ++ [nl; nl]) = true) by now destruct a.
    rewrite (splitIntoBlocks_loop _ _ Ht Hloop);
      [reflexivity|discriminate].
  - assert (Hlines : split_nl (a ++ nl :: nl :: b) = [a; []; b]).
    { rewrite split_nl_app by assumption.
      change (nl :: b) with ([] ++ nl :: b).
      rewrite split_nl_app by reflexivity.
      now rewrite split_nl_line. }
    assert (Hloop : splitLoop (split_nl (a ++ nl :: nl :: b)) splitInit =
                    {| blocks := []; currentBlock := [a; []; b];
                       inCodeFence := false; fenceChar := [] |}).
    { rewrite Hlines, splitLoop_cons.
      rewrite (step_plain_line a) by (try reflexivity; assumption).
      rewrite plain_lines_appended; auto; discriminate. }
    assert (Ht : truthy (a ++ nl :: nl :: b) = true) by now destruct a.
    rewrite (splitIntoBlocks_loop _ _ Ht Hloop); [|discriminate].
    reflexivity.
Qed.

End SplitterMore.

(** ** More on the controller *)

Section ComponentMore.

Context {node : Type}.
Variable parseHtml : str -> list node.
Variable render : str -> str.

Implicit Types (s : state node) (q : list task) (t : task).

Local Opaque splitIntoBlocks startsWith trim str_eqb orElse.

(** X4.  Publishing the same HTML twice in a row does nothing the second
    time: no write to the reactive value and no margin pass queued. *)
Theorem setStreamingHtml_idempotent (html : str) s :
  setStreamingHtml html (setStreamingHtml html s) = setStreamingHtml html s.
Proof.
  unfold setStreamingHtml at 1.
  now rewrite setStreamingHtml_key, str_eqb_refl.
Qed.

(** X5.  After any sequence of updates on a mounted component, no
    callback is left waiting, the DOM binding is up to date and the
    snapshot is the content of the last update. *)
Theorem snapshot_tracks_content (updates : list (str * bool)) :
  quiescent parseHtml (run parseHtml render updates init)
  /\ prevContent (run parseHtml render updates init) = lastContent updates.
Proof.
  split.
  - apply run_quiescent, init_quiescent.
  - apply run_init_prev.
Qed.

Lemma startsWith_app (p t : str) : startsWith (p ++ t) p = true.
Proof. apply startsWith_spec. now exists t. Qed.

Lemma sliceFrom_app (p t : str) : sliceFrom (length p) (p ++ t) = t.
Proof.
  unfold sliceFrom. rewrite skipn_app, skipn_all, Nat.sub_diag. reflexivity.
Qed.

Lemma length_app_ltb (p t : str) : (length (p ++ t) <? length p) = false.
Proof. apply Nat.ltb_ge. rewrite length_app. lia. Qed.

(** The watcher on an append: the snapshot is non-empty and the new
    content starts with it. *)
Lemma watchCallback_append (suffix : str) s :
  truthy (prevContent s) = true ->
  watchCallback render (prevContent s ++ suffix) false s
  = set_prevContent (prevContent s ++ suffix)
      (processAppendedSuffix render suffix s).
Proof.
  intros Hprev. unfold watchCallback, processContentNow.
  rewrite !orElse_nil, length_app_ltb.
  assert (Hc : truthy (prevContent s ++ suffix) = true)
    by now destruct (prevContent s).
  rewrite Hc. cbn [negb orb]. rewrite Hprev. cbn [negb].
  now rewrite startsWith_app, sliceFrom_app.
Qed.

(** X6.  An append with a non-empty suffix adds exactly the suffix to the
    tail buffer, and the committed-block count becomes the larger of its
    old value and the number of complete blocks of the new tail. *)
Theorem append_extends_tail (suffix : str) s :
  pending s = [] ->
  truthy (prevContent s) = true ->
  truthy suffix = true ->
  tailMarkdown (update parseHtml render (prevContent s ++ suffix) false s)
  = tailMarkdown s ++ suffix
  /\ lastCompleteBlockCount
       (update parseHtml render (prevContent s ++ suffix) false s)
     = Nat.max (lastCompleteBlockCount s)
         (length (completeBlocksOf
                    (splitIntoBlocks (tailMarkdown s ++ suffix))))
  /\ prevContent (update parseHtml render (prevContent s ++ suffix) false s)
     = prevContent s ++ suffix.
Proof.
  intros Hp Hprev Hsuf.
  destruct (update_stream_frame parseHtml render
              (prevContent s ++ suffix) false s) as (-> & -> & ->);
    auto; [now rewrite Hp|].
  rewrite watchCallback_append by assumption.
  cbn [tailMarkdown lastCompleteBlockCount set_prevContent].
  unfold processAppendedSuffix. rewrite Hsuf.
  assert (Hlen : (length suffix =? 0) = false)
    by (destruct suffix; [discriminate|reflexivity]).
  rewrite Hlen. cbn [negb orb].
  assert (Htail : forall A (f : str -> A),
             f (if truthy (tailMarkdown s) then tailMarkdown s ++ suffix
                else suffix) = f (tailMarkdown s ++ suffix))
    by (intros; now destruct (tailMarkdown s)).
  cbn [tailMarkdown set_tailMarkdown lastCompleteBlockCount].
  rewrite setStreamingHtml_tail, setStreamingHtml_complete.
  rewrite (Htail _ (fun x => length (completeBlocksOf (splitIntoBlocks x)))).
  set (n := length (completeBlocksOf
                      (splitIntoBlocks (tailMarkdown s ++ suffix)))).
  split; [|split; [|reflexivity]].
  - destruct (lastCompleteBlockCount s <? n);
      [match goal with
       | |- context [truthy (accumulateHtml ?r ?l)] =>
           destruct (truthy (accumulateHtml r l))
       end|];
      cbn [tailMarkdown set_lastCompleteBlockCount nextTick set_pending];
      rewrite ?setStreamingHtml_tail; cbn [tailMarkdown set_tailMarkdown];
      apply (Htail _ (fun x => x)).
  - destruct (lastCompleteBlockCount s <? n) eqn:E.
    + apply Nat.ltb_lt in E. simpl. lia.
    + apply Nat.ltb_ge in E. simpl. lia.
Qed.

(** X7.  Sending the snapshot again (same content, not completing)
    changes neither the tail buffer, the committed-block count, the
    committed region, the snapshot nor the event log. *)
Theorem repeated_content_keeps_state s :
  quiescent parseHtml s ->
  truthy (prevContent s) = true ->
  tailMarkdown (update parseHtml render (prevContent s) false s)
  = tailMarkdown s
  /\ lastCompleteBlockCount (update parseHtml render (prevContent s) false s)
     = lastCompleteBlockCount s
  /\ staticContainer (update parseHtml render (prevContent s) false s)
     = staticContainer s
  /\ prevContent (update parseHtml render (prevContent s) false s)
     = prevContent s
  /\ emitted (update parseHtml render (prevContent s) false s) = emitted s.
Proof.
  intros (Hp & Hb & [Hs Hi] & Hd) Hprev.
  destruct (update_stream_frame parseHtml render (prevContent s) false s)
    as (Hprev' & Htail & Hcnt); auto; [now rewrite Hp|].
  rewrite Hprev', Htail, Hcnt, update_emitted, watchCallback_emitted, Hprev.
  cbn [negb andb]. rewrite !app_nil_r.
  unfold update.
  pose proof (watchCallback_append [] s Hprev) as Hw.
  rewrite app_nil_r in Hw. rewrite Hw. clear Hw.
  destruct (staticContainer s) as [static|] eqn:Es; [|congruence].
  destruct (streamingContainer s) as [streaming|] eqn:Ei; [|congruence].
  set (s1 := set_prevContent (prevContent s)
               (processAppendedSuffix render [] s)).
  assert (H1 : tailMarkdown s1 = tailMarkdown s
               /\ lastCompleteBlockCount s1 = lastCompleteBlockCount s
               /\ staticContainer s1 = Some static
               /\ streamingContainer s1 = Some streaming
               /\ forallb isStreamTask (pending s1) = true
               /\ existsb isFlush (pending s1) = false).
  { subst s1. unfold processAppendedSuffix. cbn [truthy negb orb].
    cbn [tailMarkdown lastCompleteBlockCount staticContainer
         streamingContainer pending set_prevContent].
    rewrite setStreamingHtml_tail, setStreamingHtml_complete,
      setStreamingHtml_static, setStreamingHtml_streaming,
      setStreamingHtml_pending, Hp.
    repeat split; auto. all: now destruct (str_eqb _ _). }
  destruct H1 as (Ht1 & Hc1 & Hs1 & Hi1 & Hq1 & Hf1).
  repeat split; auto.
  destruct (vueRender_frame parseHtml s1)
    as (_ & Hp2 & _ & _ & _ & _ & _ & Hs2 & _).
  assert (Hi2 := vueRender_streaming parseHtml s1 streaming Hi1).
  rewrite Hs1 in Hs2.
  destruct (fun Hq => drain_stream_static parseHtml
              (queueWeight (pending (vueRender parseHtml s1)))
              (vueRender parseHtml s1) static _ Hq Hs2 Hi2)
    as [Hnoflush _]; [now rewrite Hp2|].
  apply Hnoflush. now rewrite Hp2.
Qed.

(** The watcher on an empty snapshot. *)
Lemma watchCallback_fresh (c : str) (b : bool) s :
  truthy (prevContent s) = false ->
  watchCallback render c b s
  = set_prevContent c
      (handleNonPrefixReplace render c false
         (if negb (truthy c) || negb (hasEmittedStart s)
          then set_hasEmittedStart true
                 (emit EvStart (set_hasEmittedStart false s))
          else s)).
Proof.
  intros Hprev. apply truthy_false in Hprev.
  unfold watchCallback, processContentNow.
  rewrite !orElse_nil, Hprev. cbn [length].
  replace (length c <? 0) with false by (symmetry; apply Nat.ltb_ge; lia).
  rewrite orb_false_r.
  destruct (truthy c); cbn [negb orb].
  - rewrite Hprev. cbn [truthy negb].
    destruct (hasEmittedStart s) eqn:E; reflexivity.
  - cbn [prevContent set_hasEmittedStart hasEmittedStart].
    rewrite Hprev. reflexivity.
Qed.

(** X8.  The first content a mounted component receives (empty
    snapshot) ends like a full reset: tail buffer, committed-block count
    and snapshot are derived from the content alone, and the committed
    region holds nothing or the nodes rendered from the last block: the
    HTML of the completed blocks is overwritten before the flush moves
    anything. *)
Theorem fresh_update_outcome (c : str) (b : bool) s :
  quiescent parseHtml s ->
  truthy (prevContent s) = false ->
  resetOutcome parseHtml render c (update parseHtml render c b s).
Proof.
  intros (Hp & Hb & [Hs Hi] & Hd) Hprev.
  destruct (update_stream_frame parseHtml render c b s)
    as (Hprev' & Htail & Hcnt); auto; [now rewrite Hp|].
  unfold resetOutcome. rewrite Hprev', Htail, Hcnt.
  unfold update. rewrite (watchCallback_fresh c b s Hprev).
  set (s0 := if negb (truthy c) || negb (hasEmittedStart s)
             then set_hasEmittedStart true
                    (emit EvStart (set_hasEmittedStart false s))
             else s).
  destruct (staticContainer s) as [static|] eqn:Es; [|congruence].
  destruct (streamingContainer s) as [streaming|] eqn:Ei; [|congruence].
  assert (H0 : staticContainer s0 = Some static /\ pending s0 = []
               /\ streamingContainer s0 = Some streaming
               /\ boundHtml s0 = boundHtml s)
    by (subst s0; destruct (_ || _); auto).
  destruct H0 as (Hs0 & Hp0 & Hi0 & Hb0).
  destruct (handleNonPrefixReplace_state render c s0 static Hs0 Hp0)
    as (Hs1 & Hi1 & Hb1 & Hq1 & Hv1 & Ht1 & Hc1).
  set (s1 := handleNonPrefixReplace render c false s0) in *.
  cbn [tailMarkdown lastCompleteBlockCount set_prevContent].
  rewrite Ht1, Hc1.
  repeat split.
  set (s2 := set_prevContent c s1).
  assert (H2 : staticContainer s2 = Some [] /\ pending s2 = pending s1
               /\ streamingContainer s2 = Some streaming
               /\ streamingHtml s2 = streamingHtml s1
               /\ boundHtml s2 = boundHtml s)
    by (subst s2;
        cbn [staticContainer pending streamingContainer streamingHtml
             boundHtml set_prevContent];
        rewrite Hi1, Hb1; auto).
  destruct H2 as (Hs2' & Hp2' & Hi2' & Hv2' & Hb2').
  destruct (vueRender_frame parseHtml s2)
    as (_ & Hp2 & _ & _ & _ & _ & _ & Hs2 & _).
  assert (Hi2 := vueRender_streaming parseHtml s2 streaming Hi2').
  rewrite Hs2' in Hs2.
  destruct (fun Hq => drain_stream_static parseHtml
              (queueWeight (pending (vueRender parseHtml s2)))
              (vueRender parseHtml s2) [] _ Hq Hs2 Hi2)
    as [Hnoflush Hflush]; [now rewrite Hp2, Hp2'|].
  rewrite !Hp2, !Hp2' in Hnoflush, Hflush |- *.
  destruct (existsb isFlush (pending s1)) eqn:Hf; [|now left; auto].
  specialize (Hv1 eq_refl).
  destruct Hflush as [->| ->]; [now left|]. cbn [app].
  rewrite Hv2', Hb2'.
  destruct (str_eqb (streamingHtml s1) (boundHtml s)) eqn:E.
  - apply str_eqb_eq in E.
    destruct Hd as [Hd|Hd]; rewrite Ei in Hd; injection Hd as ->;
      [now left|right].
    now rewrite <- E, Hv1.
  - right. now rewrite Hv1.
Qed.

(** X9.  What one update adds to the event log: [complete] exactly when
    the snapshot is non-empty and the update is a completing one; [start]
    exactly when the snapshot is empty and the start flag is down or the
    content is empty; never both, never more than one event. *)
Theorem update_events (c : str) (b : bool) s :
  emitted (update parseHtml render c b s)
  = emitted s
    ++ (if truthy (prevContent s)
        then (if b then [EvComplete] else [])
        else (if negb (truthy c) || negb (hasEmittedStart s)
              then [EvStart] else [])).
Proof.
  rewrite update_emitted, watchCallback_emitted.
  destruct (truthy (prevContent s)); cbn [negb andb].
  - reflexivity.
  - now rewrite app_nil_r.
Qed.

(** X10.  While the snapshot is empty, the completion flag is not looked
    at: a completing update does what the same update without the flag
    does. *)
Theorem fresh_update_ignores_completion (c : str) s :
  truthy (prevContent s) = false ->
  update parseHtml render c true s = update parseHtml render c false s.
Proof.
  intros Hprev. unfold update, watchCallback, processContentNow.
  set (s0 := if negb (truthy c) || (length c <? length (prevContent s))
             then set_hasEmittedStart false s else s).
  assert (Hp0 : prevContent s0 = prevContent s)
    by (subst s0; now destruct (_ || _)).
  now rewrite Hp0, Hprev.
Qed.

(** X11.  Before mounting (the committed container's ref is null), a
    completing update on a non-empty snapshot emits [complete] and does
    nothing else: nothing is rendered and the snapshot keeps its old
    value. *)
Theorem complete_before_mount (c : str) s :
  staticContainer s = None ->
  pending s = [] ->
  boundHtml s = streamingHtml s ->
  truthy (prevContent s) = true ->
  update parseHtml render c true s
  = emit EvComplete
      (if negb (truthy c) || (length c <? length (prevContent s))
       then set_hasEmittedStart false s else s).
Proof.
  intros Hs Hp Hb Hprev. unfold update, watchCallback.
  set (s0 := if negb (truthy c) || (length c <? length (prevContent s))
             then set_hasEmittedStart false s else s).
  assert (H0 : prevContent s0 = prevContent s /\ staticContainer s0 = None
               /\ pending s0 = [] /\ boundHtml s0 = streamingHtml s0)
    by (subst s0; destruct (_ || _); auto).
  destruct H0 as (Hp0 & Hs0 & Hq0 & Hb0).
  rewrite processContentNow_complete by now rewrite Hp0.
  unfold finalizeAll. rewrite Hs0.
  unfold vueRender. cbn [streamingHtml boundHtml emit set_emitted].
  rewrite Hb0, str_eqb_refl. cbn [pending emit set_emitted].
  now rewrite Hq0.
Qed.

(** X12.  The watcher's immediate first call runs before the template
    refs are set.  Mounting after that call gives the state the call
    produces on the mounted component: the call touches no container. *)
Theorem immediate_call_before_mount (c : str) (b : bool) :
  mountRefs (watchCallback render c b (@unmounted node))
  = watchCallback render c b init.
Proof. apply first_call_before_mount. Qed.

End ComponentMore.

(** ** Margin stamps *)

Module MarginFacts.

Import Margins.

Lemma in_existsb (t : str) (l : list str) :
  existsb (str_eqb t) l = true <-> In t l.
Proof.
  rewrite existsb_exists. split.
  - intros (x & Hin & Heq). apply str_eqb_eq in Heq. now subst.
  - intros Hin. exists t. split; [assumption|apply str_eqb_refl].
Qed.

Lemma in_tokenSet (t : str) (l : list str) : In t (tokenSet l) <-> In t l.
Proof.
  induction l as [|u l IH]; [reflexivity|]. simpl.
  rewrite filter_In, IH, negb_true_iff, <- not_true_iff_false, str_eqb_eq.
  destruct (list_eq_dec N.eq_dec u t) as [->|Hne]; [tauto|].
  intuition congruence.
Qed.

Lemma tokenSet_NoDup (l : list str) : NoDup (tokenSet l).
Proof.
  induction l as [|u l IH]; simpl; constructor.
  - rewrite filter_In, negb_true_iff, <- not_true_iff_false, str_eqb_eq.
    tauto.
  - now apply NoDup_filter.
Qed.

Lemma filter_all (p : str -> bool) (l : list str) :
  (forall x, In x l -> p x = true) -> filter p l = l.
Proof.
  induction l as [|u l IH]; intros H; [reflexivity|]. simpl.
  rewrite (H u (or_introl eq_refl)), IH; [reflexivity|].
  intros x Hx. apply H. now right.
Qed.

(** A list without repetition is its own token set. *)
Lemma tokenSet_id (l : list str) : NoDup l -> tokenSet l = l.
Proof.
  induction 1 as [|u l Hnotin Hnd IH]; [reflexivity|]. simpl.
  rewrite IH. f_equal. apply filter_all. intros x Hx.
  apply negb_true_iff, not_true_iff_false. rewrite str_eqb_eq.
  congruence.
Qed.

Lemma classList_remove_NoDup (tokens l : list str) :
  NoDup (classList_remove tokens l).
Proof. apply NoDup_filter, tokenSet_NoDup. Qed.

Lemma classList_add_NoDup (token : str) (l : list str) :
  NoDup (classList_add token l).
Proof.
  unfold classList_add.
  destruct (existsb (str_eqb token) (tokenSet l)) eqn:E;
    [apply tokenSet_NoDup|].
  apply NoDup_app; [apply tokenSet_NoDup|repeat constructor; auto|].
  intros x Hx [<-|[]]. apply in_existsb in Hx. congruence.
Qed.

Lemma in_classList_remove (t : str) (tokens l : list str) :
  In t (classList_remove tokens l) <-> In t l /\ ~ In t tokens.
Proof.
  unfold classList_remove. rewrite filter_In, negb_true_iff, in_tokenSet.
  rewrite <- not_true_iff_false, in_existsb. reflexivity.
Qed.

Lemma in_classList_add (t token : str) (l : list str) :
  In t (classList_add token l) <-> In t l \/ t = token.
Proof.
  unfold classList_add.
  destruct (existsb (str_eqb token) (tokenSet l)) eqn:E.
  - apply in_existsb in E. apply (proj1 (in_tokenSet _ _)) in E.
    rewrite in_tokenSet. split; [auto|]. intros [H| ->]; assumption.
  - rewrite in_app_iff, in_tokenSet. simpl. intuition congruence.
Qed.

Lemma markers_differ : firstBlock <> lastBlock.
Proof. discriminate. Qed.

Lemma stampChild_first (i len : nat) (cl : list str) :
  In firstBlock (stampChild i len cl) <-> i = 0.
Proof.
  unfold stampChild.
  assert (Hclean : ~ In firstBlock
                     (classList_remove [firstBlock; lastBlock] cl))
    by (rewrite in_classList_remove; simpl; tauto).
  pose proof markers_differ as Hd.
  destruct (Nat.eqb_spec i 0) as [->|Hi];
    destruct (_ =? _);
    rewrite ?in_classList_add; intuition congruence.
Qed.

Lemma stampChild_last (i len : nat) (cl : list str) :
  In lastBlock (stampChild i len cl) <-> i = len - 1.
Proof.
  unfold stampChild.
  assert (Hclean : ~ In lastBlock
                     (classList_remove [firstBlock; lastBlock] cl))
    by (rewrite in_classList_remove; simpl; tauto).
  pose proof markers_differ as Hd.
  destruct (Nat.eqb_spec i (len - 1)) as [Hl|Hl];
    destruct (i =? 0);
    rewrite ?in_classList_add; intuition congruence.
Qed.

Lemma childClasses_stamp (i len : nat) (nodes : list domNode) :
  forall k cl,
    nth_error (childClasses (stampChildren i len nodes)) k = Some cl ->
    exists cl0,
      nth_error (childClasses nodes) k = Some cl0
      /\ cl = stampChild (i + k) len cl0.
Proof.
  revert i. induction nodes as [|n nodes IH]; intros i k cl H.
  - destruct k; discriminate.
  - destruct n as [data|body cl0]; simpl in *.
    + now apply IH.
    + destruct k as [|k]; simpl in *.
      * injection H as <-. exists cl0. now rewrite Nat.add_0_r.
      * destruct (IH (S i) k cl H) as (c & Hc & ->).
        exists c. split; [assumption|]. f_equal. lia.
Qed.

Lemma children_classes_length (nodes : list domNode) :
  length (children nodes) = length (childClasses nodes).
Proof.
  induction nodes as [|[data|body cl] nodes IH]; simpl; auto.
Qed.

(** X13.  After [applyMarginClasses], the element child at index [k]
    carries [first-block] exactly when it is the first one and
    [last-block] exactly when it is the last one, whatever markers the
    children carried before; text nodes do not count. *)
Theorem margin_markers_exact (childNodes out : list domNode)
    (k : nat) (cl : list str) :
  applyMarginClasses (Some childNodes) = Some out ->
  nth_error (childClasses out) k = Some cl ->
  (In firstBlock cl <-> k = 0)
  /\ (In lastBlock cl <-> S k = length (children childNodes)).
Proof.
  intros Hout Hk. injection Hout as <-.
  destruct (childClasses_stamp 0 _ childNodes k cl Hk) as (cl0 & Hk0 & ->).
  assert (Hlt : k < length (children childNodes)).
  { rewrite children_classes_length. apply nth_error_Some. congruence. }
  rewrite stampChild_first, stampChild_last. simpl. split; [tauto|lia].
Qed.

Lemma classList_remove_idem (tokens l : list str) :
  classList_remove tokens (classList_remove tokens l)
  = classList_remove tokens l.
Proof.
  unfold classList_remove at 1.
  rewrite (tokenSet_id _ (classList_remove_NoDup tokens l)).
  apply filter_all. intros x Hx.
  apply in_classList_remove in Hx as [_ Hx].
  apply negb_true_iff, not_true_iff_false. now rewrite in_existsb.
Qed.

Lemma classList_remove_add (token : str) (tokens l : list str) :
  In token tokens ->
  classList_remove tokens (classList_add token l) = classList_remove tokens l.
Proof.
  intros Hin. unfold classList_remove at 1.
  rewrite (tokenSet_id _ (classList_add_NoDup token l)).
  unfold classList_add, classList_remove.
  destruct (existsb (str_eqb token) (tokenSet l)); [reflexivity|].
  rewrite filter_app. simpl.
  apply in_existsb in Hin. rewrite Hin. simpl. apply app_nil_r.
Qed.

Lemma stampChild_remove (i len : nat) (cl : list str) :
  classList_remove [firstBlock; lastBlock] (stampChild i len cl)
  = classList_remove [firstBlock; lastBlock] cl.
Proof.
  unfold stampChild.
  destruct (i =? len - 1); destruct (i =? 0);
    rewrite ?classList_remove_add by (simpl; auto);
    apply classList_remove_idem.
Qed.

Lemma stampChild_idem (i len : nat) (cl : list str) :
  stampChild i len (stampChild i len cl) = stampChild i len cl.
Proof.
  unfold stampChild at 1. now rewrite stampChild_remove.
Qed.

Lemma children_stamp_length (i len : nat) (nodes : list domNode) :
  length (children (stampChildren i len nodes)) = length (children nodes).
Proof.
  revert i. induction nodes as [|[data|body cl] nodes IH]; intros i;
    simpl; auto.
Qed.

Lemma stampChildren_idem (i len : nat) (nodes : list domNode) :
  stampChildren i len (stampChildren i len nodes) = stampChildren i len nodes.
Proof.
  revert i. induction nodes as [|[data|body cl] nodes IH]; intros i;
    simpl; [reflexivity| |]; rewrite IH; [reflexivity|].
  now rewrite stampChild_idem.
Qed.

(** X14.  [applyMarginClasses] is idempotent: a second pass over the same
    container changes nothing. *)
Theorem applyMarginClasses_idempotent (container : option (list domNode)) :
  applyMarginClasses (applyMarginClasses container)
  = applyMarginClasses container.
Proof.
  destruct container as [nodes|]; [|reflexivity]. simpl.
  now rewrite children_stamp_length, stampChildren_idem.
Qed.

Lemma stampChild_NoDup (i len : nat) (cl : list str) :
  NoDup (stampChild i len cl).
Proof.
  unfold stampChild.
  destruct (i =? len - 1); destruct (i =? 0);
    auto using classList_add_NoDup, classList_remove_NoDup.
Qed.

Lemma childClasses_stamp_NoDup (i len : nat) (nodes : list domNode) :
  Forall (@NoDup str) (childClasses (stampChildren i len nodes)).
Proof.
  revert i. induction nodes as [|[data|body cl] nodes IH]; intros i; simpl;
    [constructor|apply IH|].
  constructor; [apply stampChild_NoDup|apply IH].
Qed.

(** X15.  [applyMarginClasses] changes no text node, no element body, no
    order and no class token other than the two margin classes: the
    child nodes, each element taken with its token set minus the two
    margin classes, are the same after the pass as before it.  What the
    pass does change besides is the writing of the attribute: a token
    written more than once is written once afterwards. *)
Theorem applyMarginClasses_only_markers (childNodes out : list domNode) :
  applyMarginClasses (Some childNodes) = Some out ->
  map withoutMarkers out = map withoutMarkers childNodes
  /\ Forall (@NoDup str) (childClasses out).
Proof.
  intros Hout. injection Hout as <-.
  split; [|apply childClasses_stamp_NoDup].
  generalize (length (children childNodes)) as len. generalize 0 as i.
  induction childNodes as [|[data|body cl] nodes IH]; intros i len;
    simpl; [reflexivity| |]; rewrite IH; [reflexivity|].
  now rewrite stampChild_remove.
Qed.

End MarginFacts.

(** ** The fence rule and lazy highlighting *)

Module HighlightFacts.

Import Markdown LazyHighlight.

Lemma takeWhile_forall (p : char -> bool) (s : str) :
  forallb p (takeWhile p s) = true.
Proof.
  induction s as [|c s IH]; [reflexivity|]. simpl.
  destruct (p c) eqn:E; [simpl; now rewrite E|reflexivity].
Qed.

Lemma dropWhile_suffix (p : char -> bool) (l : str) :
  exists pre, l = pre ++ dropWhile p l.
Proof.
  induction l as [|c l [pre IH]]; [now exists []|]. simpl.
  destruct (p c); [|now exists []].
  exists (c :: pre). simpl. now f_equal.
Qed.

Lemma dropWhile_head (p : char -> bool) (l : str) (c : char) (rest : str) :
  dropWhile p l = c :: rest -> p c = false.
Proof.
  induction l as [|d l IH]; simpl; [discriminate|].
  destruct (p d) eqn:E; [exact IH|]. intros H. now injection H as <- _.
Qed.

Lemma trim_no_leading_space (s : str) (c : char) (rest : str) :
  trim s = c :: rest -> is_space c = false.
Proof.
  unfold trim, trimEnd, trimStart. intros H.
  destruct (dropWhile_suffix is_space (rev (dropWhile is_space s)))
    as [pre Hpre].
  apply (f_equal (@rev char)) in Hpre.
  rewrite rev_involutive, rev_app_distr, H in Hpre. simpl in Hpre.
  now apply (dropWhile_head is_space s c (rest ++ rev pre)).
Qed.

(** X16.  The language name of a fenced block is always a single
    non-empty word: never empty, no whitespace inside.  It is [text] when
    the info string is empty or blank after unescaping. *)
Theorem fenceLang_word (unescapeAll : str -> str) (tokenInfo : str) :
  truthy (fenceLang unescapeAll tokenInfo) = true
  /\ forallb (fun c => negb (is_space c)) (fenceLang unescapeAll tokenInfo)
     = true
  /\ (truthy tokenInfo = false \/ trim (unescapeAll tokenInfo) = [] ->
      fenceLang unescapeAll tokenInfo = lit "text").
Proof.
  unfold fenceLang.
  set (info := if truthy tokenInfo then trim (unescapeAll tokenInfo) else []).
  assert (Hinfo : info = [] \/
                  exists c rest, info = c :: rest /\ is_space c = false).
  { subst info. destruct (truthy tokenInfo); [|now left].
    destruct (trim (unescapeAll tokenInfo)) as [|c rest] eqn:E; [now left|].
    right. exists c, rest. split; [reflexivity|].
    now apply (trim_no_leading_space _ _ _ E). }
  split; [|split].
  - destruct Hinfo as [->|(c & rest & -> & Hc)]; [reflexivity|].
    unfold firstWord. simpl. now rewrite Hc.
  - destruct Hinfo as [->|(c & rest & -> & Hc)]; [reflexivity|].
    cbn [truthy]. unfold orElse.
    destruct (truthy (firstWord (c :: rest)));
      [apply takeWhile_forall|reflexivity].
  - intros [H|H]; subst info; rewrite ?H; [reflexivity|].
    now destruct (truthy tokenInfo).
Qed.

Lemma langMatch_needs_hyphen (s : str) :
  existsb (N.eqb 45) s = false -> langMatch s = None.
Proof.
  induction s as [|c s IH]; [reflexivity|]. intros H.
  cbn [existsb] in H. apply orb_false_iff in H as [Hc Hs].
  cbn [langMatch].
  destruct (startsWith (c :: s) languagePrefix) eqn:E; [|now apply IH].
  apply startsWith_spec in E as [t Ht].
  assert (Hin : existsb (N.eqb 45) (c :: s) = true).
  { rewrite Ht. unfold languagePrefix. rewrite existsb_app.
    apply orb_true_iff. left. reflexivity. }
  cbn [existsb] in Hin. rewrite Hc, Hs in Hin. discriminate.
Qed.

Section HighlighterFacts.

Variable textContentOf : str -> str.
Variable classListAdd : str -> str -> str.
Variable getLanguage : str -> bool.
Variable highlight : str -> str -> option str.

(** X17.  A [code] element with the class the fence rule writes,
    [hljs] followed by a language name without a hyphen, is never
    highlighted: [highlightBlock] finds no [language-...] class, takes the
    language to be [text] and leaves the element as it is, whatever
    highlight.js knows. *)
Theorem fence_block_never_highlighted
    (safeLangClass markup : str) (needs : option str) :
  existsb (N.eqb 45) safeLangClass = false ->
  highlightBlock textContentOf classListAdd getLanguage highlight
    {| className := fenceCodeClass safeLangClass;
       innerHTML := markup; needsHighlight := needs |}
  = {| className := fenceCodeClass safeLangClass;
       innerHTML := markup; needsHighlight := needs |}.
Proof.
  intros Hno. unfold highlightBlock. cbn [className innerHTML].
  rewrite langMatch_needs_hyphen.
  - now destruct (truthy (textContentOf markup)).
  - unfold fenceCodeClass. rewrite existsb_app.
    apply orb_false_iff. split; [reflexivity|exact Hno].
Qed.

(** X18.  After [highlightAllBlocks] in the browser no block is left
    marked as needing a highlight, so a second call changes nothing: each
    block is highlighted at most once. *)
Theorem highlightAllBlocks_once (container : option (list codeNode)) :
  (forall blocks,
      highlightAllBlocks textContentOf classListAdd getLanguage highlight
        true container = Some blocks ->
      forallb (fun b => negb (selected b)) blocks = true)
  /\ highlightAllBlocks textContentOf classListAdd getLanguage highlight true
       (highlightAllBlocks textContentOf classListAdd getLanguage highlight
          true container)
     = highlightAllBlocks textContentOf classListAdd getLanguage highlight
         true container.
Proof.
  destruct container as [blocks|]; [|split; [discriminate|reflexivity]].
  cbn [highlightAllBlocks negb].
  set (f := fun block : codeNode => _).
  assert (Hf : forall b, selected (f b) = false).
  { intros b. subst f. cbv beta. destruct (selected b) eqn:E; [|exact E].
    reflexivity. }
  split.
  - intros out Hout. injection Hout as <-.
    induction blocks as [|b bs IH]; [reflexivity|]. simpl.
    now rewrite Hf, IH.
  - f_equal. rewrite map_map. apply map_ext. intros b.
    unfold f at 1. now rewrite Hf.
Qed.

End HighlighterFacts.

End HighlightFacts.

(** ** The search endpoint *)

Module SearchFacts.

Import SearchApi.

Section HandlerFacts.

Variable json : Type.
Variable createError : N -> str -> jsError.
Variable minToString : jsValue -> N -> str.
Variable fetch : request -> jsError + response json.

(** X19.  The handler contacts the upstream exactly once when an API key
    and a query are given, and not at all otherwise; it returns a value
    exactly when the upstream answered OK, and the value is the parsed
    body, unchanged. *)
Theorem search_request_and_result (apiKey : str) (query : query) :
  snd (handler createError minToString fetch apiKey query)
  = (if truthy apiKey && truthy (q query)
     then [searchRequest minToString apiKey query] else [])
  /\ (forall data,
        fst (handler createError minToString fetch apiKey query)
        = Returned data
        <-> truthy apiKey = true /\ truthy (q query) = true
            /\ exists response,
                 fetch (searchRequest minToString apiKey query)
                 = inr response
                 /\ ok response = true /\ jsonBody response = inr data).
Proof.
  unfold handler.
  destruct (truthy apiKey); cbn [negb andb];
    [destruct (truthy (q query)); cbn [negb]|].
  - destruct (fetch (searchRequest minToString apiKey query))
      as [rejected|response] eqn:Ef.
    + split; [reflexivity|]. intros data. split; [discriminate|].
      intros (_ & _ & r & Hr & _). discriminate.
    + destruct (ok response) eqn:Eok; cbn [negb].
      * destruct (jsonBody response) as [e|d] eqn:Ej;
          (split; [reflexivity|]); intros data; split.
        -- discriminate.
        -- intros (_ & _ & r & Hr & _ & Hj). injection Hr as <-. congruence.
        -- intros H. injection H as <-. repeat split. now exists response.
        -- intros (_ & _ & r & Hr & _ & Hj). injection Hr as <-.
           cbn [fst]. congruence.
      * split; [reflexivity|]. intros data. split; [discriminate|].
        intros (_ & _ & r & Hr & Hok & _). injection Hr as <-. congruence.
  - split; [reflexivity|]. intros data. split; [discriminate|].
    intros (_ & H & _). discriminate.
  - split; [reflexivity|]. intros data. split; [discriminate|].
    intros (H & _). discriminate.
Qed.

Lemma orNumber_nonzero (a : N) : orNumber a 500 <> 0%N.
Proof. unfold orNumber. destruct (N.eqb_spec a 0); [discriminate|auto]. Qed.

Lemma orElse_truthy (a b : str) : truthy b = true -> truthy (orElse a b) = true.
Proof. unfold orElse. now destruct (truthy a) eqn:E. Qed.

(** X20.  Whatever goes wrong, the handler throws an error made by
    [createError] from a status code that is not falsy and a non-empty
    message: 500 without an API key, 400 without a query, and inside
    [try] the thrown value's own code and message or else 500 and
    "Internal Server Error". *)
Theorem search_errors_normalised (apiKey : str) (query : query)
    (error : jsError) :
  fst (handler createError minToString fetch apiKey query) = Threw error ->
  exists code message,
    error = createError code message
    /\ code <> 0%N /\ truthy message = true
    /\ (truthy apiKey = false -> code = 500%N)
    /\ (truthy apiKey = true -> truthy (q query) = false -> code = 400%N).
Proof.
  unfold handler.
  destruct (truthy apiKey); cbn [negb];
    [destruct (truthy (q query)); cbn [negb]|].
  - destruct (fetch (searchRequest minToString apiKey query))
      as [rejected|response].
    + cbn [fst]. intros H. injection H as <-.
      eexists _, _. split; [reflexivity|].
      split; [apply orNumber_nonzero|].
      split; [now apply orElse_truthy|]. split; discriminate.
    + destruct (negb (ok response)).
      * cbn [fst]. intros H. injection H as <-.
        eexists _, _. split; [reflexivity|].
        split; [apply orNumber_nonzero|].
        split; [now apply orElse_truthy|]. split; discriminate.
      * destruct (jsonBody response) as [e|d]; [|discriminate].
        cbn [fst]. intros H. injection H as <-.
        eexists _, _. split; [reflexivity|].
        split; [apply orNumber_nonzero|].
        split; [now apply orElse_truthy|]. split; discriminate.
  - cbn [fst]. intros H. injection H as <-.
    eexists _, _. split; [reflexivity|].
    repeat split; discriminate.
  - cbn [fst]. intros H. injection H as <-.
    eexists _, _. split; [reflexivity|].
    repeat split; discriminate.
Qed.

End HandlerFacts.

End SearchFacts.

(** ** The tool registry *)

Module ToolFacts.

Import ToolManager.

Section RegistryFacts.

Context {args value error schemaT : Type}.

Implicit Types (tools : toolMap args value error schemaT)
  (t : tool args value error schemaT) (name : str).

Lemma mapGet_mapSet_same name t tools :
  mapGet name (mapSet name t tools) = Some t.
Proof.
  unfold mapGet. induction tools as [|entry rest IH]; simpl.
  - now rewrite str_eqb_refl.
  - destruct (str_eqb (fst entry) name) eqn:E; simpl.
    + now rewrite E.
    + now rewrite E.
Qed.

Lemma mapGet_mapSet_other name other t tools :
  other <> name ->
  mapGet other (mapSet name t tools) = mapGet other tools.
Proof.
  intros Hne. unfold mapGet.
  assert (Hno : str_eqb name other = false).
  { apply not_true_iff_false. rewrite str_eqb_eq. congruence. }
  induction tools as [|entry rest IH]; simpl.
  - now rewrite Hno.
  - destruct (str_eqb (fst entry) name) eqn:E; simpl.
    + apply str_eqb_eq in E. rewrite E, Hno. reflexivity.
    + destruct (str_eqb (fst entry) other); [reflexivity|exact IH].
Qed.

Lemma mapGet_mapDelete_same name tools :
  mapGet name (mapDelete name tools) = None.
Proof.
  unfold mapGet, mapDelete. induction tools as [|entry rest IH]; simpl;
    [reflexivity|].
  destruct (str_eqb (fst entry) name) eqn:E; simpl; [exact IH|].
  now rewrite E.
Qed.

Lemma mapGet_mapDelete_other name other tools :
  other <> name ->
  mapGet other (mapDelete name tools) = mapGet other tools.
Proof.
  intros Hne. unfold mapGet, mapDelete.
  induction tools as [|entry rest IH]; simpl; [reflexivity|].
  destruct (str_eqb (fst entry) name) eqn:E; simpl.
  - apply str_eqb_eq in E.
    assert (Hno : str_eqb (fst entry) other = false).
    { apply not_true_iff_false. rewrite str_eqb_eq. congruence. }
    now rewrite Hno.
  - destruct (str_eqb (fst entry) other); [reflexivity|exact IH].
Qed.

(** X21.  [executeTool] runs exactly what the registry holds under the
    name: after [registerTool] the new executor answers (its value is
    returned, its error thrown again), also when the name was taken
    before; after [unregisterTool] the call fails with
    [Tool "<name>" not found]; calls under other names are not affected
    by either. *)
Theorem executeTool_follows_registry name (exec : args -> settled value error)
    (sch : schemaT) (a : args) tools :
  executeTool name a (registerTool name exec sch tools)
  = match exec a with
    | Fulfilled v => Result v
    | RejectedWith e => Rethrown e
    end
  /\ executeTool name a (unregisterTool name tools)
     = NotFound (notFoundMessage name)
  /\ (forall other, other <> name ->
        executeTool other a (registerTool name exec sch tools)
        = executeTool other a tools
        /\ executeTool other a (unregisterTool name tools)
           = executeTool other a tools).
Proof.
  unfold executeTool, registerTool, unregisterTool.
  split; [|split].
  - now rewrite mapGet_mapSet_same.
  - now rewrite mapGet_mapDelete_same.
  - intros other Hne.
    now rewrite mapGet_mapSet_other, mapGet_mapDelete_other.
Qed.

Lemma getSchemasByNames_app (names1 names2 : list str) tools :
  getSchemasByNames (names1 ++ names2) tools
  = getSchemasByNames names1 tools ++ getSchemasByNames names2 tools.
Proof.
  unfold getSchemasByNames.
  now rewrite map_app, flat_map_app, map_app.
Qed.

(** X22.  [getSchemasByNames] answers in the order of the names asked
    for; a name with no tool contributes nothing instead of an empty
    slot, a known name contributes its tool's schema, so the answer has
    as many schemas as there are known names among those asked. *)
Theorem getSchemasByNames_known_only (names : list str) tools :
  getSchemasByNames names tools
  = flat_map (fun name => match getTool name tools with
                          | Some t => [schema t]
                          | None => []
                          end) names
  /\ length (getSchemasByNames names tools)
     = length (filter (fun name => match getTool name tools with
                                   | Some _ => true
                                   | None => false
                                   end) names)
  /\ (forall before after name,
        getTool name tools = None ->
        getSchemasByNames (before ++ name :: after) tools
        = getSchemasByNames (before ++ after) tools).
Proof.
  assert (Hflat : forall ns,
    getSchemasByNames ns tools
    = flat_map (fun name => match getTool name tools with
                            | Some t => [schema t]
                            | None => []
                            end) ns).
  { induction ns as [|n ns IH]; [reflexivity|].
    change (n :: ns) with ([n] ++ ns).
    rewrite getSchemasByNames_app, IH, flat_map_app. f_equal.
    unfold getSchemasByNames, getTool. simpl.
    destruct (mapGet n tools); reflexivity. }
  split; [apply Hflat|split].
  - rewrite Hflat. induction names as [|n ns IH]; [reflexivity|].
    simpl. rewrite length_app, IH.
    destruct (getTool n tools); reflexivity.
  - intros before after name Hnone.
    rewrite !Hflat, !flat_map_app. simpl. now rewrite Hnone.
Qed.

End RegistryFacts.

End ToolFacts.

(** ** Attachments *)

Module AttachmentFacts.

Import Attachments.

Section ComposableFacts.

Variable toLowerCase : str -> str.
Variable fileToDataUrl : file -> option str.

(** X23.  [supportsVision] only lifts the image restriction: with and
    without it [validateFile] gives the same answer, except that a file
    accepted with it may be refused without it. *)
Theorem vision_only_gates_images (f : file) :
  validateFile toLowerCase f true = validateFile toLowerCase f false
  \/ (validateFile toLowerCase f true = Valid
      /\ exists message, validateFile toLowerCase f false = Invalid message).
Proof.
  unfold validateFile.
  destruct (MAX_FILE_SIZE <? size f)%N; [now left|].
  destruct (_ && negb (includes ALLOWED_EXTENSIONS _)); [now left|].
  destruct (_ || includes imageExtensions _); cbn [negb andb];
    [right; eauto|now left].
Qed.

(** What [addFile] does when it succeeds. *)
Lemma addFile_success (f : file) (supportsVision : bool)
    (uuid : option str) (r r' : refs) :
  addFile toLowerCase fileToDataUrl f supportsVision uuid r = (Success, r') ->
  length (attachments r) < MAX_ATTACHMENTS
  /\ validateFile toLowerCase f supportsVision = Valid
  /\ error r' = None
  /\ exists a,
       attachments r' = attachments r ++ [a]
       /\ filename a = name f
       /\ attType a
          = match ALLOWED_TYPES (type f) with
            | Own k => Kind k
            | Inherited => InheritedMember
            | Undefined =>
                if includes imageExtensions (extensionOf toLowerCase f)
                then Kind image else Kind pdf
            end.
Proof.
  unfold addFile. cbn [attachments error].
  destruct (MAX_ATTACHMENTS <=? length (attachments r)) eqn:El;
    [discriminate|].
  apply Nat.leb_gt in El.
  destruct (validateFile toLowerCase f supportsVision); [|discriminate].
  destruct (fileToDataUrl f) as [url|]; [|discriminate].
  destruct uuid as [newId|]; [|discriminate].
  intros H. injection H as <-. cbn [attachments error].
  repeat split; auto. eexists. repeat split.
Qed.

(** What [addFile] does when it fails. *)
Lemma addFile_failure (f : file) (supportsVision : bool)
    (uuid : option str) (r r' : refs) (message : str) :
  addFile toLowerCase fileToDataUrl f supportsVision uuid r
  = (Failure message, r') ->
  attachments r' = attachments r /\ error r' = Some message.
Proof.
  unfold addFile. cbn [attachments error].
  destruct (MAX_ATTACHMENTS <=? length (attachments r));
    [intros H; injection H as <- <-; now split|].
  destruct (validateFile toLowerCase f supportsVision);
    [|intros H; injection H as <- <-; now split].
  destruct (fileToDataUrl f) as [url|];
    [|intros H; injection H as <- <-; now split].
  destruct uuid as [newId|];
    [discriminate|intros H; injection H as <- <-; now split].
Qed.

(** X24.  [addFile] reports what it did: on success exactly one
    attachment, carrying the file's name, was added at the end and no
    error is left; on failure the list is unchanged and the error ref
    holds the message returned.  So the error ref is [null] exactly after
    a success. *)
Theorem addFile_reports (f : file) (supportsVision : bool)
    (uuid : option str) (r : refs) :
  let result := fst (addFile toLowerCase fileToDataUrl f supportsVision uuid r) in
  let r' := snd (addFile toLowerCase fileToDataUrl f supportsVision uuid r) in
  (result = Success <-> error r' = None)
  /\ (result = Success ->
      exists a, attachments r' = attachments r ++ [a]
                /\ filename a = name f)
  /\ (forall message,
        result = Failure message ->
        attachments r' = attachments r /\ error r' = Some message).
Proof.
  cbv zeta.
  destruct (addFile toLowerCase fileToDataUrl f supportsVision uuid r)
    as [result r'] eqn:E. cbn [fst snd].
  destruct result as [|message].
  - destruct (addFile_success _ _ _ _ _ E) as (_ & _ & He & a & Ha & Hn & _).
    split; [tauto|]. split; [eauto|discriminate].
  - destruct (addFile_failure _ _ _ _ _ _ E) as (Ha & He).
    split; [split; [discriminate|congruence]|].
    split; [discriminate|]. intros m Hm. injection Hm as <-. now split.
Qed.

Lemma doCalls_invariant (I : refs -> Prop) :
  (forall c r, I r -> I (doCall toLowerCase fileToDataUrl c r)) ->
  forall calls r, I r -> I (doCalls toLowerCase fileToDataUrl calls r).
Proof.
  intros Hstep calls. induction calls as [|c calls IH]; intros r Hr;
    [exact Hr|]. simpl. apply IH, Hstep, Hr.
Qed.

Lemma doCall_addFile_cases (f : file) (supportsVision : bool)
    (uuid : option str) (r : refs) :
  let r' := doCall toLowerCase fileToDataUrl
              (CallAddFile f supportsVision uuid) r in
  attachments r' = attachments r
  \/ addFile toLowerCase fileToDataUrl f supportsVision uuid r
     = (Success, r').
Proof.
  cbv zeta. cbn [doCall].
  destruct (addFile toLowerCase fileToDataUrl f supportsVision uuid r)
    as [[|message] r'] eqn:E; cbn [snd]; [now right|left].
  now destruct (addFile_failure _ _ _ _ _ _ E).
Qed.

(** X25.  When calls are made one after the other, the list never holds
    more than [MAX_ATTACHMENTS] attachments. *)
Theorem attachments_bounded (calls : list call) :
  length (attachments
            (doCalls toLowerCase fileToDataUrl calls useAttachments))
  <= MAX_ATTACHMENTS.
Proof.
  apply (doCalls_invariant
           (fun r => length (attachments r) <= MAX_ATTACHMENTS));
    [|simpl; lia].
  intros c r Hr. destruct c as [f v uuid|target| |].
  - destruct (doCall_addFile_cases f v uuid r) as [->|E]; [exact Hr|].
    destruct (addFile_success _ _ _ _ _ E) as (Hlt & _ & _ & a & -> & _).
    rewrite length_app. simpl. unfold MAX_ATTACHMENTS in *. lia.
  - cbn [doCall removeAttachment attachments].
    etransitivity; [apply filter_length_le|exact Hr].
  - simpl. lia.
  - exact Hr.
Qed.

Lemma validate_without_vision (f : file) :
  validateFile toLowerCase f false = Valid ->
  ALLOWED_TYPES (type f) <> Own image
  /\ includes imageExtensions (extensionOf toLowerCase f) = false.
Proof.
  unfold validateFile.
  destruct (MAX_FILE_SIZE <? size f)%N; [discriminate|].
  destruct (_ && negb (includes ALLOWED_EXTENSIONS _)); [discriminate|].
  fold (extensionOf toLowerCase f).
  destruct (ALLOWED_TYPES (type f)) as [[|]| |];
    destruct (includes imageExtensions (extensionOf toLowerCase f));
    cbn [orb negb andb]; try discriminate; intros _; split;
    congruence.
Qed.

(** X26.  An image gets in only through a call that claims vision
    support: if every [addFile] is made with [supportsVision] false, then
    whatever the files, [hasImages] stays false. *)
Theorem no_image_without_vision (calls : list call) :
  Forall (fun c => match c with
                   | CallAddFile _ supportsVision _ => supportsVision = false
                   | _ => True
                   end) calls ->
  hasImages (doCalls toLowerCase fileToDataUrl calls useAttachments) = false.
Proof.
  intros Hcalls.
  assert (H : forall r, hasImages r = false ->
                hasImages (doCalls toLowerCase fileToDataUrl calls r) = false).
  { induction Hcalls as [|c calls Hc _ IH]; intros r Hr; [exact Hr|].
    simpl. apply IH. destruct c as [f v uuid|target| |].
    - subst v.
      destruct (doCall_addFile_cases f false uuid r) as [Ha|E].
      + unfold hasImages in *. now rewrite Ha.
      + destruct (addFile_success _ _ _ _ _ E)
          as (_ & Hv & _ & a & Ha & _ & Ht).
        destruct (validate_without_vision f Hv) as [Hk Hext].
        unfold hasImages in *. rewrite Ha, existsb_app, Hr. simpl.
        rewrite Ht, Hext.
        destruct (ALLOWED_TYPES (type f)) as [[|]| |];
          try reflexivity. congruence.
    - unfold hasImages in *. cbn [doCall removeAttachment attachments].
      apply not_true_iff_false. intros Hex.
      apply existsb_exists in Hex as (a & Hin & Ha).
      apply filter_In in Hin as [Hin _].
      assert (existsb (fun a => match attType a with
                                | Kind image => true
                                | _ => false
                                end) (attachments r) = true)
        by (apply existsb_exists; eauto).
      congruence.
    - reflexivity.
    - exact Hr. }
  now apply H.
Qed.

End ComposableFacts.

End AttachmentFacts.

(** ** More concrete runs *)

Module MoreRuns.

Import Samples MoreSamples.

(** Two paragraphs stay one block. *)
Lemma plain_text_single_block_witness :
  Forall (fun l => fenceMatch (trim l) = None) (split_nl twoParagraphs)
  /\ Forall (fun l => blockStarters l = false) (tl (split_nl twoParagraphs))
  /\ truthy (trim (last (split_nl twoParagraphs) [])) = true
  /\ splitIntoBlocks twoParagraphs = [twoParagraphs].
Proof.
  assert (H1 : Forall (fun l => fenceMatch (trim l) = None)
                 (split_nl twoParagraphs))
    by (repeat constructor).
  assert (H2 : Forall (fun l => blockStarters l = false)
                 (tl (split_nl twoParagraphs)))
    by (repeat constructor).
  assert (H3 : truthy (trim (last (split_nl twoParagraphs) [])) = true)
    by reflexivity.
  split; [exact H1|]. split; [exact H2|]. split; [exact H3|].
  exact (SplitterMore.plain_text_single_block twoParagraphs H1 H2 H3).
Defined.

(** A heading after an empty line starts the second block. *)
Lemma boundary_before_starter_witness :
  split_nl introThenHeading
  = [lit "intro"] ++ [] :: lit "# Title" :: [lit "text"]
  /\ splitIntoBlocks introThenHeading
     = join_nl [lit "intro"]
       :: splitIntoBlocks (join_nl (lit "# Title" :: [lit "text"])).
Proof.
  assert (H : split_nl introThenHeading
              = [lit "intro"] ++ [] :: lit "# Title" :: [lit "text"])
    by reflexivity.
  split; [exact H|].
  apply (SplitterMore.boundary_before_starter introThenHeading
           [lit "intro"] [lit "text"] [] (lit "# Title") H).
  - discriminate.
  - repeat constructor.
  - reflexivity.
  - reflexivity.
  - reflexivity.
Defined.

(** ["a\n\n"] splits into ["a"] and [""]; ["a\n\nb"] is one block. *)
Lemma trailing_boundary_revoked_witness :
  splitIntoBlocks (lit "a" ++ [nl; nl]) = [lit "a"; []]
  /\ splitIntoBlocks (lit "a" ++ nl :: nl :: lit "b")
     = [lit "a" ++ nl :: nl :: lit "b"].
Proof.
  apply (SplitterMore.trailing_boundary_revoked (lit "a") (lit "b"));
    reflexivity.
Defined.

(** Appending ["\n\n# b"] after ["a"]. *)
Lemma append_extends_tail_witness :
  pending afterFirst = []
  /\ truthy (prevContent afterFirst) = true
  /\ tailMarkdown
       (update demoParse demoRender
          (prevContent afterFirst ++ nl :: nl :: lit "# b") false afterFirst)
     = tailMarkdown afterFirst ++ nl :: nl :: lit "# b".
Proof.
  assert (H1 : pending afterFirst = []) by (vm_compute; reflexivity).
  assert (H2 : truthy (prevContent afterFirst) = true)
    by (vm_compute; reflexivity).
  split; [exact H1|]. split; [exact H2|].
  apply (append_extends_tail demoParse demoRender
           (nl :: nl :: lit "# b") afterFirst H1 H2).
  reflexivity.
Defined.

(** Sending ["a"] again. *)
Lemma repeated_content_keeps_state_witness :
  quiescent demoParse afterFirst
  /\ truthy (prevContent afterFirst) = true
  /\ tailMarkdown
       (update demoParse demoRender (prevContent afterFirst) false afterFirst)
     = tailMarkdown afterFirst
  /\ emitted
       (update demoParse demoRender (prevContent afterFirst) false afterFirst)
     = emitted afterFirst.
Proof.
  assert (Hq : quiescent demoParse afterFirst)
    by (apply run_quiescent, init_quiescent).
  assert (Hp : truthy (prevContent afterFirst) = true)
    by (vm_compute; reflexivity).
  destruct (repeated_content_keeps_state demoParse demoRender afterFirst
              Hq Hp) as (Ht & _ & _ & _ & He).
  split; [exact Hq|]. split; [exact Hp|]. split; [exact Ht|exact He].
Defined.

(** Completion arriving before the refs are set. *)
Lemma complete_before_mount_witness :
  staticContainer beforeMount = None
  /\ pending beforeMount = []
  /\ boundHtml beforeMount = streamingHtml beforeMount
  /\ truthy (prevContent beforeMount) = true
  /\ update demoParse demoRender hiWorld true beforeMount
     = emit EvComplete
         (if negb (truthy hiWorld)
             || (length hiWorld <? length (prevContent beforeMount))
          then set_hasEmittedStart false beforeMount else beforeMount).
Proof.
  assert (H1 : staticContainer beforeMount = None)
    by (vm_compute; reflexivity).
  assert (H2 : pending beforeMount = []) by (vm_compute; reflexivity).
  assert (H3 : boundHtml beforeMount = streamingHtml beforeMount)
    by (vm_compute; reflexivity).
  assert (H4 : truthy (prevContent beforeMount) = true)
    by (vm_compute; reflexivity).
  split; [exact H1|]. split; [exact H2|]. split; [exact H3|].
  split; [exact H4|].
  exact (complete_before_mount demoParse demoRender hiWorld beforeMount
           H1 H2 H3 H4).
Defined.

(** The first content with the completion flag set. *)
Lemma fresh_update_ignores_completion_witness :
  truthy (prevContent (@init str)) = false
  /\ update demoParse demoRender hi true init
     = update demoParse demoRender hi false init.
Proof.
  split; [reflexivity|].
  apply (fresh_update_ignores_completion demoParse demoRender hi init).
  reflexivity.
Defined.

(** The first content with two blocks. *)
Lemma fresh_update_outcome_witness :
  quiescent demoParse (@init str)
  /\ resetOutcome demoParse demoRender twoBlocks
       (update demoParse demoRender twoBlocks false init).
Proof.
  assert (Hq : quiescent demoParse (@init str)) by apply init_quiescent.
  split; [exact Hq|].
  apply (fresh_update_outcome demoParse demoRender twoBlocks false init Hq).
  reflexivity.
Defined.

(** The last of three element children, which carried [first-block]. *)
Lemma margin_markers_exact_witness :
  Margins.applyMarginClasses (Some staleMargins)
  = Some [Margins.Element (lit "<p>a</p>") [Margins.firstBlock];
          Margins.TextNode [nl];
          Margins.Element (lit "<p>b</p>") [];
          Margins.Element (lit "<pre>c</pre>")
            [lit "code"; Margins.lastBlock]]
  /\ (In Margins.firstBlock [lit "code"; Margins.lastBlock] <-> 2 = 0)
  /\ (In Margins.lastBlock [lit "code"; Margins.lastBlock]
      <-> 3 = length (Margins.children staleMargins)).
Proof.
  assert (H : Margins.applyMarginClasses (Some staleMargins)
              = Some [Margins.Element (lit "<p>a</p>") [Margins.firstBlock];
                      Margins.TextNode [nl];
                      Margins.Element (lit "<p>b</p>") [];
                      Margins.Element (lit "<pre>c</pre>")
                        [lit "code"; Margins.lastBlock]])
    by reflexivity.
  split; [exact H|].
  apply (MarginFacts.margin_markers_exact staleMargins _ 2 _ H).
  reflexivity.
Defined.

(** A paragraph with [class="x x last-block"]: afterwards the class is
    [x first-block last-block]. *)
Lemma applyMarginClasses_only_markers_witness :
  Margins.applyMarginClasses (Some repeatedToken)
  = Some [Margins.Element (lit "<p>a</p>")
            [lit "x"; Margins.firstBlock; Margins.lastBlock]]
  /\ map Margins.withoutMarkers
       [Margins.Element (lit "<p>a</p>")
          [lit "x"; Margins.firstBlock; Margins.lastBlock]]
     = map Margins.withoutMarkers repeatedToken
  /\ Forall (@NoDup str)
       (Margins.childClasses
          [Margins.Element (lit "<p>a</p>")
             [lit "x"; Margins.firstBlock; Margins.lastBlock]]).
Proof.
  assert (H : Margins.applyMarginClasses (Some repeatedToken)
              = Some [Margins.Element (lit "<p>a</p>")
                        [lit "x"; Margins.firstBlock; Margins.lastBlock]])
    by reflexivity.
  split; [exact H|].
  exact (MarginFacts.applyMarginClasses_only_markers repeatedToken _ H).
Defined.

(** A JavaScript block as the fence rule writes it. *)
Lemma fence_block_never_highlighted_witness :
  LazyHighlight.highlightBlock (fun markup => markup) demoClassListAdd
    (fun _ => true) demoHighlight
    {| LazyHighlight.className := Markdown.fenceCodeClass (lit "js");
       LazyHighlight.innerHTML := lit "let x";
       LazyHighlight.needsHighlight := Some (lit "true") |}
  = {| LazyHighlight.className := Markdown.fenceCodeClass (lit "js");
       LazyHighlight.innerHTML := lit "let x";
       LazyHighlight.needsHighlight := Some (lit "true") |}.
Proof.
  apply (HighlightFacts.fence_block_never_highlighted
           (fun markup => markup) demoClassListAdd (fun _ => true)
           demoHighlight (lit "js") (lit "let x") (Some (lit "true"))).
  reflexivity.
Defined.

(** The upstream answers 404: the handler throws 404 too. *)
Lemma search_errors_normalised_witness :
  fst (SearchApi.handler demoCreateError demoMinToString notFoundFetch
         (lit "key") demoQuery)
  = SearchApi.Threw
      (demoCreateError 404 (lit "Search API failed: Not Found"))
  /\ exists code message,
       demoCreateError 404 (lit "Search API failed: Not Found")
       = demoCreateError code message
       /\ code <> 0%N /\ truthy message = true
       /\ (truthy (lit "key") = false -> code = 500%N)
       /\ (truthy (lit "key") = true ->
           truthy (SearchApi.q demoQuery) = false -> code = 400%N).
Proof.
  assert (H : fst (SearchApi.handler demoCreateError demoMinToString
                     notFoundFetch (lit "key") demoQuery)
              = SearchApi.Threw
                  (demoCreateError 404 (lit "Search API failed: Not Found")))
    by reflexivity.
  split; [exact H|].
  exact (SearchFacts.search_errors_normalised str demoCreateError
           demoMinToString notFoundFetch (lit "key") demoQuery _ H).
Defined.

(** A PNG and a PDF offered without vision support: only the PDF gets
    in. *)
Lemma no_image_without_vision_witness :
  Forall (fun c => match c with
                   | Attachments.CallAddFile _ supportsVision _ =>
                       supportsVision = false
                   | _ => True
                   end)
    [Attachments.CallAddFile pngFile false (Some (lit "id1"));
     Attachments.CallAddFile pdfFile false (Some (lit "id2"))]
  /\ Attachments.hasImages
       (Attachments.doCalls (fun s => s) demoDataUrl
          [Attachments.CallAddFile pngFile false (Some (lit "id1"));
           Attachments.CallAddFile pdfFile false (Some (lit "id2"))]
          Attachments.useAttachments) = false.
Proof.
  assert (H : Forall (fun c => match c with
                               | Attachments.CallAddFile _ supportsVision _ =>
                                   supportsVision = false
                               | _ => True
                               end)
                [Attachments.CallAddFile pngFile false (Some (lit "id1"));
                 Attachments.CallAddFile pdfFile false (Some (lit "id2"))])
    by (repeat constructor).
  split; [exact H|].
  exact (AttachmentFacts.no_image_without_vision (fun s => s) demoDataUrl
           _ H).
Defined.

End MoreRuns.
